(** * Product-photo analysis pipeline (LycorisBlue/ai): model and properties

    A shallow embedding of the orchestration code around the vision model:
    - [config/settings.py]     the schema and the supported formats,
    - [src/file_manager.py]    the input listing, the size probe and the move
                               to the directory of processed images,
    - [src/image_processor.py] the pass-through test, the quality loop, the
                               batch and the validation of its results,
    - [src/gemini_client.py]   batching, retry, response parsing, alignment
                               and the MIME table,
    - [src/data_processor.py]  cleaning, scoring, status classification and
                               the summary report,
    - [src/main.py]            the analysis and summary steps.

    Conventions of the model.
    - A Python [str] is a [string] holding its UTF-8 bytes.  The class [\d]
      of [re] is the class of the decimal digits of Unicode.  The blanks of
      [str.strip] and the capitals of [str.lower] are the ASCII ones: for
      these two, a character outside ASCII is caseless and no blank.
    - A Python [dict] used as a record is a [gmap string pyval]; a [dict]
      nested in a JSON value keeps its items as a list of pairs.
    - A Python [float] is a binary64 [float] of the kernel, so the score
      [(k / 7) * 100] and the tests [<=], [>=] are computed as Python
      computes them.
    - The vision model, the JSON decoder, the image codec, the wall clock and
      the file system are parameters or explicit state.
    - An entry of the log carries the level and the message, without the
      pictograph that opens some messages and without the text of a caught
      exception that closes others. *)

From Stdlib Require Import Floats ZArith Uint63 Ascii.
From stdpp Require Import gmap strings list fin_maps sorting pretty.

Set Warnings "-register-all,-inexact-float".

(** ** Python strings *)

Module PyStr.

Definition code (c : ascii) : nat := nat_of_ascii c.

(** [str.isspace] on ASCII: TAB, LF, VT, FF, CR, FS, GS, RS, US, space. *)
Definition isspace (c : ascii) : bool :=
  ((9 <=? code c) && (code c <=? 13)) || ((28 <=? code c) && (code c <=? 32)).

Definition isupper (c : ascii) : bool := (65 <=? code c) && (code c <=? 90).

Definition lower_char (c : ascii) : ascii :=
  if isupper c then ascii_of_nat (code c + 32) else c.

(** [s.lower()] *)
Fixpoint lower (s : string) : string :=
  match s with
  | EmptyString => EmptyString
  | String c r => String (lower_char c) (lower r)
  end.

(** [s.lstrip()] *)
Fixpoint lstrip (s : string) : string :=
  match s with
  | EmptyString => EmptyString
  | String c r => if isspace c then lstrip r else s
  end.

(** [s.rstrip()] *)
Fixpoint rstrip (s : string) : string :=
  match s with
  | EmptyString => EmptyString
  | String c r =>
      match rstrip r with
      | EmptyString => if isspace c then EmptyString else String c EmptyString
      | r' => String c r'
      end
  end.

(** [s.strip()] *)
Definition strip (s : string) : string := rstrip (lstrip s).

(** [s.startswith(p)] *)
Definition startswith (p s : string) : bool := String.prefix p s.

(** [s.endswith(p)] *)
Definition endswith (p s : string) : bool :=
  String.prefix (String.rev p) (String.rev s).

(** [s[n:]] *)
Fixpoint drop (n : nat) (s : string) : string :=
  match n, s with
  | S n', String _ r => drop n' r
  | _, _ => s
  end.

(** [s[:n]] *)
Fixpoint take (n : nat) (s : string) : string :=
  match n, s with
  | S n', String c r => String c (take n' r)
  | _, _ => EmptyString
  end.

(** [s[:-n]] for [n > 0] *)
Definition drop_end (n : nat) (s : string) : string :=
  take (String.length s - n) s.

(** [old in s] *)
Fixpoint contains (old s : string) : bool :=
  String.prefix old s ||
  match s with
  | EmptyString => false
  | String _ r => contains old r
  end.

(** [s.replace(old, new)] for a non-empty [old]: occurrences are replaced
    from the left and do not overlap.  [skip] counts the characters of an
    occurrence already replaced that are still to be passed over. *)
Fixpoint replace_from (old new : string) (skip : nat) (s : string) : string :=
  match s with
  | EmptyString => EmptyString
  | String c r =>
      match skip with
      | S k => replace_from old new k r
      | O =>
          if String.prefix old s
          then new +:+ replace_from old new (String.length old - 1) r
          else String c (replace_from old new 0 r)
      end
  end.

Definition replace (old new s : string) : string := replace_from old new 0 s.

(** *** Characters

    A character of the string is one byte under 128, or a first byte from
    192 followed by one to three continuation bytes, which are the bytes
    from 128 to 191. *)

Definition is_cont (c : ascii) : bool := (128 <=? code c) && (code c <? 192).

Definition starts_cont (s : string) : bool :=
  match s with
  | EmptyString => false
  | String c _ => is_cont c
  end.

(** The characters of a string, as [iter(s)] yields them, each with its
    bytes: a character starts at every byte that is no continuation byte. *)
Fixpoint chars (s : string) : list string :=
  match s with
  | EmptyString => []
  | String c r =>
      match chars r with
      | ch :: rest =>
          if starts_cont ch then String c ch :: rest
          else String c EmptyString :: ch :: rest
      | [] => [String c EmptyString]
      end
  end.

(** [''.join(l)] *)
Definition join (l : list string) : string := foldr String.append "" l.

(** [re.sub('[^...]', '', s)]: keep the characters of the class. *)
Definition keep (class : string → bool) (s : string) : string :=
  join (filter (λ ch, class ch = true) (chars s)).

(** The number that a sequence of one to four bytes encodes. *)
Definition decode (ch : string) : option N :=
  let bits (c : ascii) (lead : N) : N := (N_of_ascii c - lead)%N in
  match ch with
  | String a EmptyString =>
      if code a <? 128 then Some (N_of_ascii a) else None
  | String a (String b EmptyString) =>
      if (192 <=? code a) && (code a <? 224) && is_cont b
      then Some (bits a 192 * 64 + bits b 128)%N else None
  | String a (String b (String c EmptyString)) =>
      if (224 <=? code a) && (code a <? 240) && is_cont b && is_cont c
      then Some ((bits a 224 * 64 + bits b 128) * 64 + bits c 128)%N else None
  | String a (String b (String c (String d EmptyString))) =>
      if (240 <=? code a) && (code a <? 248) && is_cont b && is_cont c
         && is_cont d
      then Some (((bits a 240 * 64 + bits b 128) * 64 + bits c 128) * 64
                 + bits d 128)%N
      else None
  | _ => None
  end.

(** [ord(ch)] for a character given by its bytes: the number they encode,
    when they are the shortest encoding of this number and the number is a
    code point other than a surrogate. *)
Definition ord (ch : string) : option N :=
  match decode ch with
  | Some n =>
      let least : N :=
        match String.length ch with
        | 1 => 0%N
        | 2 => 0x80%N
        | 3 => 0x800%N
        | _ => 0x10000%N
        end in
      if (least <=? n)%N && (n <=? 0x10FFFF)%N
         && negb ((0xD800 <=? n)%N && (n <=? 0xDFFF)%N)
      then Some n else None
  | None => None
  end.

(** The decimal digits of the Unicode database (category Nd), as the runs
    of code points they make, first and last; the list is that of version
    14.0 of the database.  The digits of ASCII are the first run. *)
Definition DECIMAL_DIGITS : list (N * N) :=
  [(0x30, 0x39); (0x660, 0x669); (0x6f0, 0x6f9); (0x7c0, 0x7c9);
   (0x966, 0x96f); (0x9e6, 0x9ef); (0xa66, 0xa6f); (0xae6, 0xaef);
   (0xb66, 0xb6f); (0xbe6, 0xbef); (0xc66, 0xc6f); (0xce6, 0xcef);
   (0xd66, 0xd6f); (0xde6, 0xdef); (0xe50, 0xe59); (0xed0, 0xed9);
   (0xf20, 0xf29); (0x1040, 0x1049); (0x1090, 0x1099); (0x17e0, 0x17e9);
   (0x1810, 0x1819); (0x1946, 0x194f); (0x19d0, 0x19d9); (0x1a80, 0x1a89);
   (0x1a90, 0x1a99); (0x1b50, 0x1b59); (0x1bb0, 0x1bb9); (0x1c40, 0x1c49);
   (0x1c50, 0x1c59); (0xa620, 0xa629); (0xa8d0, 0xa8d9); (0xa900, 0xa909);
   (0xa9d0, 0xa9d9); (0xa9f0, 0xa9f9); (0xaa50, 0xaa59); (0xabf0, 0xabf9);
   (0xff10, 0xff19); (0x104a0, 0x104a9); (0x10d30, 0x10d39);
   (0x11066, 0x1106f); (0x110f0, 0x110f9); (0x11136, 0x1113f);
   (0x111d0, 0x111d9); (0x112f0, 0x112f9); (0x11450, 0x11459);
   (0x114d0, 0x114d9); (0x11650, 0x11659); (0x116c0, 0x116c9);
   (0x11730, 0x11739); (0x118e0, 0x118e9); (0x11950, 0x11959);
   (0x11c50, 0x11c59); (0x11d50, 0x11d59); (0x11da0, 0x11da9);
   (0x16a60, 0x16a69); (0x16ac0, 0x16ac9); (0x16b50, 0x16b59);
   (0x1d7ce, 0x1d7ff); (0x1e140, 0x1e149); (0x1e2f0, 0x1e2f9);
   (0x1e950, 0x1e959); (0x1fbf0, 0x1fbf9)]%N.

(** The class [\d] of [re] on one character, which is [ch.isdecimal()]. *)
Definition isdecimal (ch : string) : bool :=
  match ord ch with
  | Some n => existsb (λ run, (run.1 <=? n)%N && (n <=? run.2)%N) DECIMAL_DIGITS
  | None => false
  end.

End PyStr.

(** ** Python values *)

(** The values a record can hold: what [json.loads] builds, and the integers
    and floats the normalizer adds. *)
Inductive pyval : Type :=
  | VNone
  | VBool (b : bool)
  | VInt (z : Z)
  | VFloat (f : float)
  | VStr (s : string)
  | VList (l : list pyval)
  | VDict (d : list (string * pyval)).

(** [bool(v)] *)
Definition truthy (v : pyval) : bool :=
  match v with
  | VNone => false
  | VBool b => b
  | VInt z => negb (z =? 0)%Z
  | VFloat f => negb (PrimFloat.eqb f 0)
  | VStr s => negb (String.eqb s "")
  | VList l => match l with [] => false | _ => true end
  | VDict d => match d with [] => false | _ => true end
  end.

(** [v != s] for a string literal [s] *)
Definition differs_from_str (v : pyval) (s : string) : bool :=
  match v with
  | VStr t => negb (String.eqb t s)
  | _ => true
  end.

(** [type(v).__name__] *)
Definition type_name (v : pyval) : string :=
  match v with
  | VNone => "NoneType"
  | VBool _ => "bool"
  | VInt _ => "int"
  | VFloat _ => "float"
  | VStr _ => "str"
  | VList _ => "list"
  | VDict _ => "dict"
  end.

(** [float(z)] for a count or a size, [0 <= z < 2^63]. *)
Definition float_of_Z (z : Z) : float := PrimFloat.of_uint63 (Uint63.of_Z z).

Definition float_of_nat (n : nat) : float := float_of_Z (Z.of_nat n).

(** ** config/settings.py *)

Module Settings.

Definition SUPPORTED_IMAGE_FORMATS : list string :=
  [".jpg"; ".jpeg"; ".png"; ".webp"; ".heic"; ".heif"].

(** The keys of [PRODUCT_SCHEMA], in declaration order. *)
Definition PRODUCT_SCHEMA : list string :=
  ["nom_produit"; "description_type"; "volume"; "prix_fcfa";
   "code_barres_ean"; "code_article"; "source_information"].

End Settings.

(** The sentinels of the code (the spec names them "Not detected",
    "Analysis error" and "Not analyzed"). *)
Definition NON_DETECTE : string := "Non détecté".
Definition ERREUR_ANALYSE : string := "Erreur d'analyse".
Definition NON_ANALYSE : string := "Non analysé".

(** A record of the pipeline: a Python [dict] with string keys. *)
Abbreviation record := (gmap string pyval).

(** ** src/data_processor.py *)

Module DataProcessor.
Import Settings.

(** The spellings of "no value" tested by [_clean_result]. *)
Definition NULL_WORDS : list string :=
  [""; "n/a"; "na"; "null"; "none"; "?"; "-"].

(** The class [[\d.,]] of [_clean_price], on one character. *)
Definition price_char (ch : string) : bool :=
  PyStr.isdecimal ch || String.eqb ch "." || String.eqb ch ",".

Definition _clean_price (price_str : string) : string :=
  if decide (price_str = NON_DETECTE) then price_str
  else
    let cleaned := PyStr.keep price_char price_str in
    if decide (cleaned = "") then NON_DETECTE else cleaned.

(** The dict [replacements] of [_clean_volume], in insertion order, which is
    the order in which the loop applies it. *)
Definition replacements : list (string * string) :=
  [("litres", "L"); ("litre", "L");
   ("millilitres", "mL"); ("millilitre", "mL");
   ("grammes", "g"); ("gramme", "g");
   ("kilogrammes", "kg"); ("kilogramme", "kg")].

Definition apply_replacements (volume_str : string) : string :=
  foldl (λ acc item, PyStr.replace item.1 item.2 acc) volume_str replacements.

Definition _clean_volume (volume_str : string) : string :=
  if decide (volume_str = NON_DETECTE) then volume_str
  else PyStr.strip (apply_replacements (PyStr.lower volume_str)).

Definition _clean_barcode (barcode_str : string) : string :=
  if decide (barcode_str = NON_DETECTE) then barcode_str
  else
    let cleaned := PyStr.keep PyStr.isdecimal barcode_str in
    if decide (cleaned = "") then NON_DETECTE else cleaned.

(** The body of the first loop of [_clean_result], for one field. *)
Definition clean_field (field : string) (value : pyval) : pyval :=
  match value with
  | VStr s =>
      let value := PyStr.strip s in
      if decide (PyStr.lower value ∈ NULL_WORDS) then VStr NON_DETECTE
      else if decide (field = "prix_fcfa") then VStr (_clean_price value)
      else if decide (field = "volume") then VStr (_clean_volume value)
      else if decide (field = "code_barres_ean") then VStr (_clean_barcode value)
      else VStr value
  | _ => value
  end.

Definition META_FIELDS : list string := ["nom_fichier"; "chemin_fichier"; "erreur"].

Definition _clean_result (result : record) : record :=
  let cleaned :=
    foldl (λ cleaned field,
             <[field := clean_field field (default (VStr NON_DETECTE) (result !! field))]> cleaned)
          ∅ PRODUCT_SCHEMA in
  foldl (λ cleaned meta_field,
           match result !! meta_field with
           | Some v => <[meta_field := v]> cleaned
           | None => cleaned
           end)
        cleaned META_FIELDS.

(** The test of [_calculate_completeness] on one value. *)
Definition is_complete (value : pyval) : bool :=
  truthy value && differs_from_str value NON_DETECTE
  && differs_from_str value ERREUR_ANALYSE.

Definition count_complete (result : record) : nat :=
  foldl (λ complete_fields field,
           if is_complete (default (VStr "") (result !! field))
           then S complete_fields else complete_fields)
        0 PRODUCT_SCHEMA.

Definition _calculate_completeness (result : record) : float :=
  let total_fields := length PRODUCT_SCHEMA in
  (float_of_nat (count_complete result) / float_of_nat total_fields * 100)%float.

(** The counters logged by [_log_processing_stats]. *)
Record stats : Type :=
  { total : nat; valides : nat; erreurs : nat; partiels : nat }.

Section process_results.

(** [now i] is the reading [datetime.now().strftime(...)] taken while the
    [i]-th result is processed. *)
Variable now : nat → string.

(** The body of the loop of [process_results]: the cleaned, scored and
    classified record.  No operation of this body can raise on a record of
    the model (every lookup has a default, and truth value, comparison with
    a string and [>=] on a float are defined on all values), so the
    [except] branch of the source, which would skip the result, is never
    taken. *)
Definition process_one (i : nat) (result : record) : record :=
  let cleaned_result := _clean_result result in
  let cleaned_result := <["numero_sequence" := VInt (Z.of_nat i)]> cleaned_result in
  let cleaned_result := <["date_traitement" := VStr (now i)]> cleaned_result in
  let completeness_score := _calculate_completeness cleaned_result in
  let cleaned_result := <["score_completude" := VFloat completeness_score]> cleaned_result in
  if decide (is_Some (cleaned_result !! "erreur"))
  then <["statut" := VStr "Erreur"]> cleaned_result
  else if (80 <=? completeness_score)%float
  then <["statut" := VStr "Complet"]> cleaned_result
  else <["statut" := VStr "Partiel"]> cleaned_result.

Definition count_one (st : stats) (processed : record) : stats :=
  match processed !! "statut" with
  | Some (VStr "Erreur") =>
      {| total := total st; valides := valides st;
         erreurs := S (erreurs st); partiels := partiels st |}
  | Some (VStr "Complet") =>
      {| total := total st; valides := S (valides st);
         erreurs := erreurs st; partiels := partiels st |}
  | _ =>
      {| total := total st; valides := valides st;
         erreurs := erreurs st; partiels := S (partiels st) |}
  end.

(** [process_results]: the records returned and the counters logged.  The
    results are numbered from 1, as [enumerate(raw_results, 1)] does. *)
Definition process_results (raw_results : list record) : list record * stats :=
  foldl (λ acc item,
           let processed := process_one item.1 item.2 in
           (acc.1 ++ [processed], count_one acc.2 processed))
        ([], {| total := length raw_results; valides := 0;
                erreurs := 0; partiels := 0 |})
        (zip (seq 1 (length raw_results)) raw_results).

End process_results.

End DataProcessor.


(** ** Paths, files and the log *)

(** A [pathlib.Path] of the pipeline: a directory and a final component. *)
Record Path : Type := { parent : string; name : string }.

(** [str(p)] *)
Definition path_str (p : Path) : string := parent p +:+ "/" +:+ name p.

(** [parent_dir / file_name] *)
Definition path_join (dir file_name : string) : Path :=
  {| parent := dir; name := file_name |}.

(** The part of [s] that starts at its last dot, if [s] has a dot. *)
Fixpoint from_last_dot (s : string) : option string :=
  match s with
  | EmptyString => None
  | String c r =>
      match from_last_dot r with
      | Some t => Some t
      | None => if Ascii.eqb c "." then Some s else None
      end
  end.

(** [p.suffix]: with [i = name.rfind('.')], the slice [name[i:]] when
    [0 < i < len(name) - 1], and the empty string otherwise. *)
Definition suffix (p : Path) : string :=
  match name p with
  | EmptyString => ""
  | String _ r =>
      match from_last_dot r with
      | Some t => if 1 <? String.length t then t else ""
      | None => ""
      end
  end.

(** [p < q] or [p == q] in the order of [pathlib] on a POSIX system, for
    paths of the pipeline: the directories are compared first, then the
    final components, each by code point. *)
Definition path_le (p q : Path) : Prop :=
  if decide (parent p = parent q) then String.le (name p) (name q)
  else String.le (parent p) (parent q).

#[global] Instance path_le_dec : RelDecision path_le.
Proof. intros p q. unfold path_le. case_decide; apply _. Defined.

(** What the components write to the log or ask of the codec, in order. *)
Inductive event : Type :=
  | LogError (message : string)
  | LogWarning (message : string)
  | LogInfo (message : string)
  | LogDebug (message : string)
  | SaveJpeg (target : string) (quality : Z).

(** The qualities of the [img.save] calls recorded in a log. *)
Definition saved_qualities (l : list event) : list Z :=
  omap (λ e, match e with SaveJpeg _ q => Some q | _ => None end) l.

(** The warnings and the errors recorded in a log. *)
Definition warnings (l : list event) : list string :=
  omap (λ e, match e with LogWarning m => Some m | _ => None end) l.

Definition errors (l : list event) : list string :=
  omap (λ e, match e with LogError m => Some m | _ => None end) l.

(** The file system: the content of every regular file, by path string. *)
Abbreviation files := (gmap string (list Byte.byte)).

(** ** src/file_manager.py *)

Module FileManager.
Import Settings.

(** An entry of a directory, as [iterdir] yields it. *)
Record dir_entry : Type := { entry_name : string; entry_is_file : bool }.

Definition _is_valid_image (file_path : Path) : bool :=
  bool_decide (PyStr.lower (suffix file_path) ∈ SUPPORTED_IMAGE_FORMATS).

(** The loop of [get_input_images] over the entries of the directory. *)
Definition scan_entry (input_dir : string) (acc : list Path * list event)
    (e : dir_entry) : list Path * list event :=
  let file_path := path_join input_dir (entry_name e) in
  if entry_is_file e && _is_valid_image file_path
  then (acc.1 ++ [file_path],
        acc.2 ++ [LogDebug ("Image valide trouvée : " +:+ name file_path)])
  else if entry_is_file e
  then (acc.1,
        acc.2 ++ [LogWarning ("Fichier ignoré (format non supporté) : "
                              +:+ name file_path)])
  else acc.

(** [get_input_images]: [listing] is [None] when the input directory does
    not exist, and otherwise its entries in the order [iterdir] yields
    them.  The result is the list returned and what was logged. *)
Definition get_input_images (input_dir : string)
    (listing : option (list dir_entry)) : list Path * list event :=
  match listing with
  | None =>
      ([], [LogError ("Le dossier d'entrée n'existe pas : " +:+ input_dir)])
  | Some entries =>
      let scanned := foldl (scan_entry input_dir) ([], []) entries in
      (merge_sort path_le scanned.1,
       scanned.2 ++ [LogInfo (pretty (length scanned.1) +:+ " images valides trouvées dans "
                              +:+ input_dir)])
  end.

(** [size_bytes / (1024 * 1024)] *)
Definition size_mb (size_bytes : nat) : float :=
  (float_of_nat size_bytes / float_of_Z (1024 * 1024))%float.

(** [get_file_size_mb] *)
Definition get_file_size_mb (fs : files) (file_path : Path) : float :=
  match fs !! path_str file_path with
  | None => 0%float
  | Some content => size_mb (length content)
  end.

End FileManager.

(** ** src/image_processor.py *)

(** The exceptions of the file and image operations. *)
Inductive exn : Type :=
  | FileNotFoundError (path : string)
  | SameFileError (path : string)
  | ImageError (path : string).

(** The state the image processor acts on. *)
Record world : Type := { fs : files; log : list event }.

Definition add_log (w : world) (e : event) : world :=
  {| fs := fs w; log := log w ++ [e] |}.

Definition write_file (w : world) (e : event) (path : string)
    (content : list Byte.byte) : world :=
  {| fs := <[path := content]> (fs w); log := log w ++ [e] |}.

(** [shutil.copy2(src, dst)] on the contents: a missing source and a
    destination that is the source are refused. *)
Definition copy2 (files_now : files) (src dst : string) : exn + files :=
  match files_now !! src with
  | None => inl (FileNotFoundError src)
  | Some content =>
      if decide (src = dst) then inl (SameFileError src)
      else inr (<[dst := content]> files_now)
  end.

Module ImageProcessor.
Import FileManager.

Section image_processor.

(** The settings read by the module. *)
Variable MAX_IMAGE_SIZE_MB : float.
Variable COMPRESSION_QUALITY : Z.
Variable PROCESSED_DIR : string.

(** The codec.  [prepare content] is the image obtained from a file by
    [Image.open], [exif_transpose], the conversion to RGB and
    [_resize_if_needed], or [None] when Pillow raises;
    [encode_jpeg img q] is what [img.save(..., 'JPEG', quality=q,
    optimize=True, progressive=True)] writes. *)
Variable image : Type.
Variable prepare : list Byte.byte → option image.
Variable encode_jpeg : image → Z → list Byte.byte.

(** The text of a float in a log message. *)
Variable format_float : float → string.

(** The loop [for attempt in range(5)] of [_compress_image], from the
    attempt at the head of [attempts] on. *)
Fixpoint compress_attempts (attempts : list nat) (input_name : string)
    (img : image) (temp_path : Path) (quality : Z) (w : world) : world :=
  match attempts with
  | [] => w
  | attempt :: rest =>
      let w := write_file w (SaveJpeg (path_str temp_path) quality)
                 (path_str temp_path) (encode_jpeg img quality) in
      let current_size := get_file_size_mb (fs w) temp_path in
      if (current_size <=? MAX_IMAGE_SIZE_MB)%float
      then add_log w (LogDebug ("Compression réussie avec qualité " +:+ pretty quality))
      else
        let quality := Z.max 20 (quality - 15) in
        let w :=
          if decide (attempt = 4)
          then add_log w (LogWarning ("Impossible de réduire " +:+ input_name +:+ " sous "
                                      +:+ format_float MAX_IMAGE_SIZE_MB +:+ " Mo"))
          else w in
        compress_attempts rest input_name img temp_path quality w
  end.

Definition _compress_image (input_path output_path : Path) (w : world)
    : (exn + Path) * world :=
  match fs w !! path_str input_path with
  | None =>
      (inl (FileNotFoundError (path_str input_path)),
       add_log w (LogError ("Erreur lors de la compression de " +:+ name input_path)))
  | Some content =>
      match prepare content with
      | None =>
          (inl (ImageError (path_str input_path)),
           add_log w (LogError ("Erreur lors de la compression de " +:+ name input_path)))
      | Some img =>
          let quality := COMPRESSION_QUALITY in
          let temp_path := output_path in
          (inr temp_path,
           compress_attempts (seq 0 5) (name input_path) img temp_path quality w)
      end
  end.

(** The branch of [_process_single_image] taken when the image is within
    the limit: a plain copy. *)
Definition pass_through (image_path output_path : Path) (w : world)
    : (exn + Path) * world :=
  match copy2 (fs w) (path_str image_path) (path_str output_path) with
  | inl e => (inl e, w)
  | inr copied =>
      (inr output_path,
       {| fs := copied;
          log := log w ++ [LogDebug ("Image copiée sans modification: "
                                     +:+ name image_path)] |})
  end.

Definition _process_single_image (image_path : Path) (w : world)
    : (exn + Path) * world :=
  let output_path := path_join PROCESSED_DIR (name image_path) in
  let initial_size := get_file_size_mb (fs w) image_path in
  let w := add_log w (LogDebug ("Taille initiale: " +:+ format_float initial_size +:+ " Mo")) in
  if (initial_size <=? MAX_IMAGE_SIZE_MB)%float
  then pass_through image_path output_path w
  else
    match _compress_image image_path output_path w with
    | (inl e, w) => (inl e, w)
    | (inr compressed_path, w) =>
        let final_size := get_file_size_mb (fs w) compressed_path in
        (inr compressed_path,
         add_log w (LogDebug ("Taille finale: " +:+ format_float final_size
                              +:+ " Mo (réduction: "
                              +:+ format_float ((initial_size - final_size) / initial_size * 100)
                              +:+ "%)")))
    end.

(** [process_batch]: an image whose processing raises is logged and left
    out.  The images are numbered from 1, as [enumerate(image_paths, 1)]
    does. *)
Definition process_batch (image_paths : list Path) (w : world)
    : list Path * world :=
  let total_images := length image_paths in
  let w := add_log w (LogInfo ("Début du traitement de " +:+ pretty total_images
                               +:+ " images")) in
  let processed :=
    foldl (λ (acc : list Path * world) (item : nat * Path),
             let image_path := item.2 in
             let w := add_log acc.2
                        (LogInfo ("Traitement image " +:+ pretty item.1 +:+ "/"
                                  +:+ pretty total_images +:+ ": "
                                  +:+ name image_path)) in
             match _process_single_image image_path w with
             | (inr processed_path, w) => (acc.1 ++ [processed_path], w)
             | (inl _, w) =>
                 (acc.1, add_log w (LogError ("Erreur lors du traitement de "
                                              +:+ name image_path)))
             end)
          ([], w) (zip (seq 1 total_images) image_paths) in
  (processed.1,
   add_log processed.2
     (LogInfo (pretty (length processed.1) +:+ " images traitées avec succès"))).

End image_processor.

End ImageProcessor.

(** ** src/gemini_client.py *)

(** What one call of [model.generate_content] gives: an exception, with its
    text, or the text of the response. *)
Inductive api_reply : Type :=
  | ApiRaise (message : string)
  | ApiText (text : string).

(** What [json.loads] gives: the value decoded, a [JSONDecodeError], or
    an exception of another class, with its text. *)
Inductive json_reply : Type :=
  | JsonValue (parsed_data : pyval)
  | JsonDecodeError
  | JsonRaise (message : string).

Module GeminiClient.
Import Settings.

(** The Python [dict] built from the items of a JSON object. *)
Definition to_record (d : list (string * pyval)) : record := list_to_map d.

(** [{field: value for field in PRODUCT_SCHEMA.keys()}] *)
Definition schema_filled (value : string) : record :=
  list_to_map ((λ field, (field, VStr value)) <$> PRODUCT_SCHEMA).

Definition _create_empty_result (image_path : Path) : record :=
  let result := schema_filled NON_DETECTE in
  <["source_information" := VStr NON_ANALYSE]>
    (<["chemin_fichier" := VStr (path_str image_path)]>
       (<["nom_fichier" := VStr (name image_path)]> result)).

Definition _create_error_result (image_path : Path) (error_message : string)
    : record :=
  let result := schema_filled ERREUR_ANALYSE in
  <["erreur" := VStr error_message]>
    (<["source_information" := VStr ("Erreur: " +:+ error_message)]>
       (<["chemin_fichier" := VStr (path_str image_path)]>
          (<["nom_fichier" := VStr (name image_path)]> result))).

Definition _validate_product_data (product : record) : record :=
  let product :=
    foldl (λ product field,
             match product !! field with
             | None | Some VNone => <[field := VStr NON_DETECTE]> product
             | Some _ => product
             end)
          product PRODUCT_SCHEMA in
  (λ value, match value with
            | VStr s => VStr (PyStr.strip s)
            | VNone => VStr NON_DETECTE
            | _ => value
            end) <$> product.

(** The first lines of [_parse_gemini_response]: the text handed to
    [json.loads]. *)
Definition strip_fences (response_text : string) : string :=
  let cleaned_response := PyStr.strip response_text in
  let cleaned_response :=
    if PyStr.startswith "```json" cleaned_response
    then PyStr.drop 7 cleaned_response else cleaned_response in
  let cleaned_response :=
    if PyStr.endswith "```" cleaned_response
    then PyStr.drop_end 3 cleaned_response else cleaned_response in
  PyStr.strip cleaned_response.

Definition MISSING_KEY : string :=
  "Format de réponse invalide: clé 'produits' manquante".

Definition is_str (s : string) (v : pyval) : bool :=
  match v with VStr t => String.eqb t s | _ => false end.

(** ['produits' not in parsed_data] followed by [parsed_data['produits']]:
    the value, or the text of the exception raised. *)
Definition get_produits (parsed_data : pyval) : string + pyval :=
  match parsed_data with
  | VDict d =>
      match to_record d !! "produits" with
      | Some products => inr products
      | None => inl MISSING_KEY
      end
  | VList l =>
      if existsb (is_str "produits") l
      then inl "list indices must be integers or slices, not str"
      else inl MISSING_KEY
  | VStr s =>
      if PyStr.contains "produits" s
      then inl "string indices must be integers, not 'str'"
      else inl MISSING_KEY
  | v => inl ("argument of type '" +:+ type_name v +:+ "' is not iterable")
  end.

(** What [enumerate(products)] iterates over, or the text of the
    exception raised. *)
Definition iter_items (products : pyval) : string + list pyval :=
  match products with
  | VList l => inr l
  | VDict d => inr (VStr <$> d.*1)
  | VStr s => inr (VStr <$> PyStr.chars s)
  | v => inl ("'" +:+ type_name v +:+ "' object is not iterable")
  end.

(** The two assignments at the head of the loop body. *)
Definition tag_product (image_paths : list Path) (i : nat) (product : record)
    : record :=
  match image_paths !! i with
  | Some image_path =>
      <["chemin_fichier" := VStr (path_str image_path)]>
        (<["nom_fichier" := VStr (name image_path)]> product)
  | None =>
      <["chemin_fichier" := VStr ""]>
        (<["nom_fichier" := VStr ("image_inconnue_" +:+ pretty (i + 1))]> product)
  end.

(** The loop [for i, product in enumerate(products)], from index [i] on:
    an item that is not a [dict] makes the first assignment raise. *)
Fixpoint tag_products (image_paths : list Path) (i : nat) (items : list pyval)
    : string + list record :=
  match items with
  | [] => inr []
  | VDict d :: rest =>
      match tag_products image_paths (S i) rest with
      | inl e => inl e
      | inr results =>
          inr (_validate_product_data (tag_product image_paths i (to_record d))
               :: results)
      end
  | VList _ :: _ => inl "list indices must be integers or slices, not str"
  | v :: _ => inl ("'" +:+ type_name v +:+ "' object does not support item assignment")
  end.

(** The loop [while len(results) < len(image_paths)]. *)
Definition pad_results (image_paths : list Path) (results : list record)
    : list record :=
  results ++ (_create_empty_result <$> drop (length results) image_paths).

Section gemini_client.

(** [BATCH_SIZE] of the settings. *)
Variable BATCH_SIZE : Z.

(** [json.loads] *)
Variable json_loads : string → json_reply.

(** The model: the outcome of the [n]-th call made in the run (encoding
    the images of the batch, then [generate_content]), for the batch
    sent. *)
Variable call_model : nat → list Path → api_reply.

(** The text of the failed attempt inside the [RetryError] of the [n]-th
    call. *)
Variable future_repr : nat → string.

Definition _parse_gemini_response (response_text : string)
    (image_paths : list Path) : list record :=
  match json_loads (strip_fences response_text) with
  | JsonDecodeError =>
      (λ img_path, _create_error_result img_path "Erreur de parsing JSON")
        <$> image_paths
  | JsonRaise e =>
      (λ img_path, _create_error_result img_path e) <$> image_paths
  | JsonValue parsed_data =>
      let outcome :=
        match get_produits parsed_data with
        | inl e => inl e
        | inr products =>
            match iter_items products with
            | inl e => inl e
            | inr items => tag_products image_paths 0 items
            end
        end in
      match outcome with
      | inl e => (λ img_path, _create_error_result img_path e) <$> image_paths
      | inr results => pad_results image_paths results
      end
  end.

(** The body of [_analyze_batch], for the [n]-th call of the run. *)
Definition attempt (n : nat) (image_paths : list Path) : string + list record :=
  match call_model n image_paths with
  | ApiRaise e => inl e
  | ApiText text =>
      if decide (text = "") then inl "Réponse vide de l'API Gemini"
      else inr (_parse_gemini_response text image_paths)
  end.

(** [@retry(stop=stop_after_attempt(3), ...)]: the body is run again after
    a failure while [more] further attempts are allowed; when none is, a
    [RetryError] is raised.  The result comes with the number of calls made
    so far in the run. *)
Fixpoint retrying (more : nat) (n : nat) (image_paths : list Path)
    : (string + list record) * nat :=
  match attempt n image_paths with
  | inr results => (inr results, S n)
  | inl _ =>
      match more with
      | O => (inl ("RetryError[" +:+ future_repr n +:+ "]"), S n)
      | S more' => retrying more' (S n) image_paths
      end
  end.

Definition STOP_AFTER_ATTEMPT : nat := 3.

Definition _analyze_batch (n : nat) (image_paths : list Path)
    : (string + list record) * nat :=
  retrying (STOP_AFTER_ATTEMPT - 1) n image_paths.

(** [range(0, stop, step)] for [0 <= stop] and [step <> 0]. *)
Definition py_range (stop step : Z) : list Z :=
  if (0 <? step)%Z
  then (λ k, (Z.of_nat k * step)%Z) <$> seq 0 (Z.to_nat ((stop + step - 1) / step))
  else [].

(** [l[i:i + size]] for [0 <= i] and [0 < size]. *)
Definition slice {A} (l : list A) (i size : Z) : list A :=
  take (Z.to_nat size) (drop (Z.to_nat i) l).

(** The body of the loop of [analyze_images]: the state is the number of
    calls made and [all_results]. *)
Definition analyze_step (image_paths : list Path) (acc : nat * list record)
    (i : Z) : nat * list record :=
  let batch := slice image_paths i BATCH_SIZE in
  match _analyze_batch acc.1 batch with
  | (inr batch_results, n) => (n, acc.2 ++ batch_results)
  | (inl e, n) =>
      (n, acc.2 ++ ((λ image_path, _create_error_result image_path e) <$> batch))
  end.

(** [analyze_images], started when [n] calls of the model were made: the
    results, or the text of the [ValueError] of [range] for a zero step. *)
Definition analyze_images (n : nat) (image_paths : list Path)
    : string + list record :=
  let total_images := Z.of_nat (length image_paths) in
  if decide (BATCH_SIZE = 0%Z) then inl "range() arg 3 must not be zero"
  else inr (foldl (analyze_step image_paths) (n, [])
                  (py_range total_images BATCH_SIZE)).2.

End gemini_client.

End GeminiClient.


(** ** Vocabulary of the statements on strings *)

Module PyStrSpec.
Import PyStr.

(** Every byte of a string is in a class. *)
Fixpoint all_bytes (P : ascii → bool) (s : string) : bool :=
  match s with
  | EmptyString => true
  | String c r => P c && all_bytes P r
  end.

(** The bytes of one character: a byte that is no continuation byte, then
    continuation bytes only. *)
Definition proper (ch : string) : bool :=
  match ch with
  | EmptyString => false
  | String c t => negb (is_cont c) && all_bytes is_cont t
  end.

(** A byte of a character that is a digit, a dot or a comma: a digit of
    ASCII, a dot, a comma, or a byte of a character outside ASCII. *)
Definition price_byte (c : ascii) : bool :=
  ((48 <=? code c) && (code c <=? 57)) || Ascii.eqb c "." || Ascii.eqb c ","
  || (128 <=? code c).

End PyStrSpec.

(** ** Vocabulary of the statements on the normalizer *)

Module DataProcessorSpec.
Import PyStr Settings DataProcessor.

(** What [_clean_result] holds at a key: a metadata key is copied, a schema
    key is cleaned, and no other key is kept. *)
Definition cleaned_value (result : record) (k : string) : option pyval :=
  if decide (k ∈ META_FIELDS) then result !! k
  else if decide (k ∈ PRODUCT_SCHEMA)
       then Some (clean_field k (default (VStr NON_DETECTE) (result !! k)))
       else None.

(** The cleaner [clean_field] applies to a string that is not a null word. *)
Definition field_rule (field : string) (v : string) : string :=
  if decide (field = "prix_fcfa") then _clean_price v
  else if decide (field = "volume") then _clean_volume v
  else if decide (field = "code_barres_ean") then _clean_barcode v
  else v.

(** A string that cleaning leaves as it is: stripped, not a null word, and a
    fixed point of the cleaner of its field. *)
Definition settled (field : string) (c : string) : Prop :=
  strip c = c ∧ (lower c ∉ NULL_WORDS) ∧ field_rule field c = c.

(** A cleaned volume that cleaning again leaves as it is: the sentinel, or a
    string that is no null word, has no capital and holds no word of the
    table. *)
Definition volume_fixed_point (c : string) : Prop :=
  c = NON_DETECTE
  ∨ ((lower c ∉ NULL_WORDS) ∧ lower c = c
     ∧ Forall (λ item, contains item.1 c = false) replacements).

Definition volume_settled (result : record) : Prop :=
  match _clean_result result !! "volume" with
  | Some (VStr c) => volume_fixed_point c
  | _ => True
  end.

(** A stripped volume in which [_clean_volume] replaces nothing: the
    sentinel, a null word, or a string in which, once in lower case, no word
    of the table occurs. *)
Definition volume_stable (v : string) : Prop :=
  v = NON_DETECTE ∨ lower v ∈ NULL_WORDS
  ∨ Forall (λ item, contains item.1 (lower v) = false) replacements.

Definition volume_without_unit (result : record) : Prop :=
  match result !! "volume" with
  | Some (VStr s) => volume_stable (strip s)
  | _ => True
  end.

(** A record whose volume names a unit in full, and two whose volume does
    not. *)
Definition r_litres : record := {[ "volume" := VStr "2 Litres" ]}.

Definition r_plain : record :=
  {[ "volume" := VStr " 33 cl "; "prix_fcfa" := VStr "1 200,50 FCFA" ]}.

Definition r_capital : record :=
  {[ "volume" := VStr "1.5L"; "code_barres_ean" := VStr "EAN ٣٤٥ 67" ]}.

End DataProcessorSpec.

(** ** Vocabulary of the statements on the gatekeeper *)

Module FileManagerSpec.
Import Settings FileManager.

(** The entry is a regular file whose extension, in lower case, is one of
    the supported ones. *)
Definition is_image_file (input_dir : string) (e : dir_entry) : Prop :=
  entry_is_file e = true
  ∧ PyStr.lower (suffix (path_join input_dir (entry_name e)))
    ∈ SUPPORTED_IMAGE_FORMATS.

(** The entry is a regular file with another extension, or with none. *)
Definition is_other_file (input_dir : string) (e : dir_entry) : Prop :=
  entry_is_file e = true
  ∧ PyStr.lower (suffix (path_join input_dir (entry_name e)))
    ∉ SUPPORTED_IMAGE_FORMATS.

#[global] Instance is_image_file_dec d e : Decision (is_image_file d e).
Proof. unfold is_image_file. apply _. Defined.

#[global] Instance is_other_file_dec d e : Decision (is_other_file d e).
Proof. unfold is_other_file. apply _. Defined.

(** What scanning one entry writes to the log. *)
Definition scan_log (input_dir : string) (e : dir_entry) : list event :=
  if decide (is_image_file input_dir e)
  then [LogDebug ("Image valide trouvée : " +:+ entry_name e)]
  else if decide (is_other_file input_dir e)
  then [LogWarning ("Fichier ignoré (format non supporté) : " +:+ entry_name e)]
  else [].

End FileManagerSpec.

(** ** Vocabulary of the statements on the compressor *)

Module ImageProcessorSpec.
Import FileManager ImageProcessor.

Section schedule.
Variable MAX_IMAGE_SIZE_MB : float.
Variable image : Type.
Variable encode_jpeg : image → Z → list Byte.byte.
Variable img : image.

(** The test of the loop on the file just written at quality [q]. *)
Definition fits (q : Z) : bool :=
  (size_mb (length (encode_jpeg img q)) <=? MAX_IMAGE_SIZE_MB)%float.

(** The quality of the attempt that follows a failed attempt at [q]. *)
Definition next_quality (q : Z) : Z := Z.max 20 (q - 15).

(** The qualities of [n] attempts in a row, the first at [q]. *)
Fixpoint schedule (n : nat) (q : Z) : list Z :=
  match n with
  | O => []
  | S n' => q :: schedule n' (next_quality q)
  end.

(** How many of at most [n] attempts are made, the first at [q]: the loop
    stops after the first attempt that fits. *)
Fixpoint attempts_made (n : nat) (q : Z) : nat :=
  match n with
  | O => O
  | S n' => if fits q then 1 else S (attempts_made n' (next_quality q))
  end.

(** All of [n] attempts in a row fail, the first at [q]. *)
Fixpoint all_fail (n : nat) (q : Z) : bool :=
  match n with
  | O => true
  | S n' => negb (fits q) && all_fail n' (next_quality q)
  end.

End schedule.

End ImageProcessorSpec.

(** ** Vocabulary of the statements on the batch classifier *)

Module GeminiClientSpec.
Import Settings GeminiClient.

(** The record is the one of the image: it carries the name and the path of
    the image, as they are or stripped (a product returned by the model has
    all its strings stripped by [_validate_product_data], the two metadata
    included). *)
Definition from_image (img : Path) (rec : record) : Prop :=
  (rec !! "nom_fichier" = Some (VStr (name img))
   ∧ rec !! "chemin_fichier" = Some (VStr (path_str img)))
  ∨ (rec !! "nom_fichier" = Some (VStr (PyStr.strip (name img)))
     ∧ rec !! "chemin_fichier" = Some (VStr (PyStr.strip (path_str img)))).

Section responses.
Variable json_loads : string → json_reply.
Variable call_model : nat → list Path → api_reply.

(** The products of a response: what the loop of
    [_parse_gemini_response] iterates over, when the text decodes to a
    value that has products. *)
Definition response_items (response_text : string) : option (list pyval) :=
  match json_loads (strip_fences response_text) with
  | JsonDecodeError | JsonRaise _ => None
  | JsonValue parsed_data =>
      match get_produits parsed_data with
      | inl _ => None
      | inr products =>
          match iter_items products with
          | inl _ => None
          | inr items => Some items
          end
      end
  end.

(** No response holds more products than the batch sent has images. *)
Definition returns_at_most : Prop :=
  ∀ n batch text items,
    call_model n batch = ApiText text →
    response_items text = Some items →
    length items ≤ length batch.

(** The [n]-th call fails: the model raises, or its text is empty. *)
Definition call_fails (n : nat) (batch : list Path) : Prop :=
  match call_model n batch with
  | ApiRaise _ => True
  | ApiText text => text = ""
  end.

End responses.

End GeminiClientSpec.

(** ** src/gemini_client.py: the MIME table and the state of the loop *)

Module GeminiClientRest.
Import Settings GeminiClient.

(** The dict [mime_types] of [_get_mime_type]. *)
Definition MIME_TYPES : list (string * string) :=
  [(".jpg", "image/jpeg"); (".jpeg", "image/jpeg"); (".png", "image/png");
   (".webp", "image/webp"); (".heic", "image/heic"); (".heif", "image/heif")].

Definition _get_mime_type (image_path : Path) : string :=
  let extension := PyStr.lower (suffix image_path) in
  default "image/jpeg" ((list_to_map MIME_TYPES : gmap string string) !! extension).

Section run.
Variable BATCH_SIZE : Z.
Variable json_loads : string → json_reply.
Variable call_model : nat → list Path → api_reply.
Variable future_repr : nat → string.

(** The state of the loop of [analyze_images] when it ends, for a batch
    size that is not zero: the number of calls made in the run and
    [all_results]. *)
Definition analyze_run (n : nat) (image_paths : list Path) : nat * list record :=
  foldl (analyze_step BATCH_SIZE json_loads call_model future_repr image_paths)
        (n, []) (py_range (Z.of_nat (length image_paths)) BATCH_SIZE).

End run.

(** The record has the seven fields of the schema and the two metadata of
    its image, and none of these is [None]. *)
Definition well_formed (rec : record) : Prop :=
  (∀ f, f ∈ PRODUCT_SCHEMA → ∃ x, rec !! f = Some x ∧ x ≠ VNone)
  ∧ (∃ s, rec !! "nom_fichier" = Some (VStr s))
  ∧ (∃ s, rec !! "chemin_fichier" = Some (VStr s)).

(** What the first loop of [_validate_product_data] leaves at a key of the
    schema, and what the second loop makes of a value. *)
Definition filled (o : option pyval) : pyval :=
  match o with
  | None | Some VNone => VStr NON_DETECTE
  | Some x => x
  end.

Definition tidied (value : pyval) : pyval :=
  match value with
  | VStr s => VStr (PyStr.strip s)
  | VNone => VStr NON_DETECTE
  | _ => value
  end.

Definition is_dict (v : pyval) : bool :=
  match v with VDict _ => true | _ => false end.

End GeminiClientRest.

(** ** src/data_processor.py: the summary report *)

Module DataProcessorRest.
Import Settings DataProcessor.

(** The dict returned by [generate_summary_report] for a non-empty list.
    [score_moyen] is a float, or the integer 0 when no record has a numeric
    score. *)
Record report : Type :=
  { total_images : nat;
    images_completes : nat;
    images_partielles : nat;
    images_erreur : nat;
    score_moyen : pyval;
    taux_succes : float;
    date_traitement : string }.

(** [isinstance(v, (int, float))]: a [bool] is an [int]. *)
Definition is_number (v : pyval) : bool :=
  match v with
  | VInt _ | VFloat _ | VBool _ => true
  | _ => false
  end.

(** [statuts.count(s)] *)
Definition count_statut (s : string) (statuts : list pyval) : nat :=
  length (filter (λ v, GeminiClient.is_str s v = true) statuts).

(** [item.get('statut', 'Inconnu')] *)
Definition statut_of (item : record) : pyval :=
  default (VStr "Inconnu") (item !! "statut").

Section summary.

(** [sum(scores) / len(scores)] for a non-empty list of numbers: the way
    [sum] adds floats depends on the version of the interpreter. *)
Variable mean : list pyval → float.

(** The reading of the clock when the report is built. *)
Variable today : string.

Definition generate_summary_report (processed_data : list record)
    : string + report :=
  let total := length processed_data in
  if decide (total = 0) then inl "Aucune donnée à analyser"
  else
    let statuts := statut_of <$> processed_data in
    let scores :=
      omap (λ item : record,
              match item !! "score_completude" with
              | Some v => if is_number v then Some v else None
              | None => None
              end) processed_data in
    inr {| total_images := total;
           images_completes := count_statut "Complet" statuts;
           images_partielles := count_statut "Partiel" statuts;
           images_erreur := count_statut "Erreur" statuts;
           score_moyen := match scores with
                          | [] => VInt 0
                          | _ => VFloat (mean scores)
                          end;
           taux_succes :=
             (float_of_nat (count_statut "Complet" statuts
                            + count_statut "Partiel" statuts)
              / float_of_nat total * 100)%float;
           date_traitement := today |}.

End summary.

End DataProcessorRest.

(** ** src/file_manager.py: the move to the directory of processed images *)

Module FileManagerRest.

(** [p.stem]: the name without its suffix. *)
Definition stem (p : Path) : string :=
  PyStr.take (String.length (name p) - String.length (suffix p)) (name p).

(** The destination tried after [counter - 1] conflicts:
    [processed_dir / f"{stem}_{counter}{suffix}"]. *)
Definition numbered (processed_dir : string) (image_path : Path)
    (counter : nat) : Path :=
  path_join processed_dir
    (stem image_path +:+ "_" +:+ pretty counter +:+ suffix image_path).

(** The loop [while destination.exists()] of [move_to_processed], run for
    at most [fuel] conflicts.  A path exists when it is a file of the
    model. *)
Fixpoint free_destination (fuel : nat) (files_now : files)
    (processed_dir : string) (image_path : Path) (destination : Path)
    (counter : nat) : option Path :=
  match files_now !! path_str destination with
  | None => Some destination
  | Some _ =>
      match fuel with
      | O => None
      | S fuel =>
          free_destination fuel files_now processed_dir image_path
            (numbered processed_dir image_path counter) (S counter)
      end
  end.

(** [shutil.move(src, dst)] to a destination that does not exist: a
    rename, which a missing source refuses. *)
Definition move (files_now : files) (src dst : string) : exn + files :=
  match files_now !! src with
  | None => inl (FileNotFoundError src)
  | Some content => inr (<[dst := content]> (delete src files_now))
  end.

(** [move_to_processed], with as much fuel as there are files, and one
    more: [None] when the fuel runs out. *)
Definition move_to_processed (processed_dir : string) (image_path : Path)
    (w : world) : option ((exn + Path) * world) :=
  match free_destination (S (size (fs w))) (fs w) processed_dir image_path
          (path_join processed_dir (name image_path)) 1 with
  | None => None
  | Some destination =>
      match move (fs w) (path_str image_path) (path_str destination) with
      | inl e => Some (inl e, w)
      | inr moved =>
          Some (inr destination,
                {| fs := moved;
                   log := log w ++ [LogDebug ("Image déplacée : " +:+ name image_path
                                              +:+ " → " +:+ name destination)] |})
      end
  end.

End FileManagerRest.

(** ** src/image_processor.py: the validation of the processed images *)

Module ImageProcessorRest.
Import FileManager ImageProcessor.

Section validation.
Variable MAX_IMAGE_SIZE_MB : float.

(** [verify content] tells whether [Image.open] followed by [img.verify()]
    accepts a file of this content. *)
Variable verify : list Byte.byte → bool.

Variable format_float : float → string.

(** The body of the loop of [validate_processed_images]. *)
Definition validate_one (files_now : files) (acc : list Path * list event)
    (image_path : Path) : list Path * list event :=
  let size_mb := get_file_size_mb files_now image_path in
  if (MAX_IMAGE_SIZE_MB <? size_mb)%float
  then (acc.1,
        acc.2 ++ [LogWarning ("Image trop lourde ignorée: " +:+ name image_path
                              +:+ " (" +:+ format_float size_mb +:+ " Mo)")])
  else
    match files_now !! path_str image_path with
    | Some content =>
        if verify content then (acc.1 ++ [image_path], acc.2)
        else (acc.1,
              acc.2 ++ [LogError ("Image invalide ignorée: " +:+ name image_path)])
    | None =>
        (acc.1,
         acc.2 ++ [LogError ("Image invalide ignorée: " +:+ name image_path)])
    end.

Definition validate_processed_images (image_paths : list Path) (w : world)
    : list Path * world :=
  let checked := foldl (validate_one (fs w)) ([], []) image_paths in
  (checked.1,
   {| fs := fs w;
      log := log w ++ checked.2
             ++ [LogInfo (pretty (length checked.1) +:+ "/"
                          +:+ pretty (length image_paths) +:+ " images validées")] |}).

(** The image is kept by the validation: its file exists, is not over the
    limit and is accepted by the codec. *)
Definition is_valid_file (files_now : files) (image_path : Path) : Prop :=
  (MAX_IMAGE_SIZE_MB <? get_file_size_mb files_now image_path)%float = false
  ∧ ∃ content, files_now !! path_str image_path = Some content
               ∧ verify content = true.

#[global] Instance is_valid_file_dec (files_now : files) (image_path : Path) :
  Decision (is_valid_file files_now image_path).
Proof.
  unfold is_valid_file.
  destruct (MAX_IMAGE_SIZE_MB <? get_file_size_mb files_now image_path)%float;
    [right; by intros [? _]|].
  destruct (files_now !! path_str image_path) as [content|];
    [|right; by intros [_ (? & ? & _)]].
  destruct (verify content) eqn:Hv;
    [left; split; [done|by exists content]|].
  right. intros [_ (c & [= <-] & Hc)]. congruence.
Defined.

End validation.

End ImageProcessorRest.

(** ** main.py: the analysis and the summary *)

Module Main.
Import GeminiClient DataProcessor DataProcessorRest.

(** How steps 5 and 6 of [main] end: with an exit code, or with the final
    data and the summary, on the way to step 7. *)
Inductive outcome : Type :=
  | Exit (code : Z)
  | Analysed (final_data : list record) (summary : string + report).

Section main.
Variable BATCH_SIZE : Z.
Variable json_loads : string → json_reply.
Variable call_model : nat → list Path → api_reply.
Variable future_repr : nat → string.
Variable now : nat → string.
Variable mean : list pyval → float.
Variable today : string.

(** Steps 5 and 6 of [main], for the images that passed the validation: an
    exception of the analysis is caught by the handler of [main], which
    returns 1, as does an empty list of results. *)
Definition analyse_and_summarise (n : nat) (valid_images : list Path) : outcome :=
  match analyze_images BATCH_SIZE json_loads call_model future_repr n valid_images with
  | inl _ => Exit 1
  | inr analysis_results =>
      match analysis_results with
      | [] => Exit 1
      | _ =>
          let final_data := (process_results now analysis_results).1 in
          let summary := generate_summary_report mean today final_data in
          Analysed final_data summary
      end
  end.

End main.

End Main.

(** ** Sample runs *)

(** Concrete inputs on which the definitions above are evaluated below. *)
Module Samples.
Import Settings FileManager GeminiClient.

Definition image_a : Path := path_join "/data/processed" "a.jpg".
Definition image_b : Path := path_join "/data/processed" "b.jpg".
Definition image_c : Path := path_join "/data/processed" "c.jpg".
Definition image_d : Path := path_join "/data/processed" "d.jpg".

Definition three_images : list Path := [image_a; image_b; image_c].
Definition four_images : list Path := [image_a; image_b; image_c; image_d].

Definition milk : list (string * pyval) :=
  [("nom_produit", VStr " Lait entier "); ("volume", VStr "2 Litres");
   ("prix_fcfa", VStr "1 200,50 FCFA"); ("code_article", VNone)].

Definition water : list (string * pyval) :=
  [("nom_produit", VStr "Eau"); ("volume", VStr "500 millilitres")].

(** A decoder that reads every text as one product, and one that reads
    every text as two. *)
Definition one_product (_ : string) : json_reply :=
  JsonValue (VDict [("produits", VList [VDict milk])]).

Definition two_products (_ : string) : json_reply :=
  JsonValue (VDict [("produits", VList [VDict milk; VDict water])]).

(** A model that answers every batch that has an image, and a model that
    never answers. *)
Definition answering_model (_ : nat) (batch : list Path) : api_reply :=
  match batch with
  | [] => ApiRaise "no image"
  | _ => ApiText "```json {} ```"
  end.

Definition failing_model (_ : nat) (_ : list Path) : api_reply :=
  ApiRaise "503 Service Unavailable".

Definition sample_future (_ : nat) : string :=
  "<Future state=finished raised ServiceUnavailable>".

Definition sample_clock (_ : nat) : string := "2025-01-01 12:00:00".

(** A file system with one small file, and a codec that writes one byte
    per quality point. *)
Definition small_content : list Byte.byte := [Byte.xff; Byte.xd8; Byte.xff].

Definition sample_world : world :=
  {| fs := {[ "/data/input/a.jpg" := small_content ]}; log := [] |}.

Definition input_a : Path := path_join "/data/input" "a.jpg".
Definition input_missing : Path := path_join "/data/input" "missing.jpg".

Definition sample_prepare (_ : list Byte.byte) : option unit := Some tt.

Definition sample_encode (_ : unit) (quality : Z) : list Byte.byte :=
  replicate (Z.to_nat quality) Byte.x00.

Definition sample_format (_ : float) : string := "?".

(** The default limit, 1.8 MB, and limits of 30 and of 10 bytes. *)
Definition default_limit : float := 1.8%float.
Definition thirty_bytes : float := (30 / 1048576)%float.
Definition ten_bytes : float := (10 / 1048576)%float.

End Samples.

(** Further inputs: a directory of processed images in which two names are
    taken, and a codec check that accepts the files that start as a JPEG
    does. *)
Module MoreSamples.
Import Samples.

Definition crowded_world : world :=
  {| fs := {[ "/data/input/a.jpg" := small_content;
              "/data/processed/a.jpg" := [Byte.x01];
              "/data/processed/a_1.jpg" := [Byte.x02] ]};
     log := [] |}.

Definition sample_verify (content : list Byte.byte) : bool :=
  match content with
  | Byte.xff :: Byte.xd8 :: _ => true
  | _ => false
  end.

Definition fenced_response : string := "```json {} ```".

End MoreSamples.

(** * Properties *)

(** ** Facts on Python strings *)

Module PyStrFacts.
Import PyStr PyStrSpec.

(** A fact on one byte is checked on the 256 bytes. *)
Ltac by_ascii c :=
  destruct c as [[] [] [] [] [] [] [] []]; vm_compute; intros;
  first [reflexivity | discriminate].

Lemma isspace_lower_char c : isspace (lower_char c) = isspace c.
Proof. by_ascii c. Qed.

Lemma lower_char_idem c : lower_char (lower_char c) = lower_char c.
Proof. by_ascii c. Qed.

Lemma lower_idem s : lower (lower s) = lower s.
Proof. induction s as [|c r IH]; simpl; [done|]. by rewrite lower_char_idem, IH. Qed.

Lemma lstrip_idem s : lstrip (lstrip s) = lstrip s.
Proof.
  induction s as [|c r IH]; simpl; [done|].
  destruct (isspace c) eqn:Hc; [done|]. simpl. by rewrite Hc.
Qed.

Lemma rstrip_idem s : rstrip (rstrip s) = rstrip s.
Proof.
  induction s as [|c r IH]; simpl; [done|].
  destruct (rstrip r) as [|c' r'] eqn:Hr.
  - destruct (isspace c) eqn:Hc; simpl; [done|]. by rewrite Hc.
  - simpl in *. by rewrite IH.
Qed.

(** The two strippings commute. *)
Lemma lstrip_rstrip s : lstrip (rstrip s) = rstrip (lstrip s).
Proof.
  induction s as [|c r IH]; simpl; [done|].
  destruct (isspace c) eqn:Hc.
  - destruct (rstrip r) as [|c' r'] eqn:Hr; simpl.
    + by rewrite <- IH.
    + by rewrite Hc, <- IH.
  - simpl. destruct (rstrip r); simpl; by rewrite ?Hc.
Qed.

Lemma strip_idem s : strip (strip s) = strip s.
Proof.
  unfold strip. by rewrite lstrip_rstrip, lstrip_idem, rstrip_idem.
Qed.

Lemma lstrip_lower s : lstrip (lower s) = lower (lstrip s).
Proof.
  induction s as [|c r IH]; simpl; [done|].
  rewrite isspace_lower_char. by destruct (isspace c).
Qed.

Lemma rstrip_lower s : rstrip (lower s) = lower (rstrip s).
Proof.
  induction s as [|c r IH]; simpl; [done|].
  rewrite IH, isspace_lower_char.
  destruct (rstrip r); simpl; [by destruct (isspace c)|done].
Qed.

Lemma strip_lower s : strip (lower s) = lower (strip s).
Proof. unfold strip. by rewrite lstrip_lower, rstrip_lower. Qed.

(** *** Lengths *)

Lemma append_cons (c : ascii) (r t : string) :
  String c r +:+ t = String c (r +:+ t).
Proof. reflexivity. Qed.

Lemma append_nil (t : string) : "" +:+ t = t.
Proof. reflexivity. Qed.

Lemma length_append (s t : string) :
  String.length (s +:+ t) = String.length s + String.length t.
Proof. induction s as [|c r IH]; [done|]. rewrite append_cons. cbn. by rewrite IH. Qed.

Lemma length_lower s : String.length (lower s) = String.length s.
Proof. induction s as [|c r IH]; simpl; [done|]. by rewrite IH. Qed.

(** A stripping that removes nothing leaves the string, and one that
    removes something shortens it. *)
Lemma lstrip_cases s : lstrip s = s ∨ String.length (lstrip s) < String.length s.
Proof.
  induction s as [|c r IH]; simpl; [by left|].
  destruct (isspace c); [right|by left]. destruct IH as [->|?]; lia.
Qed.

Lemma rstrip_cases s : rstrip s = s ∨ String.length (rstrip s) < String.length s.
Proof.
  induction s as [|c r IH]; simpl; [by left|].
  destruct IH as [->|Hlt].
  - destruct r; [|by left]. destruct (isspace c); [right; simpl; lia|by left].
  - right. destruct (rstrip r); [destruct (isspace c)|]; simpl in *; lia.
Qed.

Lemma strip_cases s : strip s = s ∨ String.length (strip s) < String.length s.
Proof.
  unfold strip. destruct (lstrip_cases s) as [->|Hl]; [apply rstrip_cases|].
  right. destruct (rstrip_cases (lstrip s)) as [->|?]; lia.
Qed.

(** *** Strings without blanks and capitals *)

Section all_bytes.
Variable P : ascii → bool.

Lemma all_bytes_append s t :
  all_bytes P (s +:+ t) = all_bytes P s && all_bytes P t.
Proof.
  induction s as [|c r IH]; [done|].
  rewrite append_cons. cbn [all_bytes]. by rewrite IH, andb_assoc.
Qed.

Lemma strip_all_bytes s :
  (∀ c, P c = true → isspace c = false) → all_bytes P s = true → strip s = s.
Proof.
  intros HP Hs. unfold strip.
  assert (Hl : lstrip s = s).
  { destruct s as [|c r]; [done|]. cbn [all_bytes] in Hs.
    apply andb_true_iff in Hs as [Hc _]. cbn [lstrip]. by rewrite (HP c Hc). }
  rewrite Hl. clear Hl. induction s as [|c r IH]; [done|].
  cbn [all_bytes] in Hs. apply andb_true_iff in Hs as [Hc Hr].
  cbn [rstrip]. rewrite (IH Hr). destruct r; [|done]. by rewrite (HP c Hc).
Qed.

Lemma lower_all_bytes s :
  (∀ c, P c = true → isupper c = false) → all_bytes P s = true → lower s = s.
Proof.
  intros HP. induction s as [|c r IH]; [done|]. cbn [all_bytes lower].
  intros [Hc Hr]%andb_true_iff. rewrite (IH Hr). unfold lower_char.
  by rewrite (HP c Hc).
Qed.

End all_bytes.

(** *** Characters *)

Lemma chars_cons c r :
  chars (String c r)
  = match chars r with
    | ch :: rest =>
        if starts_cont ch then String c ch :: rest else String c "" :: ch :: rest
    | [] => [String c ""]
    end.
Proof. reflexivity. Qed.

(** The first character of a string starts at its first byte. *)
Lemma chars_head s :
  match chars s with
  | [] => s = ""
  | ch :: _ => starts_cont ch = starts_cont s
  end.
Proof.
  induction s as [|c r IH]; [done|]. cbn [chars].
  destruct (chars r) as [|ch rest]; [done|]. by destruct (starts_cont ch).
Qed.

(** A byte followed by continuation bytes, and then by a string that starts
    a character, is the first character of the whole. *)
Lemma chars_cons_cont t c rest :
  all_bytes is_cont t = true → starts_cont rest = false →
  chars (String c (t +:+ rest)) = String c t :: chars rest.
Proof.
  intros Ht Hrest. revert c. induction t as [|b t IH]; intros c.
  - rewrite append_nil, chars_cons. pose proof (chars_head rest) as Hh.
    destruct (chars rest) as [|ch l]; [done|]. by rewrite Hh, Hrest.
  - cbn [all_bytes] in Ht. apply andb_true_iff in Ht as [Hb Ht].
    rewrite append_cons, chars_cons, (IH Ht b). cbn [starts_cont].
    by rewrite Hb.
Qed.

Lemma starts_cont_join l :
  Forall (λ ch, proper ch = true) l → starts_cont (join l) = false.
Proof.
  intros [|[|c t] l' Hch _]; [done|done|].
  cbn [proper] in Hch. apply andb_true_iff in Hch as [Hc _].
  cbn [join foldr]. rewrite append_cons. cbn [starts_cont].
  by destruct (is_cont c).
Qed.

(** The characters of a string made of characters are these characters. *)
Lemma chars_join l : Forall (λ ch, proper ch = true) l → chars (join l) = l.
Proof.
  induction 1 as [|ch l Hch Hl IH]; [done|].
  destruct ch as [|c t]; [done|]. cbn [proper] in Hch.
  apply andb_true_iff in Hch as [_ Ht].
  cbn [join foldr]. fold (join l). rewrite append_cons.
  rewrite chars_cons_cont by (done || by apply starts_cont_join).
  by rewrite IH.
Qed.

Lemma all_bytes_join P l :
  Forall (λ ch, all_bytes P ch = true) l → all_bytes P (join l) = true.
Proof.
  induction 1 as [|ch l Hch Hl IH]; [done|].
  cbn [join foldr]. fold (join l). by rewrite all_bytes_append, Hch, IH.
Qed.

Section keep.
Variable class : string → bool.
Hypothesis class_proper : ∀ ch, class ch = true → proper ch = true.

Lemma keep_chars s :
  chars (keep class s) = filter (λ ch, class ch = true) (chars s).
Proof.
  unfold keep. apply chars_join. apply Forall_forall.
  intros ch [Hch _]%list_elem_of_filter. by apply class_proper.
Qed.

Lemma keep_idem s : keep class (keep class s) = keep class s.
Proof.
  unfold keep at 1. rewrite keep_chars.
  by rewrite list_filter_filter_r.
Qed.

Lemma keep_all_bytes P s :
  (∀ ch, class ch = true → all_bytes P ch = true) →
  all_bytes P (keep class s) = true.
Proof.
  intros HP. unfold keep. apply all_bytes_join, Forall_forall.
  intros ch [Hch _]%list_elem_of_filter. by apply HP.
Qed.

End keep.

(** *** Decimal digits *)

(** The tests of a conjunction on byte codes, as propositions. *)
Ltac codes :=
  repeat match goal with
         | H : _ && _ = true |- _ => apply andb_true_iff in H as [? ?]
         | H : (_ <=? _) = true |- _ => apply Nat.leb_le in H
         | H : (_ <? _) = true |- _ => apply Nat.ltb_lt in H
         end.

Lemma cont_high c : is_cont c = true → 128 ≤ code c.
Proof. unfold is_cont. intros H. codes. lia. Qed.

Lemma high_price_byte c : 128 ≤ code c → price_byte c = true.
Proof.
  intros H. unfold price_byte. apply orb_true_iff. right. by apply Nat.leb_le.
Qed.

Lemma high_not_cont c : 192 ≤ code c → is_cont c = false.
Proof.
  intros H. unfold is_cont. apply andb_false_iff. right. apply Nat.ltb_ge. lia.
Qed.

Lemma low_not_cont c : code c < 128 → is_cont c = false.
Proof.
  intros H. unfold is_cont. apply andb_false_iff. left. apply Nat.leb_gt. lia.
Qed.

(** A sequence that encodes a number is well formed. *)
Lemma decode_proper ch n : decode ch = Some n → proper ch = true.
Proof.
  destruct ch as [|a [|b [|c [|d [|e r]]]]]; cbn [decode]; [done| | | | |done].
  - destruct (code a <? 128) eqn:H; [|done]. intros _.
    apply Nat.ltb_lt in H. cbn [proper all_bytes]. by rewrite low_not_cont.
  - destruct (_ && _) eqn:H; [|done]. intros _. codes.
    cbn [proper all_bytes]. rewrite high_not_cont by lia.
    repeat match goal with H : is_cont _ = true |- _ => rewrite H; clear H end.
    done.
  - destruct (_ && _) eqn:H; [|done]. intros _. codes.
    cbn [proper all_bytes]. rewrite high_not_cont by lia.
    repeat match goal with H : is_cont _ = true |- _ => rewrite H; clear H end.
    done.
  - destruct (_ && _) eqn:H; [|done]. intros _. codes.
    cbn [proper all_bytes]. rewrite high_not_cont by lia.
    repeat match goal with H : is_cont _ = true |- _ => rewrite H; clear H end.
    done.
Qed.

(** A character of two bytes or more has no byte of ASCII. *)
Lemma decode_high ch n :
  decode ch = Some n → 1 < String.length ch →
  all_bytes (λ c, 128 <=? code c) ch = true.
Proof.
  destruct ch as [|a [|b [|c [|d [|e r]]]]]; cbn [decode String.length];
    [done|lia| | | |done];
    (destruct (_ && _) eqn:H; [|done]); intros _ _; codes;
    repeat match goal with H : is_cont _ = true |- _ => apply cont_high in H end;
    cbn [all_bytes];
    repeat (apply andb_true_iff; split); try done; apply Nat.leb_le; lia.
Qed.

Lemma ord_decode ch n : ord ch = Some n → decode ch = Some n.
Proof.
  unfold ord. destruct (decode ch) as [m|]; [|done].
  by destruct (_ && _); intros [= ->].
Qed.

Lemma isdecimal_proper ch : isdecimal ch = true → proper ch = true.
Proof.
  unfold isdecimal. destruct (ord ch) as [n|] eqn:Hn; [|done].
  intros _. by apply (decode_proper ch n), ord_decode.
Qed.

(** The only decimal digits of ASCII are the ten from 0 to 9. *)
Lemma isdecimal_ascii a : isdecimal (String a "") = true → price_byte a = true.
Proof. by_ascii a. Qed.

Lemma isdecimal_bytes ch : isdecimal ch = true → all_bytes price_byte ch = true.
Proof.
  intros Hd. destruct ch as [|a [|b r]]; [done|..].
  - cbn [all_bytes]. by rewrite (isdecimal_ascii a Hd).
  - unfold isdecimal in Hd. destruct (ord _) as [n|] eqn:Hn; [|done].
    apply ord_decode, decode_high in Hn; [|cbn; lia]. clear Hd. revert Hn.
    generalize (String a (String b r)). intros s.
    induction s as [|c s IH]; [done|]. cbn [all_bytes].
    intros [Hc Hs]%andb_true_iff. rewrite (IH Hs), andb_true_r.
    apply high_price_byte. by apply Nat.leb_le.
Qed.

Lemma price_byte_not_space c : price_byte c = true → isspace c = false.
Proof. by_ascii c. Qed.

Lemma price_byte_not_upper c : price_byte c = true → isupper c = false.
Proof. by_ascii c. Qed.

(** A string in which [old] does not occur is left as it is. *)
Lemma replace_absent old new s : contains old s = false → replace old new s = s.
Proof.
  unfold replace. induction s as [|c r IH]; [done|].
  cbn [contains replace_from]. intros [Hp Hr]%orb_false_iff.
  rewrite Hp. by rewrite IH.
Qed.

Lemma prefix_length p s : String.prefix p s = true → String.length p ≤ String.length s.
Proof.
  revert s. induction p as [|a p IH]; intros [|b s]; cbn; try done; try lia.
  destruct (Ascii.ascii_dec a b); [|done]. intros H%IH. lia.
Qed.

(** A replacement by a shorter word never lengthens the string. *)
Lemma replace_from_length old new skip s :
  0 < String.length old → String.length new ≤ String.length old →
  String.length (replace_from old new skip s) + Nat.min skip (String.length s)
  ≤ String.length s.
Proof.
  intros Hold Hnew. revert skip.
  induction s as [|c r IH]; intros skip; [cbn; lia|].
  cbn [replace_from]. destruct skip as [|k].
  - destruct (String.prefix old (String c r)) eqn:Hp.
    + apply prefix_length in Hp. rewrite length_append.
      specialize (IH (String.length old - 1)). cbn [String.length] in *. lia.
    + specialize (IH 0). cbn [String.length]. lia.
  - specialize (IH k). cbn [String.length]. lia.
Qed.

(** A replacement by a shorter word leaves the string as it is, when the
    word does not occur, or shortens it. *)
Lemma replace_cases old new s :
  String.length new < String.length old →
  (replace old new s = s ∧ contains old s = false)
  ∨ String.length (replace old new s) < String.length s.
Proof.
  intros Hnew. unfold replace. induction s as [|c r IH].
  - left. split; [done|]. cbn. destruct old; [cbn in Hnew; lia|done].
  - cbn [replace_from contains].
    destruct (String.prefix old (String c r)) eqn:Hp.
    + right. apply prefix_length in Hp. rewrite length_append.
      pose proof (replace_from_length old new (String.length old - 1) r
                    ltac:(lia) ltac:(lia)).
      cbn [String.length] in *. lia.
    + destruct IH as [[-> ->]|Hlt]; [by left|right; cbn [String.length]; lia].
Qed.

End PyStrFacts.

(** ** The normalizer *)

Module DataProcessorFacts.
Import PyStr PyStrSpec PyStrFacts Settings DataProcessor DataProcessorSpec.

Lemma lookup_foldl_insert (g : string → pyval) (L : list string) (m : record) k :
  foldl (λ acc f, <[f := g f]> acc) m L !! k
  = if decide (k ∈ L) then Some (g k) else m !! k.
Proof.
  revert m. induction L as [|a L IH]; intros m; cbn [foldl].
  - by rewrite decide_False by apply not_elem_of_nil.
  - rewrite IH. destruct (decide (k ∈ L)) as [HL|HL].
    + rewrite decide_True; [done|by right].
    + destruct (decide (k = a)) as [->|Hne].
      * rewrite lookup_insert_eq. rewrite decide_True; [done|by left].
      * rewrite lookup_insert_ne by done. rewrite decide_False; [done|].
        by intros [?|?]%elem_of_cons.
Qed.

Lemma lookup_foldl_copy (r : record) (L : list string) (m : record) k :
  foldl (λ acc f, match r !! f with Some v => <[f := v]> acc | None => acc end) m L !! k
  = if decide (k ∈ L) then (match r !! k with Some v => Some v | None => m !! k end)
    else m !! k.
Proof.
  revert m. induction L as [|a L IH]; intros m; cbn [foldl].
  - by rewrite decide_False by apply not_elem_of_nil.
  - rewrite IH. destruct (decide (k = a)) as [->|Hne].
    + rewrite (decide_True (P := a ∈ a :: L)) by by left.
      destruct (r !! a) eqn:Ha; case_decide; by rewrite ?lookup_insert_eq.
    + assert (Hm : (match r !! a with Some v => <[a:=v]> m | None => m end) !! k = m !! k).
      { destruct (r !! a); [by rewrite lookup_insert_ne|done]. }
      rewrite Hm. destruct (decide (k ∈ L)) as [HL|HL].
      * rewrite decide_True; [done|by right].
      * rewrite decide_False; [done|]. by intros [?|?]%elem_of_cons.
Qed.

Lemma meta_not_schema k : k ∈ META_FIELDS → k ∉ PRODUCT_SCHEMA.
Proof.
  intros H. unfold META_FIELDS in H.
  repeat (apply elem_of_cons in H as [->|H]); try (by apply elem_of_nil in H);
    apply (bool_decide_unpack _); vm_compute; exact I.
Qed.


Lemma clean_result_lookup (result : record) k :
  _clean_result result !! k = cleaned_value result k.
Proof.
  unfold _clean_result, cleaned_value.
  rewrite lookup_foldl_copy.
  rewrite (lookup_foldl_insert (λ f, clean_field f (default (VStr NON_DETECTE) (result !! f)))).
  rewrite lookup_empty.
  destruct (decide (k ∈ META_FIELDS)) as [Hm|Hm]; [|done].
  rewrite (decide_False (P := k ∈ PRODUCT_SCHEMA)) by by apply meta_not_schema.
  by destruct (result !! k).
Qed.

Lemma price_char_cases ch :
  price_char ch = true → isdecimal ch = true ∨ ch = "." ∨ ch = ",".
Proof.
  unfold price_char.
  intros [[H|H%String.eqb_eq]%orb_true_iff|H%String.eqb_eq]%orb_true_iff; auto.
Qed.

Lemma isdecimal_price_char ch : isdecimal ch = true → price_char ch = true.
Proof. unfold price_char. by intros ->. Qed.

Lemma price_char_proper ch : price_char ch = true → proper ch = true.
Proof.
  intros [H|[->| ->]]%price_char_cases; [by apply isdecimal_proper|done..].
Qed.

Lemma price_char_bytes ch : price_char ch = true → all_bytes price_byte ch = true.
Proof.
  intros [H|[->| ->]]%price_char_cases; [by apply isdecimal_bytes|done..].
Qed.


Lemma clean_field_str field s :
  clean_field field (VStr s)
  = if decide (lower (strip s) ∈ NULL_WORDS) then VStr NON_DETECTE
    else VStr (field_rule field (strip s)).
Proof. unfold clean_field, field_rule. by repeat case_decide. Qed.


Lemma settled_fixed field c : settled field c → clean_field field (VStr c) = VStr c.
Proof.
  intros (Hs & Hn & Hr). rewrite clean_field_str, Hs.
  by rewrite decide_False, Hr.
Qed.

Lemma sentinel_not_null : lower NON_DETECTE ∉ NULL_WORDS.
Proof. apply (bool_decide_unpack _). vm_compute. exact I. Qed.

Lemma sentinel_settled field : settled field NON_DETECTE.
Proof.
  split; [by vm_compute|]. split; [apply sentinel_not_null|].
  unfold field_rule, _clean_price, _clean_volume, _clean_barcode.
  rewrite !(decide_True (P := NON_DETECTE = NON_DETECTE)) by done.
  by repeat case_decide.
Qed.

(** A non-empty string of digits, dots and commas is stripped, is none of
    the null words, is not the sentinel, and keeps all its characters. *)
Lemma kept_settled class s :
  (∀ ch, class ch = true → price_char ch = true) →
  keep class s ≠ "" →
  strip (keep class s) = keep class s
  ∧ (lower (keep class s) ∉ NULL_WORDS)
  ∧ keep class s ≠ NON_DETECTE
  ∧ keep class (keep class s) = keep class s.
Proof.
  intros Hclass Hne.
  assert (Hb : all_bytes price_byte (keep class s) = true).
  { apply keep_all_bytes. intros ch Hch. by apply price_char_bytes, Hclass. }
  assert (Hl : lower (keep class s) = keep class s)
    by apply (lower_all_bytes _ _ price_byte_not_upper Hb).
  split; [apply (strip_all_bytes _ _ price_byte_not_space Hb)|].
  split; [|split].
  - rewrite Hl. destruct (keep class s) as [|a r]; [done|].
    cbn [all_bytes] in Hb. apply andb_true_iff in Hb as [Ha _].
    intros Hin. unfold NULL_WORDS in Hin.
    repeat (apply elem_of_cons in Hin as [Hin|Hin]); try discriminate;
      try (by apply elem_of_nil in Hin);
      injection Hin as -> _; vm_compute in Ha; discriminate.
  - destruct (keep class s) as [|a r]; [done|].
    cbn [all_bytes] in Hb. apply andb_true_iff in Hb as [Ha _].
    intros Heq. injection Heq as -> _. vm_compute in Ha. discriminate.
  - apply keep_idem. intros ch Hch. by apply price_char_proper, Hclass.
Qed.

Lemma price_settled v : settled "prix_fcfa" (_clean_price v).
Proof.
  unfold _clean_price. case_decide as H1; [rewrite H1; apply sentinel_settled|].
  case_decide as H2; [apply sentinel_settled|].
  destruct (kept_settled price_char v) as (Hs & Hn & Hd & Hk); [done..|].
  split; [done|]. split; [done|].
  unfold field_rule. rewrite decide_True by done. unfold _clean_price.
  rewrite decide_False by done. rewrite Hk. by rewrite decide_False.
Qed.

Lemma barcode_settled v : settled "code_barres_ean" (_clean_barcode v).
Proof.
  unfold _clean_barcode. case_decide as H1; [rewrite H1; apply sentinel_settled|].
  case_decide as H2; [apply sentinel_settled|].
  destruct (kept_settled isdecimal v) as (Hs & Hn & Hd & Hk);
    [apply isdecimal_price_char|done|].
  split; [done|]. split; [done|].
  unfold field_rule. rewrite decide_False by done. rewrite decide_False by done.
  rewrite decide_True by done. unfold _clean_barcode.
  rewrite decide_False by done. rewrite Hk. by rewrite decide_False.
Qed.

Lemma clean_field_settled field s :
  field ≠ "volume" → ∃ c, clean_field field (VStr s) = VStr c ∧ settled field c.
Proof.
  intros Hv. rewrite clean_field_str.
  case_decide as Hn; [eexists; split; [done|apply sentinel_settled]|].
  eexists; split; [done|]. unfold field_rule.
  case_decide as H1; [subst; apply price_settled|].
  rewrite decide_False by done.
  case_decide as H3; [subst; apply barcode_settled|].
  split; [apply strip_idem|]. split; [done|].
  unfold field_rule. by rewrite !decide_False.
Qed.

Lemma clean_field_idem field v :
  field ≠ "volume" → clean_field field (clean_field field v) = clean_field field v.
Proof.
  intros Hv. destruct v as [| | | |s| |]; try done.
  destruct (clean_field_settled field s Hv) as (c & -> & Hc).
  by apply settled_fixed.
Qed.



Lemma apply_replacements_absent v :
  Forall (λ item, contains item.1 v = false) replacements →
  apply_replacements v = v.
Proof.
  unfold apply_replacements, replacements. intros H.
  repeat (apply Forall_cons in H as [? H]). cbn [fst snd] in *.
  cbn [foldl fst snd].
  repeat match goal with
         | Ho : contains ?old v = false |- _ =>
             rewrite (replace_absent old _ v Ho); clear Ho
         end.
  done.
Qed.

(** The table shortens the string, or finds none of its words in it and
    leaves it as it is. *)
Lemma replacements_cases (table : list (string * string)) (v : string) :
  Forall (λ item, String.length item.2 < String.length item.1) table →
  (foldl (λ acc item, replace item.1 item.2 acc) v table = v
   ∧ Forall (λ item, contains item.1 v = false) table)
  ∨ String.length (foldl (λ acc item, replace item.1 item.2 acc) v table)
    < String.length v.
Proof.
  intros Htable. revert v.
  induction Htable as [|item table Hitem _ IH]; intros v; [by left|].
  cbn [foldl].
  destruct (replace_cases item.1 item.2 v Hitem) as [[Hr Ha]|Hlt].
  - rewrite Hr. destruct (IH v) as [[Hf Hall]|?]; [left|by right].
    split; [done|by constructor].
  - right. destruct (IH (replace item.1 item.2 v)) as [[-> _]|?]; lia.
Qed.

Lemma apply_replacements_cases v :
  (apply_replacements v = v
   ∧ Forall (λ item, contains item.1 v = false) replacements)
  ∨ String.length (apply_replacements v) < String.length v.
Proof.
  apply replacements_cases. unfold replacements.
  repeat constructor; cbn; lia.
Qed.

Lemma clean_field_sentinel field :
  clean_field field (VStr NON_DETECTE) = VStr NON_DETECTE.
Proof. apply settled_fixed, sentinel_settled. Qed.

(** A volume is cleaned to a stripped string. *)
Lemma cleaned_volume_stripped s :
  ∃ c, clean_field "volume" (VStr s) = VStr c ∧ strip c = c.
Proof.
  rewrite clean_field_str.
  case_decide as Hn; [exists NON_DETECTE; split; [done|by vm_compute]|].
  eexists; split; [done|].
  unfold field_rule. rewrite decide_False by done. rewrite decide_True by done.
  unfold _clean_volume. case_decide; apply strip_idem.
Qed.

(** The stripped strings that the cleaning of a volume leaves as they are. *)
Lemma volume_fixed_iff c :
  strip c = c →
  clean_field "volume" (VStr c) = VStr c ↔ volume_fixed_point c.
Proof.
  intros Hs. rewrite clean_field_str, Hs. unfold field_rule.
  rewrite (decide_False (P := "volume" = "prix_fcfa")) by done.
  rewrite (decide_True (P := "volume" = "volume")) by done.
  unfold _clean_volume, volume_fixed_point. split.
  - case_decide as Hn; [intros [= <-]; by left|].
    case_decide as Hd; [by left|]. intros [= Hc]. right.
    pose proof (length_lower c) as Hlen.
    destruct (apply_replacements_cases (lower c)) as [[Hr Ha]|Hlt].
    + rewrite Hr in Hc.
      destruct (strip_cases (lower c)) as [Hst|Hlt];
        [|rewrite Hc in Hlt; lia].
      rewrite Hst in Hc. split; [done|]. split; [done|]. by rewrite Hc in Ha.
    + destruct (strip_cases (apply_replacements (lower c))) as [Hst|Hlt'].
      * rewrite Hst in Hc. rewrite Hc in Hlt. lia.
      * rewrite Hc in Hlt'. lia.
  - intros [->|(Hn & Hl & Ha)].
    + by rewrite decide_False, decide_True by (done || apply sentinel_not_null).
    + rewrite decide_False by done. case_decide; [done|].
      by rewrite Hl, apply_replacements_absent, Hs.
Qed.

(** The volume of a cleaned record, and that of the record cleaned again. *)
Lemma clean_volume_lookup (result : record) :
  ∃ cv, _clean_result result !! "volume" = Some cv
    ∧ _clean_result (_clean_result result) !! "volume"
      = Some (clean_field "volume" cv)
    ∧ cv = clean_field "volume" (default (VStr NON_DETECTE) (result !! "volume")).
Proof.
  eexists. rewrite (clean_result_lookup (_clean_result result)).
  unfold cleaned_value at 1. rewrite !clean_result_lookup.
  unfold cleaned_value.
  rewrite (decide_False (P := "volume" ∈ META_FIELDS))
    by (apply (bool_decide_unpack (_ ∉ _)); by vm_compute).
  rewrite (decide_True (P := "volume" ∈ PRODUCT_SCHEMA))
    by (apply (bool_decide_unpack _); by vm_compute).
  done.
Qed.

Lemma volume_settled_iff (result : record) :
  volume_settled result
  ↔ _clean_result (_clean_result result) !! "volume"
    = _clean_result result !! "volume".
Proof.
  destruct (clean_volume_lookup result) as (cv & H1 & H2 & Hcv).
  unfold volume_settled. rewrite H1, H2.
  destruct (default (VStr NON_DETECTE) (result !! "volume"))
    as [| | | |s| |] eqn:Hv; subst cv; try (by split).
  destruct (cleaned_volume_stripped s) as (c & -> & Hs).
  split.
  - intros H. by rewrite (proj2 (volume_fixed_iff c Hs) H).
  - intros [= H]. by apply (volume_fixed_iff c Hs).
Qed.

(** A volume in which no word of the table occurs is cleaned to a string
    that cleaning leaves as it is. *)
Lemma volume_without_unit_settled (result : record) :
  volume_without_unit result → volume_settled result.
Proof.
  destruct (clean_volume_lookup result) as (cv & H1 & _ & Hcv).
  unfold volume_without_unit, volume_settled. rewrite H1.
  destruct (result !! "volume") as [[| | | |s| |]|];
    cbn [default from_option id] in Hcv; try (by subst cv).
  - intros Hst. rewrite clean_field_str in Hcv.
    case_decide as Hn; subst cv; [by left|].
    unfold field_rule. rewrite decide_False by done. rewrite decide_True by done.
    unfold _clean_volume. case_decide as Hd; [by left|].
    destruct Hst as [?|[?|Ha]]; [done..|].
    rewrite apply_replacements_absent, strip_lower, strip_idem by done.
    right. by rewrite lower_idem.
  - intros _. rewrite clean_field_sentinel in Hcv. subst cv. by left.
Qed.

(** C4 (amended): cleaning a cleaned record again changes no key other
    than [volume]: the price, the barcode and the four plain fields are
    fixed points of their rules, and the metadata are copied.  It changes
    the volume, and so the record, exactly when the cleaned volume is a
    string other than the sentinel that is a null word, has a capital or
    holds a word of the unit table.  It changes nothing when the volume of
    the record is absent, not a string, the sentinel, a null word or a
    string in which, once in lower case, no word of the table occurs. *)
Theorem clean_result_idempotent_except_volume (result : record) :
  (∀ k, k ≠ "volume" →
        _clean_result (_clean_result result) !! k = _clean_result result !! k)
  ∧ (_clean_result (_clean_result result) = _clean_result result
     ↔ volume_settled result)
  ∧ (volume_without_unit result →
     _clean_result (_clean_result result) = _clean_result result).
Proof.
  assert (Hk : ∀ k, k ≠ "volume" →
    _clean_result (_clean_result result) !! k = _clean_result result !! k).
  { intros k Hne. rewrite (clean_result_lookup (_clean_result result)).
    unfold cleaned_value at 1. rewrite !clean_result_lookup.
    unfold cleaned_value.
    destruct (decide (k ∈ META_FIELDS)); [done|].
    destruct (decide (k ∈ PRODUCT_SCHEMA)); [|done].
    cbn [default]. f_equal. by apply clean_field_idem. }
  assert (Hiff : _clean_result (_clean_result result) = _clean_result result
                 ↔ volume_settled result).
  { rewrite volume_settled_iff. split; [by intros ->|].
    intros Hv. apply map_eq. intros k.
    destruct (decide (k = "volume")) as [->|Hne]; [done|by apply Hk]. }
  split; [done|]. split; [done|].
  intros Hu. by apply Hiff, volume_without_unit_settled.
Qed.


(** The volume "2 Litres" is cleaned to "2 L", and "2 L" to "2 l": cleaning
    is not idempotent. *)
Lemma clean_result_not_idempotent :
  _clean_result (_clean_result r_litres) ≠ _clean_result r_litres.
Proof.
  intros H. apply (f_equal (λ m : record, m !! "volume")) in H.
  vm_compute in H. discriminate.
Qed.


Lemma clean_result_idempotent_witness :
  volume_without_unit r_plain
  ∧ _clean_result (_clean_result r_plain) = _clean_result r_plain.
Proof.
  assert (H : volume_without_unit r_plain).
  { unfold volume_without_unit.
    replace (r_plain !! "volume") with (Some (VStr " 33 cl ")) by (by vm_compute).
    right. right. unfold replacements. repeat constructor. }
  split; [exact H|].
  exact (proj2 (proj2 (clean_result_idempotent_except_volume r_plain)) H).
Defined.

Lemma count_from_le {A} (P : A → bool) (l : list A) (n : nat) :
  foldl (λ k x, if P x then S k else k) n l ≤ n + length l.
Proof.
  revert n. induction l as [|x l IH]; intros n; cbn [foldl length]; [lia|].
  destruct (P x); etrans; [apply IH|lia|apply IH|lia].
Qed.

Lemma count_complete_le (result : record) :
  count_complete result ≤ length PRODUCT_SCHEMA.
Proof.
  unfold count_complete.
  apply (count_from_le (λ field, is_complete (default (VStr "") (result !! field)))).
Qed.

(** The score of [k] complete fields out of the seven of the schema. *)
Lemma score_range (k : nat) :
  k ≤ 7 →
  let score := (float_of_nat k / float_of_nat 7 * 100)%float in
  (0 <=? score)%float = true ∧ (score <=? 100)%float = true.
Proof.
  intros Hk. do 8 (destruct k as [|k]; [by vm_compute|]). lia.
Qed.

Lemma calculate_completeness_range (result : record) :
  (0 <=? _calculate_completeness result)%float = true
  ∧ (_calculate_completeness result <=? 100)%float = true.
Proof. apply score_range, count_complete_le. Qed.

Section process_results_facts.
Variable now : nat → string.

Lemma process_results_from (l : list record) (a : nat) (acc : list record * stats) :
  (foldl (λ acc item,
            let processed := process_one now item.1 item.2 in
            (acc.1 ++ [processed], count_one acc.2 processed))
         acc (zip (seq a (length l)) l)).1
  = acc.1 ++ imap (λ i result, process_one now (a + i) result) l.
Proof.
  revert a acc. induction l as [|r l IH]; intros a acc.
  - by rewrite app_nil_r.
  - cbn [length seq zip zip_with foldl imap]. rewrite IH. cbn [fst snd].
    rewrite <- app_assoc. cbn [app]. rewrite Nat.add_0_r.
    do 2 f_equal. apply imap_ext. intros i x _. cbn. f_equal. lia.
Qed.

Lemma process_results_records (raw_results : list record) :
  (process_results now raw_results).1
  = imap (λ i result, process_one now (S i) result) raw_results.
Proof. unfold process_results. by rewrite process_results_from. Qed.

(** The normalizer keeps the three metadata of a result. *)
Lemma process_one_meta i (result : record) (k : string) :
  k ∈ META_FIELDS → process_one now i result !! k = result !! k.
Proof.
  intros Hk.
  assert (Hne : k ≠ "statut" ∧ k ≠ "score_completude" ∧ k ≠ "date_traitement"
                ∧ k ≠ "numero_sequence").
  { unfold META_FIELDS in Hk.
    repeat (apply elem_of_cons in Hk as [->|Hk]); try (by apply elem_of_nil in Hk);
      repeat split; discriminate. }
  destruct Hne as (H1 & H2 & H3 & H4).
  unfold process_one.
  repeat case_match; rewrite !lookup_insert_ne by done;
    rewrite clean_result_lookup; unfold cleaned_value; by rewrite decide_True.
Qed.

Lemma process_one_erreur i (result : record) :
  process_one now i result !! "erreur" = result !! "erreur".
Proof. apply process_one_meta. apply (bool_decide_unpack _). by vm_compute. Qed.

Lemma process_one_numero i (result : record) :
  process_one now i result !! "numero_sequence" = Some (VInt (Z.of_nat i)).
Proof.
  unfold process_one.
  repeat case_match; rewrite !lookup_insert_ne by discriminate;
    by rewrite lookup_insert_eq.
Qed.

Lemma process_one_score i (result : record) :
  ∃ score, process_one now i result !! "score_completude" = Some (VFloat score)
    ∧ (0 <=? score)%float = true ∧ (score <=? 100)%float = true
    ∧ process_one now i result !! "statut"
      = Some (VStr (if decide (is_Some (result !! "erreur")) then "Erreur"
                    else if (80 <=? score)%float then "Complet" else "Partiel")).
Proof.
  pose proof (process_one_erreur i result) as He. revert He.
  unfold process_one.
  set (c1 := <["date_traitement" := _]> _).
  set (score := _calculate_completeness c1).
  set (c2 := <["score_completude" := VFloat score]> c1).
  intros He. exists score.
  destruct (calculate_completeness_range c1) as [H0 H100].
  assert (Hc2 : c2 !! "erreur" = result !! "erreur").
  { revert He. repeat case_match; by rewrite lookup_insert_ne. }
  assert (Hsc : c2 !! "score_completude" = Some (VFloat score))
    by (unfold c2; by rewrite lookup_insert_eq).
  rewrite <- Hc2.
  repeat case_match;
    (split; [by rewrite lookup_insert_ne|]);
    (split; [done|]); (split; [done|]); by rewrite lookup_insert_eq.
Qed.

(** C3: every record returned by [process_results] has a score between 0
    and 100 and one of the three statuses, and its status is "Complet"
    exactly when it has no key [erreur] and its score is at least 80. *)
Theorem process_results_score_and_status (raw_results : list record) (out : record) :
  out ∈ (process_results now raw_results).1 →
  ∃ score statut,
    out !! "score_completude" = Some (VFloat score)
    ∧ (0 <=? score)%float = true ∧ (score <=? 100)%float = true
    ∧ out !! "statut" = Some (VStr statut)
    ∧ statut ∈ ["Complet"; "Partiel"; "Erreur"]
    ∧ (statut = "Complet" ↔ out !! "erreur" = None ∧ (80 <=? score)%float = true).
Proof.
  rewrite process_results_records. intros Hin.
  apply elem_of_lookup_imap in Hin as (i & result & -> & _).
  destruct (process_one_score (S i) result) as (score & Hs & H0 & H100 & Hst).
  exists score. eexists. split; [done|]. split; [done|]. split; [done|].
  split; [exact Hst|]. rewrite process_one_erreur.
  destruct (decide (is_Some (result !! "erreur"))) as [He|He].
  - split; [set_solver|]. split; [done|]. intros [Hn _].
    rewrite Hn in He. by destruct He.
  - apply eq_None_not_Some in He.
    destruct (80 <=? score)%float eqn:H80; (split; [set_solver|]); [done|].
    split; [done|]. by intros [_ ?].
Qed.

End process_results_facts.

End DataProcessorFacts.

(** ** The gatekeeper *)

Module FileManagerFacts.
Import Settings FileManager FileManagerSpec.

#[global] Instance path_le_total : Total path_le.
Proof.
  intros p q. unfold path_le.
  destruct (decide (parent p = parent q)) as [He|Hne].
  - rewrite (decide_True (P := parent q = parent p)) by done.
    apply (total String.le).
  - rewrite (decide_False (P := parent q = parent p)) by done.
    apply (total String.le).
Qed.

#[global] Instance path_le_trans : Transitive path_le.
Proof.
  intros p q r. unfold path_le.
  destruct (decide (parent p = parent q)) as [Hpq|Hpq],
           (decide (parent q = parent r)) as [Hqr|Hqr].
  - rewrite decide_True by congruence. apply transitivity.
  - rewrite decide_False by congruence. intros _. by rewrite Hpq.
  - rewrite decide_False by congruence. intros H _. by rewrite <- Hqr.
  - intros H1 H2. destruct (decide (parent p = parent r)) as [Hpr|Hpr].
    + rewrite <- Hpr in H2. destruct Hpq. by apply (anti_symm String.le).
    + by etrans.
Qed.

(** The extension of [stem.ext]: the last dot and what follows it. *)
Lemma from_last_dot_no_dot s :
  PyStr.contains "." s = false → from_last_dot s = None.
Proof.
  induction s as [|c r IH]; [done|].
  cbn [PyStr.contains from_last_dot]. intros [Hp Hr]%orb_false_iff.
  rewrite (IH Hr). destruct (Ascii.eqb_spec c ".") as [->|Hc]; [|done].
  exfalso. cbn in Hp. by destruct r.
Qed.

Lemma from_last_dot_ext stem ext :
  PyStr.contains "." ext = false →
  from_last_dot (stem +:+ "." +:+ ext) = Some ("." +:+ ext).
Proof.
  intros Hext. change ("." +:+ ext) with (String "." ext).
  induction stem as [|c r IH].
  - change ("" +:+ String "." ext) with (String "." ext).
    cbn [from_last_dot]. by rewrite (from_last_dot_no_dot ext Hext).
  - change (String c r +:+ String "." ext) with (String c (r +:+ String "." ext)).
    cbn [from_last_dot]. by rewrite IH.
Qed.

Lemma suffix_ext dir c stem ext :
  ext ≠ "" → PyStr.contains "." ext = false →
  suffix (path_join dir (String c stem +:+ "." +:+ ext)) = "." +:+ ext.
Proof.
  intros Hne Hext.
  change (String c stem +:+ "." +:+ ext) with (String c (stem +:+ "." +:+ ext)).
  unfold suffix. cbn [name path_join].
  rewrite from_last_dot_ext by done.
  change ("." +:+ ext) with (String "." ext). by destruct ext.
Qed.

Lemma scan_from (input_dir : string) (entries : list dir_entry)
    (acc : list Path * list event) :
  foldl (scan_entry input_dir) acc entries
  = (acc.1 ++ ((λ e, path_join input_dir (entry_name e))
               <$> filter (is_image_file input_dir) entries),
     acc.2 ++ (entries ≫= scan_log input_dir)).
Proof.
  revert acc. induction entries as [|e entries IH]; intros [paths evs].
  - cbn. by rewrite !app_nil_r.
  - cbn [foldl]. rewrite IH. rewrite filter_cons. cbn [mbind list_bind].
    unfold scan_entry, scan_log, _is_valid_image. cbn [fst snd name path_join].
    fold (path_join input_dir (entry_name e)).
    destruct (decide (is_image_file input_dir e)) as [[Hf Hv]|Hn].
    + rewrite Hf, bool_decide_eq_true_2 by done. cbn [andb fst snd fmap list_fmap].
      by rewrite <- !app_assoc.
    + destruct (entry_is_file e) eqn:Hf; cbn [andb].
      * assert (Hs : PyStr.lower (suffix (path_join input_dir (entry_name e)))
                       ∉ SUPPORTED_IMAGE_FORMATS).
        { intros Hs. apply Hn. split; [done|]. exact Hs. }
        rewrite bool_decide_eq_false_2 by done.
        rewrite decide_True by (split; [done|exact Hs]).
        cbn [fst snd]. rewrite <- !app_assoc. reflexivity.
      * rewrite decide_False by (intros [? _]; congruence). done.
Qed.

Lemma names_sorted (input_dir : string) (l : list Path) :
  Forall (λ p, parent p = input_dir) l →
  StronglySorted path_le l → StronglySorted String.le (name <$> l).
Proof.
  intros Hp Hs. induction Hs as [|p l Hs IH Hall]; [constructor|].
  apply Forall_cons in Hp as [Hpp Hpl]. cbn. constructor; [by apply IH|].
  apply Forall_fmap. apply Forall_forall. intros q Hq. cbn.
  rewrite Forall_forall in Hall, Hpl. specialize (Hall q Hq).
  unfold path_le in Hall. rewrite decide_True in Hall; [done|].
  by rewrite Hpp, (Hpl q Hq).
Qed.

Lemma warnings_scan (input_dir : string) (entries : list dir_entry) :
  warnings (entries ≫= scan_log input_dir)
  = (λ e, "Fichier ignoré (format non supporté) : " +:+ entry_name e)
    <$> filter (is_other_file input_dir) entries.
Proof.
  induction entries as [|e entries IH]; [done|].
  cbn [mbind list_bind]. unfold warnings in *. rewrite omap_app, IH.
  rewrite filter_cons. unfold scan_log.
  destruct (decide (is_image_file input_dir e)) as [[Hf Hv]|Hn].
  - rewrite decide_False; [done|]. by intros [_ ?].
  - by destruct (decide (is_other_file input_dir e)).
Qed.

Lemma errors_scan (input_dir : string) (entries : list dir_entry) :
  errors (entries ≫= scan_log input_dir) = [].
Proof.
  induction entries as [|e entries IH]; [done|].
  cbn [mbind list_bind]. unfold errors in *. rewrite omap_app, IH.
  unfold scan_log. by repeat case_decide.
Qed.

(** C9: for a missing directory the result is the empty list, and the only
    effect is an error in the log; for a directory that exists the result
    holds exactly the regular files with a supported extension, whatever its
    case, in the lexicographic order of their names, every other regular
    file is reported by one warning, and no error is logged. *)
Theorem get_input_images_sorted_supported (input_dir : string) :
  (get_input_images input_dir None).1 = []
  ∧ length (errors (get_input_images input_dir None).2) = 1
  ∧ ∀ entries : list dir_entry,
      let r := get_input_images input_dir (Some entries) in
      r.1 ≡ₚ (λ e, path_join input_dir (entry_name e))
             <$> filter (is_image_file input_dir) entries
      ∧ (∀ p, p ∈ r.1 ↔
              ∃ e, e ∈ entries ∧ entry_is_file e = true
                   ∧ PyStr.lower (suffix p) ∈ SUPPORTED_IMAGE_FORMATS
                   ∧ p = path_join input_dir (entry_name e))
      ∧ StronglySorted path_le r.1
      ∧ StronglySorted String.le (name <$> r.1)
      ∧ warnings r.2
        = (λ e, "Fichier ignoré (format non supporté) : " +:+ entry_name e)
          <$> filter (is_other_file input_dir) entries
      ∧ errors r.2 = [].
Proof.
  split; [done|]. split; [done|]. intros entries r. subst r.
  unfold get_input_images. rewrite scan_from. cbn [fst snd app].
  set (valid := _ <$> filter _ entries).
  assert (Hperm : merge_sort path_le valid ≡ₚ valid) by apply merge_sort_Permutation.
  assert (Hsorted : StronglySorted path_le (merge_sort path_le valid))
    by apply (StronglySorted_merge_sort _).
  split; [done|]. split.
  { intros p. rewrite Hperm. unfold valid. rewrite list_elem_of_fmap. split.
    - intros (e & -> & [[Hf Hv] He]%list_elem_of_filter). by exists e.
    - intros (e & He & Hf & Hv & ->). exists e. split; [done|].
      apply list_elem_of_filter. by split. }
  split; [done|]. split.
  { apply (names_sorted input_dir); [|done]. rewrite Hperm. unfold valid.
    apply Forall_fmap, Forall_forall. by intros e _. }
  unfold warnings, errors. rewrite !omap_app. fold (warnings (entries ≫= scan_log input_dir)).
  fold (errors (entries ≫= scan_log input_dir)).
  rewrite warnings_scan, errors_scan. cbn. by rewrite app_nil_r.
Qed.

End FileManagerFacts.

(** ** The compressor *)

Module ImageProcessorFacts.
Import FileManager ImageProcessor ImageProcessorSpec.

Lemma saved_qualities_app (l1 l2 : list event) :
  saved_qualities (l1 ++ l2) = saved_qualities l1 ++ saved_qualities l2.
Proof. unfold saved_qualities. apply omap_app. Qed.

Lemma warnings_app (l1 l2 : list event) :
  warnings (l1 ++ l2) = warnings l1 ++ warnings l2.
Proof. unfold warnings. apply omap_app. Qed.

Lemma schedule_length n q : length (schedule n q) = n.
Proof. revert q. induction n as [|n IH]; intros q; simpl; [done|]. by rewrite IH. Qed.

(** Every quality after the first is at least the floor, and is the
    previous one lowered by 15 or the floor. *)
Lemma schedule_step n q i q1 q2 :
  schedule n q !! i = Some q1 → schedule n q !! S i = Some q2 →
  q2 = Z.max 20 (q1 - 15) ∧ (20 ≤ q2)%Z.
Proof.
  revert q i. induction n as [|n IH]; intros q i; [done|].
  destruct i as [|i]; cbn [schedule lookup list_lookup].
  - intros [= <-]. destruct n as [|n]; [done|]. cbn. intros [= <-].
    unfold next_quality. lia.
  - apply IH.
Qed.

(** From a quality at or above the floor, the qualities stay between the
    floor and the first one. *)
Lemma schedule_floor n q x :
  (20 ≤ q)%Z → x ∈ schedule n q → (20 ≤ x ≤ q)%Z.
Proof.
  revert q. induction n as [|n IH]; intros q Hq; cbn [schedule].
  - by intros ?%elem_of_nil.
  - intros [->|Hx]%elem_of_cons; [lia|].
    apply IH in Hx; unfold next_quality in *; lia.
Qed.

Section image_processor_facts.
Variable MAX_IMAGE_SIZE_MB : float.
Variable COMPRESSION_QUALITY : Z.
Variable PROCESSED_DIR : string.
Variable image : Type.
Variable prepare : list Byte.byte → option image.
Variable encode_jpeg : image → Z → list Byte.byte.
Variable format_float : float → string.

Local Abbreviation fits := (fits MAX_IMAGE_SIZE_MB image encode_jpeg).
Local Abbreviation attempts_made := (attempts_made MAX_IMAGE_SIZE_MB image encode_jpeg).
Local Abbreviation all_fail := (all_fail MAX_IMAGE_SIZE_MB image encode_jpeg).
Local Abbreviation compress_attempts :=
  (compress_attempts MAX_IMAGE_SIZE_MB image encode_jpeg format_float).
Local Abbreviation _compress_image :=
  (_compress_image MAX_IMAGE_SIZE_MB COMPRESSION_QUALITY image prepare encode_jpeg format_float).
Local Abbreviation _process_single_image :=
  (_process_single_image MAX_IMAGE_SIZE_MB COMPRESSION_QUALITY PROCESSED_DIR
     image prepare encode_jpeg format_float).

Lemma attempts_made_bounds img n q :
  attempts_made img n q ≤ n ∧ (0 < n → 0 < attempts_made img n q).
Proof.
  revert q. induction n as [|n IH]; intros q;
    cbn [ImageProcessorSpec.attempts_made]; [lia|].
  destruct (fits img q); [lia|]. destruct (IH (next_quality q)). lia.
Qed.

(** The attempts before the last one made all failed. *)
Lemma attempts_made_earlier_fail img n q i qi :
  S i < attempts_made img n q →
  schedule (attempts_made img n q) q !! i = Some qi → fits img qi = false.
Proof.
  revert q i. induction n as [|n IH]; intros q i;
    cbn [ImageProcessorSpec.attempts_made]; [lia|].
  destruct (fits img q) eqn:Hq; [lia|]. intros Hlt.
  destruct i as [|i]; cbn [schedule lookup list_lookup]; [by intros [= <-]|].
  apply IH. lia.
Qed.

(** When the loop stops before its last attempt, the last one made fits;
    when all attempts fail, all are made. *)
Lemma attempts_made_last img n q ql :
  last (schedule (attempts_made img n q) q) = Some ql →
  (attempts_made img n q < n → fits img ql = true)
  ∧ (all_fail img n q = true → attempts_made img n q = n)
  ∧ (all_fail img n q = false → fits img ql = true).
Proof.
  revert q. induction n as [|n IH]; intros q;
    cbn [ImageProcessorSpec.attempts_made ImageProcessorSpec.all_fail]; [done|].
  destruct (fits img q) eqn:Hq; cbn [schedule last negb andb].
  - intros [= <-]. done.
  - destruct (attempts_made_bounds img n (next_quality q)) as [Hle Hpos].
    destruct n as [|n].
    + cbn. intros [= <-]. split; [lia|]. done.
    + specialize (Hpos ltac:(lia)).
      destruct (attempts_made img (S n) (next_quality q)) as [|k] eqn:Hk; [lia|].
      cbn [schedule]. rewrite last_cons_cons. intros Hl.
      specialize (IH (next_quality q)). rewrite Hk in IH.
      destruct (IH Hl) as (H1 & H2 & H3).
      split; [intros; apply H1; lia|]. split; [|done].
      intros Ha. by rewrite H2.
Qed.

(** What the loop does from attempt number [a] on, when [a + n = 5]. *)
Lemma compress_attempts_spec input_name img temp_path n a q w :
  a + n = 5 →
  let w' := compress_attempts (seq a n) input_name img temp_path q w in
  let made := schedule (attempts_made img n q) q in
  ∃ events,
    log w' = log w ++ events
    ∧ saved_qualities events = made
    ∧ length (warnings events) = (if (0 <? n) && all_fail img n q then 1 else 0)
    ∧ fs w' = match last made with
              | Some ql => <[path_str temp_path := encode_jpeg img ql]> (fs w)
              | None => fs w
              end.
Proof.
  revert a q w. induction n as [|n IH]; intros a q w Han.
  - exists []. cbn. by rewrite app_nil_r.
  - cbn [seq ImageProcessor.compress_attempts ImageProcessorSpec.attempts_made
         ImageProcessorSpec.all_fail].
    unfold get_file_size_mb, write_file. cbn [fs log]. rewrite lookup_insert_eq.
    fold (fits img q). destruct (fits img q) eqn:Hq.
    + eexists. cbn [add_log log fs]. rewrite <- app_assoc. split; [done|].
      by cbn.
    + cbn [negb andb]. fold (next_quality q).
      set (w1 := {| fs := _; log := _ |}).
      destruct (decide (a = 4)) as [Ha|Ha].
      * assert (n = 0) as -> by lia.
        eexists. cbn [seq ImageProcessor.compress_attempts add_log log fs w1].
        split; [by rewrite <- !app_assoc|]. done.
      * assert (Hn : 0 < n) by lia.
        destruct (IH (S a) (next_quality q) w1 ltac:(lia))
          as (ev & Hlog & Hq' & Hw & Hfs).
        exists (SaveJpeg (path_str temp_path) q :: ev).
        rewrite Hlog, Hfs. cbn [log fs w1].
        split; [by rewrite <- app_assoc|].
        change (SaveJpeg (path_str temp_path) q :: ev)
          with ([SaveJpeg (path_str temp_path) q] ++ ev).
        rewrite saved_qualities_app, warnings_app, length_app, Hq', Hw.
        split; [done|]. split; [destruct n; [lia|done]|].
        destruct (attempts_made_bounds img n (next_quality q)) as [_ Hpos].
        specialize (Hpos Hn).
        destruct (attempts_made img n (next_quality q)) as [|k] eqn:Hk; [lia|].
        cbn [schedule]. rewrite last_cons_cons.
        destruct (last _) eqn:Hl; [by rewrite insert_insert_eq|].
        by apply last_None in Hl.
Qed.

Lemma all_fail_last img n q ql :
  all_fail img n q = true →
  last (schedule (attempts_made img n q) q) = Some ql → fits img ql = false.
Proof.
  revert q. induction n as [|n IH]; intros q;
    cbn [ImageProcessorSpec.attempts_made ImageProcessorSpec.all_fail]; [done|].
  destruct (fits img q) eqn:Hq; cbn [negb andb]; [done|]. intros Ha.
  destruct (attempts_made_bounds img n (next_quality q)) as [_ Hpos].
  destruct n as [|n]; [cbn; by intros [= <-]|].
  specialize (Hpos ltac:(lia)).
  destruct (attempts_made img (S n) (next_quality q)) as [|k] eqn:Hk; [lia|].
  cbn [schedule]. rewrite last_cons_cons. intros Hl.
  apply (IH (next_quality q)); [done|]. by rewrite Hk.
Qed.


(** C7: an image within the limit is copied as it is: no encoding is
    asked of the codec, and the file at the output path holds the bytes of
    the input. *)
Theorem process_single_image_pass_through (image_path : Path) (w : world)
    (content : list Byte.byte) :
  fs w !! path_str image_path = Some content →
  (size_mb (length content) <=? MAX_IMAGE_SIZE_MB)%float = true →
  let output_path := path_join PROCESSED_DIR (name image_path) in
  let r := _process_single_image image_path w in
  saved_qualities (log r.2) = saved_qualities (log w)
  ∧ fs r.2 !! path_str output_path = Some content
  ∧ (path_str output_path ≠ path_str image_path →
     r.1 = inr output_path
     ∧ fs r.2 = <[path_str output_path := content]> (fs w))
  ∧ (path_str output_path = path_str image_path →
     r.1 = inl (SameFileError (path_str image_path)) ∧ fs r.2 = fs w).
Proof.
  intros Hfile Hfit output_path r. subst r.
  unfold ImageProcessor._process_single_image, get_file_size_mb.
  rewrite Hfile, Hfit. fold output_path.
  unfold pass_through, copy2. cbn [add_log fs log]. rewrite Hfile.
  destruct (decide (path_str image_path = path_str output_path)) as [He|He];
    unfold add_log; cbn [fst snd fs log].
  - rewrite saved_qualities_app, app_nil_r. rewrite <- He.
    split; [done|]. split; [done|]. split; [done|]. done.
  - rewrite !saved_qualities_app, !app_nil_r. rewrite lookup_insert_eq.
    split; [done|]. split; [done|]. split; [done|]. intros Heq. by rewrite Heq in He.
Qed.

(** C10: the size of a missing file is [0.0]; with a limit that is not
    negative the image processor then takes the copy branch, and the copy
    raises [FileNotFoundError]. *)
Theorem missing_file_takes_copy_branch (image_path : Path) (w : world) :
  fs w !! path_str image_path = None →
  (0 <=? MAX_IMAGE_SIZE_MB)%float = true →
  let output_path := path_join PROCESSED_DIR (name image_path) in
  let r := _process_single_image image_path w in
  get_file_size_mb (fs w) image_path = 0%float
  ∧ r = pass_through image_path output_path
          (add_log w (LogDebug ("Taille initiale: " +:+ format_float 0 +:+ " Mo")))
  ∧ r.1 = inl (FileNotFoundError (path_str image_path))
  ∧ fs r.2 = fs w
  ∧ saved_qualities (log r.2) = saved_qualities (log w).
Proof.
  intros Hfile Hmax output_path r. subst r.
  assert (Hsize : get_file_size_mb (fs w) image_path = 0%float)
    by (unfold get_file_size_mb; by rewrite Hfile).
  unfold ImageProcessor._process_single_image. rewrite Hsize, Hmax.
  fold output_path. unfold pass_through, copy2. cbn [add_log fs log].
  rewrite Hfile. unfold add_log. cbn [fst snd fs log].
  by rewrite saved_qualities_app, app_nil_r.
Qed.

End image_processor_facts.

End ImageProcessorFacts.

(** ** The batch classifier *)

Module GeminiClientFacts.
Import Settings DataProcessor DataProcessorSpec DataProcessorFacts.
Import GeminiClient GeminiClientSpec.

Lemma Forall2_fmap_same {A B} (P : A → B → Prop) (f : A → B) (l : list A) :
  (∀ x, P x (f x)) → Forall2 P l (f <$> l).
Proof. intros H. induction l; cbn; constructor; auto. Qed.

(** *** The records built for an image *)

Lemma error_result_lookups (p : Path) (e : string) :
  _create_error_result p e !! "nom_fichier" = Some (VStr (name p))
  ∧ _create_error_result p e !! "chemin_fichier" = Some (VStr (path_str p))
  ∧ _create_error_result p e !! "source_information" = Some (VStr ("Erreur: " +:+ e))
  ∧ _create_error_result p e !! "erreur" = Some (VStr e).
Proof.
  unfold _create_error_result.
  repeat split; by repeat (rewrite lookup_insert_ne by done); rewrite lookup_insert_eq.
Qed.

Lemma schema_filled_lookup (v : string) (f : string) :
  f ∈ PRODUCT_SCHEMA → schema_filled v !! f = Some (VStr v).
Proof.
  intros Hf. unfold PRODUCT_SCHEMA in Hf.
  repeat (apply elem_of_cons in Hf as [->|Hf]); try (by apply elem_of_nil in Hf);
    reflexivity.
Qed.

Lemma schema_not_meta (f : string) :
  f ∈ PRODUCT_SCHEMA →
  f ≠ "nom_fichier" ∧ f ≠ "chemin_fichier" ∧ f ≠ "erreur".
Proof.
  intros Hf. unfold PRODUCT_SCHEMA in Hf.
  repeat (apply elem_of_cons in Hf as [->|Hf]); try (by apply elem_of_nil in Hf);
    done.
Qed.

Lemma error_result_schema (p : Path) (e : string) (f : string) :
  f ∈ PRODUCT_SCHEMA → f ≠ "source_information" →
  _create_error_result p e !! f = Some (VStr ERREUR_ANALYSE).
Proof.
  intros Hf Hs. destruct (schema_not_meta f Hf) as (H1 & H2 & H3).
  unfold _create_error_result. rewrite !lookup_insert_ne by done.
  by apply schema_filled_lookup.
Qed.

Lemma empty_result_lookups (p : Path) :
  _create_empty_result p !! "nom_fichier" = Some (VStr (name p))
  ∧ _create_empty_result p !! "chemin_fichier" = Some (VStr (path_str p))
  ∧ _create_empty_result p !! "source_information" = Some (VStr NON_ANALYSE)
  ∧ _create_empty_result p !! "erreur" = None.
Proof.
  unfold _create_empty_result.
  repeat split; repeat (rewrite lookup_insert_ne by done);
    rewrite ?lookup_insert_eq; done.
Qed.

Lemma empty_result_schema (p : Path) (f : string) :
  f ∈ PRODUCT_SCHEMA → f ≠ "source_information" →
  _create_empty_result p !! f = Some (VStr NON_DETECTE).
Proof.
  intros Hf Hs. destruct (schema_not_meta f Hf) as (H1 & H2 & H3).
  unfold _create_empty_result. rewrite !lookup_insert_ne by done.
  by apply schema_filled_lookup.
Qed.

Lemma error_result_from_image (p : Path) (e : string) :
  from_image p (_create_error_result p e).
Proof. destruct (error_result_lookups p e) as (H1 & H2 & _). by left. Qed.

Lemma empty_result_from_image (p : Path) : from_image p (_create_empty_result p).
Proof. destruct (empty_result_lookups p) as (H1 & H2 & _). by left. Qed.

(** The first loop of [_validate_product_data] leaves the keys outside the
    schema as they are. *)
Lemma fill_missing_other (L : list string) (product : record) (k : string) :
  k ∉ L →
  foldl (λ product field,
           match product !! field with
           | None | Some VNone => <[field := VStr NON_DETECTE]> product
           | Some _ => product
           end) product L !! k = product !! k.
Proof.
  revert product. induction L as [|a L IH]; intros product Hk; [done|].
  apply not_elem_of_cons in Hk as [Hne HL]. cbn [foldl]. rewrite IH by done.
  destruct (product !! a) as [[]|]; try done; by rewrite lookup_insert_ne.
Qed.

Lemma validate_meta (product : record) (k : string) (s : string) :
  k ∉ PRODUCT_SCHEMA → product !! k = Some (VStr s) →
  _validate_product_data product !! k = Some (VStr (PyStr.strip s)).
Proof.
  intros Hk Hs. unfold _validate_product_data.
  by rewrite lookup_fmap, fill_missing_other, Hs.
Qed.

Lemma validated_from_image (paths : list Path) (i : nat) (p : Path)
    (product : record) :
  paths !! i = Some p →
  from_image p (_validate_product_data (tag_product paths i product)).
Proof.
  intros Hp. right. unfold tag_product. rewrite Hp. split.
  - apply validate_meta; [by apply (bool_decide_unpack _)|].
    by rewrite lookup_insert_ne, lookup_insert_eq.
  - apply validate_meta; [by apply (bool_decide_unpack _)|].
    by rewrite lookup_insert_eq.
Qed.

(** *** The loop over the products *)

Lemma tag_products_spec (paths : list Path) (items : list pyval) :
  ∀ (i : nat) (results : list record),
    tag_products paths i items = inr results →
    length results = length items
    ∧ ∀ j rec, results !! j = Some rec →
        ∃ d, items !! j = Some (VDict d)
             ∧ rec = _validate_product_data (tag_product paths (i + j) (to_record d)).
Proof.
  induction items as [|v items IH]; intros i results; cbn [tag_products].
  - intros [= <-]. split; [done|]. intros j rec Hj. by rewrite lookup_nil in Hj.
  - destruct v as [| | | | | |d]; try discriminate.
    destruct (tag_products paths (S i) items) as [e|rest] eqn:Hrest;
      [discriminate|].
    intros [= <-]. destruct (IH (S i) rest Hrest) as [Hlen Hpos].
    split; [cbn [length]; by rewrite Hlen|].
    intros [|j] rec; cbn [lookup list_lookup].
    + intros [= <-]. exists d. by rewrite Nat.add_0_r.
    + intros Hj. destruct (Hpos j rec Hj) as (d' & Hd & ->). exists d'.
      split; [done|]. by replace (i + S j) with (S i + j) by lia.
Qed.

Section gemini_client_facts.
Variable BATCH_SIZE : Z.
Variable json_loads : string → json_reply.
Variable call_model : nat → list Path → api_reply.
Variable future_repr : nat → string.

Local Abbreviation _parse_gemini_response := (_parse_gemini_response json_loads).
Local Abbreviation attempt := (attempt json_loads call_model).
Local Abbreviation retrying := (retrying json_loads call_model future_repr).
Local Abbreviation _analyze_batch := (_analyze_batch json_loads call_model future_repr).
Local Abbreviation analyze_step :=
  (analyze_step BATCH_SIZE json_loads call_model future_repr).
Local Abbreviation analyze_images :=
  (analyze_images BATCH_SIZE json_loads call_model future_repr).
Local Abbreviation response_items := (response_items json_loads).
Local Abbreviation returns_at_most := (returns_at_most json_loads call_model).
Local Abbreviation call_fails := (call_fails call_model).

(** A response that holds no more products than the batch has images is
    parsed to one record per image of the batch, in order. *)
Lemma parse_from_image (text : string) (batch : list Path) :
  (∀ items, response_items text = Some items → length items ≤ length batch) →
  Forall2 from_image batch (_parse_gemini_response text batch).
Proof.
  intros Hb. unfold GeminiClient._parse_gemini_response.
  unfold GeminiClientSpec.response_items in Hb.
  destruct (json_loads (strip_fences text)) as [parsed| |e];
    [|apply Forall2_fmap_same; intros; apply error_result_from_image..].
  destruct (get_produits parsed) as [e|products];
    [apply Forall2_fmap_same; intros; apply error_result_from_image|].
  destruct (iter_items products) as [e|items];
    [apply Forall2_fmap_same; intros; apply error_result_from_image|].
  specialize (Hb items eq_refl).
  destruct (tag_products batch 0 items) as [e|results] eqn:Ht;
    [apply Forall2_fmap_same; intros; apply error_result_from_image|].
  destruct (tag_products_spec _ _ _ _ Ht) as [Hlen Hpos].
  unfold pad_results.
  rewrite <- (take_drop (length results) batch) at 1.
  apply Forall2_app.
  - apply Forall2_same_length_lookup_2.
    { rewrite length_take. lia. }
    intros i p rec [Hp _]%lookup_take_Some Hr.
    destruct (Hpos i rec Hr) as (d & _ & ->). by apply validated_from_image.
  - apply Forall2_fmap_same. apply empty_result_from_image.
Qed.

(** What [_analyze_batch] returns is an error or the parsed text of some
    call. *)
Lemma retrying_cases (more n : nat) (batch : list Path) :
  (∃ e, (retrying more n batch).1 = inl e)
  ∨ (∃ m text, call_model m batch = ApiText text
               ∧ (retrying more n batch).1 = inr (_parse_gemini_response text batch)).
Proof.
  revert n. induction more as [|more IH]; intros n;
    cbn [GeminiClient.retrying]; unfold GeminiClient.attempt;
    destruct (call_model n batch) as [e|text] eqn:Hc.
  - left. by eexists.
  - case_decide; [left; by eexists|right; by exists n, text].
  - apply IH.
  - case_decide; [apply IH|right; by exists n, text].
Qed.

Lemma analyze_step_from_image (images : list Path) (acc : nat * list record) (i : Z) :
  returns_at_most →
  ∃ new, (analyze_step images acc i).2 = acc.2 ++ new
         ∧ Forall2 from_image (slice images i BATCH_SIZE) new.
Proof.
  intros Hb. unfold GeminiClient.analyze_step, GeminiClient._analyze_batch.
  set (batch := slice images i BATCH_SIZE).
  destruct (retrying_cases (STOP_AFTER_ATTEMPT - 1) acc.1 batch)
    as [[e He]|(m & text & Hc & Hr)];
    destruct (retrying _ _ _) as [[e'|res] n'] eqn:Hret; cbn [fst snd] in *;
    try discriminate.
  - eexists. split; [done|]. apply Forall2_fmap_same. intros.
    apply error_result_from_image.
  - injection Hr as ->. eexists. split; [done|].
    apply parse_from_image. intros items Hi. by eapply Hb.
Qed.

Lemma analyze_fold_from_image (images : list Path) (n m : nat) :
  (0 < BATCH_SIZE)%Z → returns_at_most →
  Forall2 from_image (take (m * Z.to_nat BATCH_SIZE) images)
    (foldl (analyze_step images) (n, [])
           ((λ k, (Z.of_nat k * BATCH_SIZE)%Z) <$> seq 0 m)).2.
Proof.
  intros Hpos Hb. induction m as [|m IH]; [constructor|].
  rewrite seq_S, fmap_app, foldl_app. cbn [fmap list_fmap foldl].
  destruct (analyze_step_from_image images
              (foldl (analyze_step images) (n, [])
                     ((λ k, (Z.of_nat k * BATCH_SIZE)%Z) <$> seq 0 m))
              (Z.of_nat (0 + m) * BATCH_SIZE)%Z Hb) as (new & -> & Hnew).
  replace (S m * Z.to_nat BATCH_SIZE) with (m * Z.to_nat BATCH_SIZE + Z.to_nat BATCH_SIZE) by lia.
  rewrite <- take_take_drop. apply Forall2_app; [done|].
  unfold slice in Hnew.
  replace (Z.to_nat (Z.of_nat (0 + m) * BATCH_SIZE)) with (m * Z.to_nat BATCH_SIZE)
    in Hnew by lia.
  done.
Qed.

(** With a positive batch size and no over-return, [analyze_images] gives
    one record per image, in the order of the images. *)
Lemma analyze_images_aligned (n : nat) (images : list Path) :
  (0 < BATCH_SIZE)%Z → returns_at_most →
  ∃ raw, analyze_images n images = inr raw ∧ Forall2 from_image images raw.
Proof.
  intros Hpos Hb. unfold GeminiClient.analyze_images.
  rewrite decide_False by lia. eexists. split; [done|].
  unfold py_range. rewrite (proj2 (Z.ltb_lt 0 BATCH_SIZE) Hpos).
  set (m := Z.to_nat _).
  pose proof (analyze_fold_from_image images n m Hpos Hb) as H.
  rewrite take_ge in H; [done|].
  unfold m.
  pose proof (Z.div_mod (Z.of_nat (length images) + BATCH_SIZE - 1) BATCH_SIZE ltac:(lia)).
  pose proof (Z.mod_pos_bound (Z.of_nat (length images) + BATCH_SIZE - 1) BATCH_SIZE Hpos).
  nia.
Qed.

(** C1: when the batch size is positive and no response holds more
    products than its batch has images, the classifier followed by the
    normalizer gives exactly one record per image, the [i]-th record being
    the one of the [i]-th image and carrying the sequence number [i + 1]. *)
Theorem one_record_per_image (now : nat → string) (n : nat) (images : list Path) :
  (0 < BATCH_SIZE)%Z → returns_at_most →
  ∃ raw, analyze_images n images = inr raw
    ∧ let out := (process_results now raw).1 in
      length out = length images
      ∧ ∀ i img, images !! i = Some img →
          ∃ rec, out !! i = Some rec ∧ from_image img rec
                 ∧ rec !! "numero_sequence" = Some (VInt (Z.of_nat (S i))).
Proof.
  intros Hpos Hb.
  destruct (analyze_images_aligned n images Hpos Hb) as (raw & Hraw & Hall).
  exists raw. split; [done|]. cbn zeta. rewrite process_results_records.
  split; [rewrite length_imap; symmetry; by eapply Forall2_length|].
  intros i img Hi.
  destruct (Forall2_lookup_l _ _ _ _ _ Hall Hi) as (r & Hr & Hfrom).
  exists (process_one now (S i) r). rewrite list_lookup_imap, Hr.
  split; [done|]. split; [|apply process_one_numero].
  unfold from_image. rewrite !process_one_meta
    by (apply (bool_decide_unpack _); by vm_compute).
  exact Hfrom.
Qed.

Lemma tag_products_dicts (paths : list Path) (ps : list (list (string * pyval))) :
  ∀ i, tag_products paths i (VDict <$> ps)
       = inr (imap (λ j p, _validate_product_data
                             (tag_product paths (i + j) (to_record p))) ps).
Proof.
  induction ps as [|p ps IH]; intros i; [done|].
  cbn [fmap list_fmap tag_products imap]. rewrite IH. rewrite Nat.add_0_r.
  do 2 f_equal. apply imap_ext. intros j q _. cbn [compose]. do 2 f_equal. lia.
Qed.

(** C8: when the response holds fewer products than the batch has images,
    the output has one record per image; the [i]-th product, validated, is
    tagged with the [i]-th image, and every later image gets the
    placeholder: the sentinel in the six fields other than
    [source_information], and the "not analyzed" mark in that one. *)
Theorem fewer_products_are_padded (text : string) (batch : list Path)
    (d : list (string * pyval)) (ps : list (list (string * pyval))) :
  json_loads (strip_fences text) = JsonValue (VDict d) →
  to_record d !! "produits" = Some (VList (VDict <$> ps)) →
  length ps < length batch →
  let results := _parse_gemini_response text batch in
  length results = length batch
  ∧ (∀ i p img, ps !! i = Some p → batch !! i = Some img →
       results !! i
       = Some (_validate_product_data
                 (<["chemin_fichier" := VStr (path_str img)]>
                    (<["nom_fichier" := VStr (name img)]> (to_record p)))))
  ∧ (∀ i img, length ps ≤ i → batch !! i = Some img →
       results !! i = Some (_create_empty_result img)
       ∧ (∀ f, f ∈ PRODUCT_SCHEMA → f ≠ "source_information" →
               _create_empty_result img !! f = Some (VStr NON_DETECTE))
       ∧ _create_empty_result img !! "source_information" = Some (VStr NON_ANALYSE)
       ∧ _create_empty_result img !! "nom_fichier" = Some (VStr (name img))
       ∧ _create_empty_result img !! "chemin_fichier" = Some (VStr (path_str img))).
Proof.
  intros Hjson Hprod Hlt results. subst results.
  unfold GeminiClient._parse_gemini_response. rewrite Hjson.
  cbn [get_produits]. rewrite Hprod. cbn [iter_items].
  rewrite tag_products_dicts. unfold pad_results. rewrite length_imap.
  split; [|split].
  - rewrite length_app, length_imap, length_fmap, length_drop. lia.
  - intros i p img Hp Himg.
    rewrite lookup_app_l by (rewrite length_imap; by eapply lookup_lt_Some).
    rewrite list_lookup_imap, Hp. cbn [fmap option_fmap option_map].
    unfold tag_product. cbn [Nat.add]. by rewrite Himg.
  - intros i img Hge Himg.
    rewrite lookup_app_r by (rewrite length_imap; lia).
    rewrite length_imap, list_lookup_fmap, lookup_drop.
    replace (length ps + (i - length ps)) with i by lia. rewrite Himg.
    destruct (empty_result_lookups img) as (H1 & H2 & H3 & _).
    split; [done|]. split; [apply empty_result_schema|]. done.
Qed.

Lemma call_fails_attempt (n : nat) (batch : list Path) :
  call_fails n batch → ∃ e, attempt n batch = inl e.
Proof.
  unfold GeminiClientSpec.call_fails, GeminiClient.attempt.
  destruct (call_model n batch) as [e|text]; [by eexists|].
  intros ->. by eexists.
Qed.

(** Three failed attempts in a row: the loop of [analyze_images] appends
    one error record per image of the batch. *)
Lemma failed_batch_step (images : list Path) (acc : nat * list record) (i : Z) :
  (∀ k, k < 3 → call_fails (acc.1 + k) (slice images i BATCH_SIZE)) →
  analyze_step images acc i
  = (acc.1 + 3,
     acc.2 ++ ((λ p, _create_error_result p
                       ("RetryError[" +:+ future_repr (acc.1 + 2) +:+ "]"))
               <$> slice images i BATCH_SIZE)).
Proof.
  intros Hfail.
  destruct (call_fails_attempt _ _ (Hfail 0 ltac:(lia))) as [e0 H0].
  destruct (call_fails_attempt _ _ (Hfail 1 ltac:(lia))) as [e1 H1].
  destruct (call_fails_attempt _ _ (Hfail 2 ltac:(lia))) as [e2 H2].
  rewrite Nat.add_0_r in H0.
  unfold GeminiClient.analyze_step, GeminiClient._analyze_batch.
  cbn [STOP_AFTER_ATTEMPT Nat.sub GeminiClient.retrying].
  rewrite H0. replace (S acc.1) with (acc.1 + 1) by lia. rewrite H1.
  replace (S (acc.1 + 1)) with (acc.1 + 2) by lia. rewrite H2.
  by replace (S (acc.1 + 2)) with (acc.1 + 3) by lia.
Qed.

(** C2 (amended): when the three attempts on a batch fail, the loop of
    [analyze_images] appends one error record per image of the batch; such
    a record holds the error sentinel in the six fields other than
    [source_information], the text of the error after "Erreur: " in that
    one, and the text of the error, which is not empty, under the key
    [erreur]; the normalizer gives it the status "Erreur" and keeps the
    text of the error. *)
Theorem failed_batch_error_records (now : nat → string) (images : list Path)
    (acc : nat * list record) (i : Z) :
  (∀ k, k < 3 → call_fails (acc.1 + k) (slice images i BATCH_SIZE)) →
  let batch := slice images i BATCH_SIZE in
  let msg := "RetryError[" +:+ future_repr (acc.1 + 2) +:+ "]" in
  analyze_step images acc i
  = (acc.1 + 3, acc.2 ++ ((λ p, _create_error_result p msg) <$> batch))
  ∧ msg ≠ ""
  ∧ ∀ img, let rec := _create_error_result img msg in
      (∀ f, f ∈ PRODUCT_SCHEMA → f ≠ "source_information" →
            rec !! f = Some (VStr ERREUR_ANALYSE))
      ∧ rec !! "source_information" = Some (VStr ("Erreur: " +:+ msg))
      ∧ rec !! "erreur" = Some (VStr msg)
      ∧ ∀ j, process_one now j rec !! "statut" = Some (VStr "Erreur")
             ∧ process_one now j rec !! "erreur" = Some (VStr msg).
Proof.
  intros Hfail batch msg.
  split; [by apply failed_batch_step|]. split; [unfold msg; discriminate|].
  intros img rec. subst rec.
  destruct (error_result_lookups img msg) as (_ & _ & Hs & He).
  split; [apply error_result_schema|]. split; [done|]. split; [done|].
  intros j. rewrite process_one_erreur. split; [|done].
  destruct (process_one_score now j (_create_error_result img msg))
    as (score & _ & _ & _ & ->).
  by rewrite decide_True by (by rewrite He).
Qed.

End gemini_client_facts.

End GeminiClientFacts.

(** ** The properties on sample runs *)

Module SampleRuns.
Import Settings DataProcessor DataProcessorSpec DataProcessorFacts.
Import FileManager ImageProcessor ImageProcessorSpec ImageProcessorFacts.
Import GeminiClient GeminiClientSpec GeminiClientFacts Samples.

(** *** Strings *)

Example replace_does_not_overlap : PyStr.replace "aa" "b" "aaa" = "ba".
Proof. by vm_compute. Qed.

Example strip_both_ends : PyStr.strip "  2 L   " = "2 L".
Proof. by vm_compute. Qed.

Example strip_fences_fenced : strip_fences "```json {} ```" = "{}".
Proof. by vm_compute. Qed.

Example suffix_of_names :
  suffix (path_join "/d" "a.tar.GZ") = ".GZ" ∧ suffix (path_join "/d" ".jpg") = ""
  ∧ suffix (path_join "/d" "a.") = "" ∧ suffix (path_join "/d" "a") = "".
Proof. by vm_compute. Qed.

(** *** Unit words in a volume *)

Example clean_volume_litres : _clean_volume "2 Litres" = "2 L".
Proof. by vm_compute. Qed.

Example clean_price_fcfa : _clean_price "1 200,50 FCFA" = "1200,50".
Proof. by vm_compute. Qed.

(** The class [\d] has the decimal digits of every script, and no other
    digit. *)
Example clean_price_fullwidth :
  _clean_price "１２ FCFA" = "１２" ∧ _clean_barcode "EAN ٣٤٥ 67" = "٣٤٥67"
  ∧ _clean_barcode "x²½" = NON_DETECTE.
Proof. by vm_compute. Qed.

(** A volume with a capital and no unit word is cleaned to the same string
    twice. *)
Example clean_result_capital :
  _clean_result r_capital !! "volume" = Some (VStr "1.5l")
  ∧ _clean_result (_clean_result r_capital) !! "volume" = Some (VStr "1.5l")
  ∧ _clean_result r_capital !! "code_barres_ean" = Some (VStr "٣٤٥67").
Proof. split; [by vm_compute|]. split; by vm_compute. Qed.

(** A volume in grams is cleaned to the same string twice, although a word
    of the table occurs in it. *)
Example clean_volume_grammes :
  _clean_volume "500 Grammes" = "500 g" ∧ _clean_volume "500 g" = "500 g"
  ∧ volume_fixed_point "500 g" ∧ ¬ volume_stable "500 Grammes".
Proof.
  split; [by vm_compute|]. split; [by vm_compute|]. split.
  - right. split; [apply (bool_decide_unpack _); by vm_compute|].
    split; [by vm_compute|]. unfold replacements. repeat constructor.
  - intros [H|[H|H]]; [discriminate| |].
    + revert H. apply (bool_decide_unpack (_ ∉ _)). by vm_compute.
    + unfold replacements in H. do 4 (apply Forall_cons in H as [_ H]).
      apply Forall_cons in H as [H _]. vm_compute in H. discriminate.
Qed.

(** C5: the table is applied in the order of its entries, so the entry
    for "litres" rewrites the end of "millilitres" before the entry for
    "millilitres" is tried: the volume "500 millilitres" is cleaned to
    "500 milliL", not to "500 mL"; the entries for "kilogrammes" are
    shadowed by the one for "grammes" in the same way. *)
Theorem clean_volume_millilitres :
  _clean_volume "500 millilitres" = "500 milliL"
  ∧ _clean_volume "500 millilitres" ≠ "500 mL"
  ∧ _clean_volume "3 Kilogrammes" = "3 kilog".
Proof. split; [by vm_compute|]. split; [by vm_compute|by vm_compute]. Qed.

(** *** A run in which the model answers *)

Lemma answering_model_at_most : returns_at_most one_product answering_model.
Proof.
  intros n batch text items Hc Hi. destruct batch as [|p batch]; [discriminate|].
  vm_compute in Hi. injection Hi as <-. cbn [length]. lia.
Defined.

Lemma one_record_per_image_sample :
  ∃ raw,
    analyze_images 2 one_product answering_model sample_future 0 three_images = inr raw
    ∧ let out := (process_results sample_clock raw).1 in
      length out = length three_images
      ∧ ∀ i img, three_images !! i = Some img →
          ∃ rec, out !! i = Some rec ∧ from_image img rec
                 ∧ rec !! "numero_sequence" = Some (VInt (Z.of_nat (S i))).
Proof.
  apply (one_record_per_image 2 one_product answering_model sample_future
           sample_clock 0 three_images); [lia|exact answering_model_at_most].
Defined.

Lemma fewer_products_are_padded_sample :
  let results := _parse_gemini_response two_products "{}" three_images in
  length results = 3
  ∧ results !! 2 = Some (_create_empty_result image_c)
  ∧ _create_empty_result image_c !! "source_information" = Some (VStr NON_ANALYSE).
Proof.
  destruct (fewer_products_are_padded two_products "{}" three_images
              [("produits", VList [VDict milk; VDict water])] [milk; water]
              eq_refl eq_refl ltac:(cbn; lia)) as (Hlen & _ & Hpad).
  destruct (Hpad 2 image_c ltac:(cbn; lia) eq_refl) as (H1 & _ & H2 & _).
  split; [exact Hlen|]. split; [exact H1|exact H2].
Defined.

(** A response that holds more products than the batch has images: the
    extra product is kept, under a made-up file name. *)
Example over_return_keeps_extra :
  let results := _parse_gemini_response two_products "{}" [image_a] in
  length results = 2
  ∧ (λ rec : record, rec !! "nom_fichier") <$> results
    = [Some (VStr "a.jpg"); Some (VStr "image_inconnue_2")].
Proof. by vm_compute. Qed.

(** *** A run in which the model fails *)

Lemma failed_batch_error_records_sample :
  analyze_step 4 one_product failing_model sample_future four_images (0, []) 0
  = (3, (λ p, _create_error_result p
                ("RetryError[" +:+ sample_future 2 +:+ "]")) <$> four_images)
  ∧ ∀ j, process_one sample_clock j
           (_create_error_result image_a ("RetryError[" +:+ sample_future 2 +:+ "]"))
         !! "statut" = Some (VStr "Erreur").
Proof.
  destruct (failed_batch_error_records 4 one_product failing_model sample_future
              sample_clock four_images (0, []) 0 (λ k _, I)) as (Hstep & _ & Hrec).
  split; [exact Hstep|]. intros j.
  destruct (Hrec image_a) as (_ & _ & _ & Hp). exact (proj1 (Hp j)).
Defined.

(** The claim that all seven fields of an error record hold the error
    sentinel fails on the field [source_information]. *)
Lemma failed_batch_source_information :
  ∃ raw,
    analyze_images 4 one_product failing_model sample_future 0 four_images = inr raw
    ∧ length raw = 4
    ∧ ¬ (∀ rec f, rec ∈ raw → f ∈ PRODUCT_SCHEMA →
                  rec !! f = Some (VStr ERREUR_ANALYSE)).
Proof.
  exists ((λ p, _create_error_result p ("RetryError[" +:+ sample_future 2 +:+ "]"))
            <$> four_images).
  split.
  { unfold analyze_images. rewrite decide_False by done.
    change (py_range (Z.of_nat (length four_images)) 4) with [0%Z].
    cbn [foldl]. by rewrite (failed_batch_step _ _ failing_model) by (intros; exact I). }
  split; [done|]. intros H.
  assert (Hin : _create_error_result image_a
                  ("RetryError[" +:+ sample_future 2 +:+ "]")
                ∈ (λ p, _create_error_result p
                          ("RetryError[" +:+ sample_future 2 +:+ "]"))
                  <$> four_images) by left.
  specialize (H _ "source_information" Hin
                ltac:(apply (bool_decide_unpack _); by vm_compute)).
  destruct (error_result_lookups image_a ("RetryError[" +:+ sample_future 2 +:+ "]"))
    as (_ & _ & Hs & _).
  rewrite Hs in H. injection H as H. vm_compute in H. discriminate.
Qed.

(** *** The normalizer *)

Lemma process_results_sample :
  ∃ score statut,
    process_one sample_clock 1 r_plain !! "score_completude" = Some (VFloat score)
    ∧ (0 <=? score)%float = true ∧ (score <=? 100)%float = true
    ∧ process_one sample_clock 1 r_plain !! "statut" = Some (VStr statut)
    ∧ statut ∈ ["Complet"; "Partiel"; "Erreur"]
    ∧ (statut = "Complet" ↔
       process_one sample_clock 1 r_plain !! "erreur" = None
       ∧ (80 <=? score)%float = true).
Proof.
  apply (process_results_score_and_status sample_clock [r_plain]). left.
Defined.

(** *** The compressor *)


Example compress_image_all_fail :
  let r := _compress_image ten_bytes 85 unit sample_prepare sample_encode
             sample_format input_a (path_join "/data/processed" "a.jpg")
             sample_world in
  saved_qualities (log r.2) = [85; 70; 55; 40; 25]%Z
  ∧ length (warnings (log r.2)) = 1
  ∧ r.1 = inr (path_join "/data/processed" "a.jpg")
  ∧ fs r.2 !! "/data/processed/a.jpg" = Some (sample_encode tt 25).
Proof. by vm_compute. Qed.

Example compress_image_fifth_fits :
  let r := _compress_image thirty_bytes 85 unit sample_prepare sample_encode
             sample_format input_a (path_join "/data/processed" "a.jpg")
             sample_world in
  saved_qualities (log r.2) = [85; 70; 55; 40; 25]%Z ∧ warnings (log r.2) = [].
Proof. by vm_compute. Qed.


Lemma pass_through_sample :
  let r := _process_single_image default_limit 85 "/data/processed" unit
             sample_prepare sample_encode sample_format input_a sample_world in
  saved_qualities (log r.2) = saved_qualities (log sample_world)
  ∧ fs r.2 !! "/data/processed/a.jpg" = Some small_content.
Proof.
  destruct (process_single_image_pass_through default_limit 85 "/data/processed"
              unit sample_prepare sample_encode sample_format input_a
              sample_world small_content eq_refl eq_refl) as (H1 & H2 & _).
  split; [exact H1|exact H2].
Defined.

Lemma missing_file_sample :
  let r := _process_single_image default_limit 85 "/data/processed" unit
             sample_prepare sample_encode sample_format input_missing
             sample_world in
  get_file_size_mb (fs sample_world) input_missing = 0%float
  ∧ r.1 = inl (FileNotFoundError "/data/input/missing.jpg").
Proof.
  destruct (missing_file_takes_copy_branch default_limit 85 "/data/processed"
              unit sample_prepare sample_encode sample_format input_missing
              sample_world eq_refl eq_refl) as (H1 & _ & H2 & _).
  split; [exact H1|exact H2].
Defined.

(** *** The gatekeeper *)

Example get_input_images_sample :
  (get_input_images "/data/input"
     (Some [ {| entry_name := "b.PNG"; entry_is_file := true |};
             {| entry_name := "notes.txt"; entry_is_file := true |};
             {| entry_name := "a.jpg"; entry_is_file := true |};
             {| entry_name := "old.jpg"; entry_is_file := false |};
             {| entry_name := ".jpg"; entry_is_file := true |};
             {| entry_name := "B.jpeg"; entry_is_file := true |} ])).1
  = [path_join "/data/input" "B.jpeg"; path_join "/data/input" "a.jpg";
     path_join "/data/input" "b.PNG"].
Proof. by vm_compute. Qed.

End SampleRuns.
(** ** More on Python strings *)

Module PyStrMore.
Import PyStr PyStrFacts.

Lemma take_append (s t : string) : take (String.length s) (s +:+ t) = s.
Proof.
  induction s as [|c r IH]; [by destruct t|].
  rewrite append_cons. cbn. by rewrite IH.
Qed.

(** [(s + t)[:-len(t)]] *)
Lemma drop_end_append (s t : string) :
  drop_end (String.length t) (s +:+ t) = s.
Proof.
  unfold drop_end. rewrite length_append.
  replace (String.length s + String.length t - String.length t)
    with (String.length s) by lia.
  apply take_append.
Qed.

Lemma rev_app_append (s t acc : string) :
  String.rev_app (s +:+ t) acc = String.rev_app t (String.rev_app s acc).
Proof.
  revert acc. induction s as [|c r IH]; intros acc; [done|].
  rewrite append_cons. cbn. apply IH.
Qed.

Lemma rstrip_cons (c : ascii) (r : string) :
  isspace c = false → rstrip (String c r) = String c (rstrip r).
Proof. intros Hc. cbn [rstrip]. rewrite Hc. by destruct (rstrip r). Qed.

End PyStrMore.


(** ** More on the batch classifier *)

Module GeminiClientMore.
Import PyStr PyStrFacts Settings DataProcessor DataProcessorSpec DataProcessorFacts.
Import GeminiClient GeminiClientSpec GeminiClientFacts GeminiClientRest.
Import FileManager PyStrMore.

Lemma filled_filled (o : option pyval) : filled (Some (filled o)) = filled o.
Proof. by destruct o as [[]|]. Qed.

Lemma tidied_not_none (v : pyval) : tidied v ≠ VNone.
Proof. by destruct v. Qed.

Lemma tidied_idem (v : pyval) : tidied (tidied v) = tidied v.
Proof. destruct v; cbn; try done. by rewrite strip_idem. Qed.

(** The first loop of [_validate_product_data] at any key. *)
Lemma fill_missing_lookup (L : list string) (product : record) (k : string) :
  foldl (λ product field,
           match product !! field with
           | None | Some VNone => <[field := VStr NON_DETECTE]> product
           | Some _ => product
           end) product L !! k
  = if decide (k ∈ L) then Some (filled (product !! k)) else product !! k.
Proof.
  revert product. induction L as [|a L IH]; intros product; cbn [foldl].
  - by rewrite decide_False by apply not_elem_of_nil.
  - rewrite IH. clear IH.
    set (product' := match product !! a with
                     | None | Some VNone => <[a := VStr NON_DETECTE]> product
                     | Some _ => product
                     end).
    assert (Ha : product' !! a = Some (filled (product !! a))).
    { unfold product'. destruct (product !! a) as [[]|] eqn:E;
        rewrite ?lookup_insert_eq; done. }
    assert (Hk : k ≠ a → product' !! k = product !! k).
    { intros Hne. unfold product'.
      destruct (product !! a) as [[]|]; rewrite ?lookup_insert_ne; done. }
    destruct (decide (k = a)) as [->|Hne].
    + rewrite (decide_True (P := a ∈ a :: L)) by by left.
      rewrite Ha. case_decide; [by rewrite filled_filled|done].
    + rewrite (Hk Hne). destruct (decide (k ∈ L)) as [HL|HL].
      * rewrite decide_True; [done|by right].
      * rewrite decide_False; [done|]. by intros [?|?]%elem_of_cons.
Qed.

Lemma validate_lookup (product : record) (k : string) :
  _validate_product_data product !! k
  = if decide (k ∈ PRODUCT_SCHEMA) then Some (tidied (filled (product !! k)))
    else tidied <$> product !! k.
Proof.
  unfold _validate_product_data. fold tidied.
  rewrite lookup_fmap, fill_missing_lookup. by case_decide.
Qed.

(** X1: after [_validate_product_data] the seven fields of the schema are
    present, no value is [None], every string is stripped, the keys are
    those of the schema and those the product had, and a value that is
    neither a string nor [None] is kept. *)
Theorem validate_product_complete (product : record) :
  let v := _validate_product_data product in
  (∀ f, f ∈ PRODUCT_SCHEMA → is_Some (v !! f))
  ∧ (∀ k, v !! k ≠ Some VNone)
  ∧ (∀ k s, v !! k = Some (VStr s) → strip s = s)
  ∧ (∀ k, is_Some (v !! k) ↔ k ∈ PRODUCT_SCHEMA ∨ is_Some (product !! k))
  ∧ (∀ k x, product !! k = Some x → tidied x = x → v !! k = Some x).
Proof.
  cbn zeta. repeat split.
  - intros f Hf. rewrite validate_lookup, decide_True by done. by eexists.
  - intros k. rewrite validate_lookup. case_decide.
    + intros [= H']. by apply tidied_not_none in H'.
    + destruct (product !! k) as [x|]; [|done]. cbn. intros [= H'].
      by apply tidied_not_none in H'.
  - intros k s. rewrite validate_lookup.
    assert (Ht : ∀ x, tidied x = VStr s → strip s = s).
    { intros [] [= <-]; [done|apply strip_idem]. }
    case_decide; [intros [= H']; by eapply Ht|].
    destruct (product !! k) as [x|]; [|done]. cbn. intros [= H']. by eapply Ht.
  - rewrite validate_lookup. case_decide; [by left|].
    intros [x Hx]. right. destruct (product !! k); [by eexists|done].
  - rewrite validate_lookup. intros [Hs|[x Hx]].
    + by rewrite decide_True.
    + case_decide; [done|]. by rewrite Hx.
  - intros k x Hx Ht. rewrite validate_lookup, Hx. cbn.
    case_decide; [|by rewrite Ht].
    destruct x; cbn in *; try done; by rewrite Ht.
Qed.

(** X2: validating a validated product changes nothing. *)
Theorem validate_product_idempotent (product : record) :
  _validate_product_data (_validate_product_data product)
  = _validate_product_data product.
Proof.
  apply map_eq. intros k. rewrite (validate_lookup (_validate_product_data product)).
  rewrite validate_lookup. case_decide.
  - cbn. f_equal. destruct (tidied (filled (product !! k))) eqn:E;
      try (by apply tidied_not_none in E); rewrite <- E; by rewrite tidied_idem.
  - destruct (product !! k); [|done]. cbn. by rewrite tidied_idem.
Qed.

(** *** The records of a run *)

Lemma Forall_fmap_all {A B} (P : B → Prop) (f : A → B) (l : list A) :
  (∀ x, P (f x)) → Forall P (f <$> l).
Proof. intros H. induction l; cbn [fmap list_fmap]; constructor; auto. Qed.

Lemma Forall_imap_all {A B} (P : B → Prop) (f : nat → A → B) (l : list A) :
  (∀ i x, P (f i x)) → Forall P (imap f l).
Proof.
  revert f. induction l as [|x l IH]; intros f H; cbn [imap]; constructor; auto.
  apply IH. intros i y. apply H.
Qed.

Lemma error_result_well_formed (p : Path) (e : string) :
  well_formed (_create_error_result p e).
Proof.
  destruct (error_result_lookups p e) as (H1 & H2 & H3 & _).
  split; [|split; by eexists]. intros f Hf.
  destruct (decide (f = "source_information")) as [->|Hne]; [by eexists|].
  rewrite error_result_schema by done. by eexists.
Qed.

Lemma empty_result_well_formed (p : Path) : well_formed (_create_empty_result p).
Proof.
  destruct (empty_result_lookups p) as (H1 & H2 & H3 & _).
  split; [|split; by eexists]. intros f Hf.
  destruct (decide (f = "source_information")) as [->|Hne]; [by eexists|].
  rewrite empty_result_schema by done. by eexists.
Qed.

Lemma validated_well_formed (paths : list Path) (i : nat) (product : record) :
  well_formed (_validate_product_data (tag_product paths i product)).
Proof.
  split; [|split].
  - intros f Hf. rewrite validate_lookup, decide_True by done.
    eexists. split; [done|]. apply tidied_not_none.
  - unfold tag_product. destruct (paths !! i); eexists;
      (apply validate_meta; [by apply (bool_decide_unpack _)|]);
      by rewrite lookup_insert_ne, lookup_insert_eq.
  - unfold tag_product. destruct (paths !! i); eexists;
      (apply validate_meta; [by apply (bool_decide_unpack _)|]);
      by rewrite lookup_insert_eq.
Qed.

(** The loop over the products succeeds exactly on a list of objects. *)
Lemma tag_products_objects (paths : list Path) (items : list pyval) :
  ∀ i results, tag_products paths i items = inr results →
               ∃ ds, items = VDict <$> ds.
Proof.
  induction items as [|v items IH]; intros i results; cbn [tag_products].
  - intros _. by exists [].
  - destruct v as [| | | | | |d]; try discriminate.
    destruct (tag_products paths (S i) items) as [e|rest] eqn:Hrest;
      [discriminate|].
    intros _. destruct (IH _ _ Hrest) as [ds ->]. by exists (d :: ds).
Qed.

Lemma fmap_VDict_inj (ds ds' : list (list (string * pyval))) :
  VDict <$> ds = VDict <$> ds' → ds = ds'.
Proof.
  revert ds'. induction ds as [|d ds IH]; intros [|d' ds']; try done.
  cbn. intros [= -> H]. f_equal. by apply IH.
Qed.

Section gemini_client_more.
Variable BATCH_SIZE : Z.
Variable json_loads : string → json_reply.
Variable call_model : nat → list Path → api_reply.
Variable future_repr : nat → string.

Local Abbreviation _parse_gemini_response := (_parse_gemini_response json_loads).
Local Abbreviation attempt := (attempt json_loads call_model).
Local Abbreviation retrying := (retrying json_loads call_model future_repr).
Local Abbreviation _analyze_batch := (_analyze_batch json_loads call_model future_repr).
Local Abbreviation analyze_step :=
  (analyze_step BATCH_SIZE json_loads call_model future_repr).
Local Abbreviation analyze_images :=
  (analyze_images BATCH_SIZE json_loads call_model future_repr).
Local Abbreviation analyze_run :=
  (analyze_run BATCH_SIZE json_loads call_model future_repr).
Local Abbreviation response_items := (response_items json_loads).
Local Abbreviation call_fails := (call_fails call_model).

Lemma analyze_images_run (n : nat) (images : list Path) :
  BATCH_SIZE ≠ 0%Z → analyze_images n images = inr (analyze_run n images).2.
Proof. intros H. unfold GeminiClient.analyze_images. by rewrite decide_False. Qed.

(** The two outcomes of [_parse_gemini_response]. *)
Lemma parse_cases (text : string) (batch : list Path) :
  (∃ ds, response_items text = Some (VDict <$> ds)
         ∧ _parse_gemini_response text batch
           = pad_results batch
               (imap (λ j d, _validate_product_data
                               (tag_product batch j (to_record d))) ds)
         ∧ length (_parse_gemini_response text batch)
           = length batch `max` length ds)
  ∨ ((∀ ds, response_items text ≠ Some (VDict <$> ds))
     ∧ ∃ e, _parse_gemini_response text batch
            = (λ p, _create_error_result p e) <$> batch).
Proof.
  unfold GeminiClient._parse_gemini_response, GeminiClientSpec.response_items.
  destruct (json_loads (strip_fences text)) as [parsed| |e];
    [|right; split; [done|by eexists]..].
  destruct (get_produits parsed) as [e|products];
    [right; split; [done|by eexists]|].
  destruct (iter_items products) as [e|items];
    [right; split; [done|by eexists]|].
  destruct (tag_products batch 0 items) as [e|results] eqn:Ht.
  - right. split; [|by eexists]. intros ds [= ->].
    by rewrite tag_products_dicts in Ht.
  - left. destruct (tag_products_objects _ _ _ _ Ht) as [ds ->].
    rewrite tag_products_dicts in Ht. injection Ht as <-.
    exists ds. split; [done|]. split; [done|].
    unfold pad_results.
    rewrite length_app, length_fmap, length_drop, length_imap. lia.
Qed.

(** X3: a response is used as a whole or not at all.  When it decodes to
    a list of objects only, the result is the validated products, tagged
    by position and padded; in every other case (undecodable text, no
    products, an entry that is not an object) each image of the batch gets
    an error record and no product is kept.  Either way the result has at
    least one record per image of the batch. *)
Theorem parse_all_or_nothing (text : string) (batch : list Path) :
  length batch ≤ length (_parse_gemini_response text batch)
  ∧ ((∃ ds, response_items text = Some (VDict <$> ds)
            ∧ _parse_gemini_response text batch
              = pad_results batch
                  (imap (λ j d, _validate_product_data
                                  (tag_product batch j (to_record d))) ds)
            ∧ length (_parse_gemini_response text batch)
              = length batch `max` length ds)
     ∨ ((∀ ds, response_items text ≠ Some (VDict <$> ds))
        ∧ (∃ e, _parse_gemini_response text batch
                = (λ p, _create_error_result p e) <$> batch)
        ∧ length (_parse_gemini_response text batch) = length batch)).
Proof.
  destruct (parse_cases text batch) as [(ds & H1 & H2 & H3)|(Hno & e & He)].
  - split; [lia|]. left. by exists ds.
  - assert (Hl : length (_parse_gemini_response text batch) = length batch)
      by (by rewrite He, length_fmap).
    split; [lia|]. right. split; [done|]. split; [by exists e|done].
Qed.

(** X4: products returned beyond the images of the batch are kept, each
    under the file name "image_inconnue_" followed by its rank and with an
    empty path. *)
Theorem extra_products_are_kept (text : string) (batch : list Path)
    (ds : list (list (string * pyval))) :
  response_items text = Some (VDict <$> ds) →
  length batch ≤ length ds →
  length (_parse_gemini_response text batch) = length ds
  ∧ ∀ i d, length batch ≤ i → ds !! i = Some d →
      ∃ rec, _parse_gemini_response text batch !! i = Some rec
             ∧ rec !! "nom_fichier"
               = Some (VStr (strip ("image_inconnue_" +:+ pretty (i + 1))))
             ∧ rec !! "chemin_fichier" = Some (VStr "")
             ∧ rec = _validate_product_data
                       (<["chemin_fichier" := VStr ""]>
                          (<["nom_fichier" := VStr ("image_inconnue_"
                                                    +:+ pretty (i + 1))]>
                             (to_record d))).
Proof.
  intros Hitems Hlen.
  destruct (parse_cases text batch) as [(ds' & Hds & Hp & Hl)|[Hno _]];
    [|by destruct (Hno ds)].
  rewrite Hitems in Hds. injection Hds as Heq.
  apply fmap_VDict_inj in Heq. subst ds'.
  split; [lia|]. intros i d Hi Hd. rewrite Hp. unfold pad_results.
  rewrite lookup_app_l by (rewrite length_imap; by eapply lookup_lt_Some).
  rewrite list_lookup_imap, Hd. cbn [fmap option_fmap option_map].
  unfold tag_product. rewrite (lookup_ge_None_2 batch i) by lia.
  eexists. split; [done|]. split; [|split; [|done]].
  - apply validate_meta; [by apply (bool_decide_unpack _)|].
    by rewrite lookup_insert_ne, lookup_insert_eq.
  - change (VStr "") with (VStr (strip "")).
    apply validate_meta; [by apply (bool_decide_unpack _)|].
    by rewrite lookup_insert_eq.
Qed.

(** The retry loop, for any number of further attempts allowed. *)
Lemma retrying_spec (more n : nat) (batch : list Path) :
  let r := retrying more n batch in
  n < r.2 ≤ n + S more
  ∧ (∀ m, n ≤ m → S m < r.2 → call_fails m batch)
  ∧ match r.1 with
    | inr results =>
        ∃ text, call_model (r.2 - 1) batch = ApiText text ∧ text ≠ ""
                ∧ results = _parse_gemini_response text batch
    | inl e =>
        r.2 = n + S more ∧ call_fails (r.2 - 1) batch
        ∧ e = "RetryError[" +:+ future_repr (n + more) +:+ "]"
    end.
Proof.
  revert n. induction more as [|more IH]; intros n;
    cbn [GeminiClient.retrying]; unfold GeminiClient.attempt.
  - assert (Hn : n + 1 - 1 = n) by lia.
    destruct (call_model n batch) as [e|text] eqn:Hc; [|case_decide as Ht];
      cbn [fst snd];
      (split; [lia|]); (split; [intros; lia|]);
      replace (S n - 1) with n by lia.
    + unfold GeminiClientSpec.call_fails. rewrite Hc, Nat.add_0_r.
      split; [lia|]. done.
    + unfold GeminiClientSpec.call_fails. rewrite Hc, Nat.add_0_r.
      split; [lia|]. done.
    + by exists text.
  - assert (Hfail : (∃ e, call_model n batch = ApiRaise e)
                    ∨ call_model n batch = ApiText ""
                    ∨ ∃ text, call_model n batch = ApiText text ∧ text ≠ "").
    { destruct (call_model n batch) as [e|text]; [left; by eexists|].
      destruct (decide (text = "")) as [->|]; [by right; left|].
      right; right. by eexists. }
    destruct Hfail as [[e Hc]|[Hc|(text & Hc & Ht)]]; rewrite Hc.
    + destruct (IH (S n)) as (Hb & Hf & Hr). cbn zeta in *.
      split; [lia|]. split.
      { intros m Hm Hlt. destruct (decide (m = n)) as [->|];
          [unfold GeminiClientSpec.call_fails; by rewrite Hc|].
        apply Hf; lia. }
      destruct (retrying more (S n) batch).1; [|done].
      destruct Hr as (H1 & H2 & H3). split; [lia|]. split; [done|].
      rewrite H3. do 3 f_equal. lia.
    + rewrite decide_True by done.
      destruct (IH (S n)) as (Hb & Hf & Hr). cbn zeta in *.
      split; [lia|]. split.
      { intros m Hm Hlt. destruct (decide (m = n)) as [->|];
          [unfold GeminiClientSpec.call_fails; by rewrite Hc|].
        apply Hf; lia. }
      destruct (retrying more (S n) batch).1; [|done].
      destruct Hr as (H1 & H2 & H3). split; [lia|]. split; [done|].
      rewrite H3. do 3 f_equal. lia.
    + rewrite decide_False by done. cbn [fst snd].
      split; [lia|]. split; [intros; lia|].
      replace (S n - 1) with n by lia. by exists text.
Qed.

(** X5: [_analyze_batch] runs its body (the encoding of the images and
    the call of the model) between one and three times and stops at the
    first run that succeeds: its result is then the parsed text of that
    call, and every earlier run failed; it raises only after three failed
    runs, with the text of a [RetryError] on the third. *)
Theorem analyze_batch_retry (n : nat) (batch : list Path) :
  let r := _analyze_batch n batch in
  n < r.2 ≤ n + 3
  ∧ (∀ m, n ≤ m → S m < r.2 → call_fails m batch)
  ∧ match r.1 with
    | inr results =>
        ∃ text, call_model (r.2 - 1) batch = ApiText text ∧ text ≠ ""
                ∧ results = _parse_gemini_response text batch
    | inl e =>
        r.2 = n + 3 ∧ call_fails (r.2 - 1) batch
        ∧ e = "RetryError[" +:+ future_repr (n + 2) +:+ "]"
    end.
Proof. apply (retrying_spec 2 n batch). Qed.

(** *** The whole run *)

Lemma parse_well_formed (text : string) (batch : list Path) :
  Forall well_formed (_parse_gemini_response text batch).
Proof.
  destruct (parse_cases text batch) as [(ds & _ & -> & _)|[_ [e ->]]].
  - unfold pad_results. apply Forall_app_2.
    + apply (Forall_imap_all well_formed). intros i d.
      apply validated_well_formed.
    + apply (Forall_fmap_all well_formed), empty_result_well_formed.
  - apply (Forall_fmap_all well_formed). intros p. apply error_result_well_formed.
Qed.

Lemma parse_length_ge (text : string) (batch : list Path) :
  length batch ≤ length (_parse_gemini_response text batch).
Proof.
  destruct (parse_cases text batch) as [(ds & _ & _ & ->)|[_ [e ->]]];
    [lia|by rewrite length_fmap].
Qed.

(** One turn of the loop of [analyze_images]: between one and three calls,
    and at least one well-formed record per image of the batch. *)
Lemma analyze_step_spec (images : list Path) (acc : nat * list record) (i : Z) :
  ∃ new, (analyze_step images acc i).2 = acc.2 ++ new
         ∧ Forall well_formed new
         ∧ length (slice images i BATCH_SIZE) ≤ length new
         ∧ acc.1 < (analyze_step images acc i).1 ≤ acc.1 + 3.
Proof.
  unfold GeminiClient.analyze_step.
  pose proof (retrying_spec 2 acc.1 (slice images i BATCH_SIZE)) as Hr.
  cbn zeta in Hr. unfold GeminiClient._analyze_batch.
  change (STOP_AFTER_ATTEMPT - 1) with 2.
  destruct (retrying 2 acc.1 (slice images i BATCH_SIZE)) as [[e|res] n'];
    cbn [fst snd] in *; destruct Hr as (Hb & _ & Hres).
  - eexists. split; [done|]. split; [|split; [by rewrite length_fmap|done]].
    apply (Forall_fmap_all well_formed). intros p. apply error_result_well_formed.
  - destruct Hres as (text & _ & _ & ->). eexists. split; [done|].
    split; [apply parse_well_formed|]. split; [apply parse_length_ge|done].
Qed.

Lemma analyze_fold_spec (images : list Path) (n : nat) (indices : list Z) :
  let r := foldl (analyze_step images) (n, []) indices in
  Forall well_formed r.2
  ∧ n + length indices ≤ r.1 ≤ n + 3 * length indices
  ∧ sum_list_with (λ i, length (slice images i BATCH_SIZE)) indices ≤ length r.2.
Proof.
  induction indices as [|i indices IH] using rev_ind;
    [cbn; split; [constructor|lia]|].
  cbn zeta in *. rewrite foldl_app. cbn [foldl].
  destruct IH as (Hwf & Hcalls & Hlen).
  destruct (analyze_step_spec images (foldl (analyze_step images) (n, []) indices) i)
    as (new & -> & Hnew & Hl & Hc).
  rewrite sum_list_with_app, !length_app.
  cbn [sum_list_with length].
  split; [by apply Forall_app_2|]. split; lia.
Qed.

(** The batches of a positive size cover the images. *)
Lemma batches_cover (images : list Path) (m : nat) :
  (0 < BATCH_SIZE)%Z →
  sum_list_with (λ i, length (slice images i BATCH_SIZE))
                ((λ k, (Z.of_nat k * BATCH_SIZE)%Z) <$> seq 0 m)
  = length (firstn (m * Z.to_nat BATCH_SIZE) images).
Proof.
  intros Hpos. induction m as [|m IH]; [done|].
  rewrite seq_S, fmap_app, sum_list_with_app, IH.
  cbn [fmap list_fmap sum_list_with].
  unfold slice.
  replace (Z.to_nat (Z.of_nat (0 + m) * BATCH_SIZE)) with (m * Z.to_nat BATCH_SIZE)
    by lia.
  replace (S m * Z.to_nat BATCH_SIZE)
    with (m * Z.to_nat BATCH_SIZE + Z.to_nat BATCH_SIZE) by lia.
  rewrite <- (take_take_drop images), length_app. lia.
Qed.

(** X6: whatever the model answers, every record returned by
    [analyze_images] has the seven fields of the schema and the name and
    path of a file, none of them [None]; the call fails only for a batch
    size of zero. *)
Theorem analyze_images_well_formed (n : nat) (images : list Path) :
  match analyze_images n images with
  | inr raw => Forall well_formed raw
  | inl _ => BATCH_SIZE = 0%Z
  end.
Proof.
  unfold GeminiClient.analyze_images. case_decide; [done|].
  apply analyze_fold_spec.
Qed.

(** With a positive batch size the batches cover the images, so the run
    ends with a record for each. *)
Lemma analyze_run_length (n : nat) (images : list Path) :
  (0 < BATCH_SIZE)%Z → length images ≤ length (analyze_run n images).2.
Proof.
  intros Hpos. unfold GeminiClientRest.analyze_run, py_range.
  rewrite (proj2 (Z.ltb_lt 0 BATCH_SIZE) Hpos).
  set (m := Z.to_nat _).
  destruct (analyze_fold_spec images n
              ((λ k, (Z.of_nat k * BATCH_SIZE)%Z) <$> seq 0 m)) as (_ & _ & Hlen).
  rewrite batches_cover in Hlen by done.
  rewrite take_ge in Hlen; [done|]. unfold m.
  pose proof (Z.div_mod (Z.of_nat (length images) + BATCH_SIZE - 1) BATCH_SIZE ltac:(lia)).
  pose proof (Z.mod_pos_bound (Z.of_nat (length images) + BATCH_SIZE - 1) BATCH_SIZE Hpos).
  nia.
Qed.


(** The number of batches of a run: the images divided by the batch size,
    rounded up. *)
Lemma py_range_length (images : list Path) :
  (0 < BATCH_SIZE)%Z →
  Z.of_nat (length (py_range (Z.of_nat (length images)) BATCH_SIZE))
  = ((Z.of_nat (length images) + BATCH_SIZE - 1) / BATCH_SIZE)%Z.
Proof.
  intros Hpos. unfold py_range. rewrite (proj2 (Z.ltb_lt 0 BATCH_SIZE) Hpos).
  rewrite length_fmap, length_seq, Z2Nat.id; [done|].
  apply Z.div_pos; lia.
Qed.

(** X8: the run makes at least one attempt and at most three attempts
    per batch, and with a positive batch size the number of batches is the
    number of images divided by the batch size, rounded up. *)
Theorem analyze_images_call_budget (n : nat) (images : list Path) :
  let batches := length (py_range (Z.of_nat (length images)) BATCH_SIZE) in
  n + batches ≤ (analyze_run n images).1 ≤ n + 3 * batches
  ∧ ((0 < BATCH_SIZE)%Z →
     Z.of_nat batches
     = ((Z.of_nat (length images) + BATCH_SIZE - 1) / BATCH_SIZE)%Z).
Proof.
  cbn zeta. split; [apply analyze_fold_spec|apply py_range_length].
Qed.


End gemini_client_more.

(** *** The MIME type and the fences *)

(** X10: the MIME table has an entry for every supported format, and
    for nothing else: an image accepted by [_is_valid_image] gets the type
    the table gives its extension, any other path gets "image/jpeg", and
    the result is always one of five image types. *)
Theorem mime_type_of_supported (image_path : Path) :
  (_is_valid_image image_path = true →
   (lower (suffix image_path), _get_mime_type image_path) ∈ MIME_TYPES)
  ∧ (_is_valid_image image_path = false →
     _get_mime_type image_path = "image/jpeg")
  ∧ _get_mime_type image_path
    ∈ ["image/jpeg"; "image/png"; "image/webp"; "image/heic"; "image/heif"].
Proof.
  unfold _is_valid_image, _get_mime_type. cbn zeta.
  set (extension := lower (suffix image_path)). clearbody extension.
  destruct (decide (extension ∈ SUPPORTED_IMAGE_FORMATS)) as [Hin|Hout].
  - rewrite bool_decide_eq_true_2 by done.
    split; [|split; [discriminate|]]; [intros _|];
      unfold SUPPORTED_IMAGE_FORMATS in Hin;
      repeat (apply elem_of_cons in Hin as [->|Hin]);
      try (by apply elem_of_nil in Hin);
      apply (bool_decide_unpack _); by vm_compute.
  - rewrite bool_decide_eq_false_2 by done.
    assert (Hnone : (list_to_map MIME_TYPES : gmap string string) !! extension = None)
      by (by apply not_elem_of_list_to_map_1).
    rewrite Hnone. split; [discriminate|]. split; [done|]. by left.
Qed.

Lemma prefix_nil (s : string) : String.prefix "" s = true.
Proof. by destruct s. Qed.

Lemma prefix_rev_app (t a b : string) :
  String.prefix (String.rev_app t a) (String.rev_app t b) = String.prefix a b.
Proof.
  revert a b. induction t as [|c r IH]; intros a b; [done|].
  cbn [String.rev_app]. rewrite IH. cbn [String.prefix].
  by destruct (ascii_dec c c).
Qed.

Lemma endswith_append (s t : string) : endswith t (s +:+ t) = true.
Proof.
  unfold endswith, String.rev. rewrite rev_app_append, prefix_rev_app.
  apply prefix_nil.
Qed.

(** X11: the fences of a response.  A response that is, blanks aside, a
    body between the fences [```json] and [```] is handed to the decoder as
    the stripped body; a response with neither fence is handed over
    stripped; and a response fenced by [```] without the tag [json] keeps
    its opening fence. *)
Theorem fences_removed (response_text body : string) :
  (strip response_text = "```json" +:+ body +:+ "```" →
   strip_fences response_text = strip body)
  ∧ (startswith "```json" (strip response_text) = false →
     endswith "```" (strip response_text) = false →
     strip_fences response_text = strip response_text)
  ∧ (strip response_text = "```" +:+ body +:+ "```" →
     startswith "json" (body +:+ "```") = false →
     strip_fences response_text = "```" +:+ rstrip body).
Proof.
  unfold strip_fences. cbn zeta. split; [|split].
  - intros ->.
    assert (Hs : startswith "```json" ("```json" +:+ body +:+ "```") = true)
      by apply (prefix_nil (body +:+ "```")).
    rewrite Hs.
    change (drop 7 ("```json" +:+ body +:+ "```")) with (body +:+ "```").
    rewrite endswith_append.
    pose proof (drop_end_append body "```") as Hd.
    change (String.length "```") with 3 in Hd. by rewrite Hd.
  - intros -> ->. apply strip_idem.
  - intros -> Hj.
    assert (Hs : startswith "```json" ("```" +:+ body +:+ "```") = false)
      by exact Hj.
    rewrite Hs.
    change ("```" +:+ body +:+ "```") with (("```" +:+ body) +:+ "```").
    rewrite endswith_append.
    pose proof (drop_end_append ("```" +:+ body) "```") as Hd.
    change (String.length "```") with 3 in Hd. rewrite Hd.
    unfold strip.
    change ("```" +:+ body) with (String "`" (String "`" (String "`" body))).
    cbn [lstrip]. change (isspace "`") with false. cbn iota.
    by rewrite !rstrip_cons by done.
Qed.

End GeminiClientMore.
(** ** More on the normalizer *)

Module DataProcessorMore.
Import PyStr PyStrSpec PyStrFacts Settings DataProcessor DataProcessorSpec.
Import DataProcessorFacts.
Import GeminiClient GeminiClientFacts DataProcessorRest PyStrMore.

(** *** The cleaners of one field *)

Lemma clean_kept (class : string → bool) (s : string) :
  (∀ ch, class ch = true → price_char ch = true) →
  let cleaned :=
    if decide (s = NON_DETECTE) then s
    else if decide (keep class s = "") then NON_DETECTE else keep class s in
  cleaned = NON_DETECTE
  ∨ (cleaned = keep class s ∧ keep class s ≠ "" ∧ keep class s ≠ NON_DETECTE
     ∧ keep class (keep class s) = keep class s
     ∧ chars (keep class s) = filter (λ ch, class ch = true) (chars s)).
Proof.
  intros Hclass. cbn zeta. case_decide as H1; [by left|].
  case_decide as H2; [by left|]. right.
  destruct (kept_settled class s Hclass H2) as (_ & _ & Hd & Hk).
  do 4 (split; [done|]). apply keep_chars.
  intros ch Hch. by apply price_char_proper, Hclass.
Qed.



(** *** The keys of a cleaned record *)

(** X14: a cleaned record has the seven keys of the schema, whatever the
    result held, the keys [nom_fichier], [chemin_fichier] and [erreur] that
    the result had, with their values, and no other key. *)
Theorem clean_result_keys (result : record) :
  (∀ k, is_Some (_clean_result result !! k)
        ↔ k ∈ PRODUCT_SCHEMA ∨ (k ∈ META_FIELDS ∧ is_Some (result !! k)))
  ∧ (∀ k, k ∈ META_FIELDS → _clean_result result !! k = result !! k)
  ∧ (∀ k, k ∈ PRODUCT_SCHEMA → result !! k = None →
          _clean_result result !! k = Some (VStr NON_DETECTE)).
Proof.
  split; [|split]; intros k; rewrite clean_result_lookup; unfold cleaned_value.
  - case_decide as Hm.
    + split; [by right|]. intros [Hs|[_ ?]]; [|done].
      by apply meta_not_schema in Hm.
    + case_decide as Hs; [split; [by left|by eexists]|].
      split; [by intros [? ?]|]. by intros [?|[? _]].
  - intros Hm. by rewrite decide_True.
  - intros Hs Hn. rewrite decide_False by (intros Hm; by apply meta_not_schema in Hm).
    rewrite decide_True, Hn by done. cbn [default from_option].
    by rewrite clean_field_sentinel.
Qed.

(** *** The score and the status *)

Lemma count_from_ext {A} (P Q : A → bool) (l : list A) (n : nat) :
  Forall (λ x, P x = Q x) l →
  foldl (λ k x, if P x then S k else k) n l
  = foldl (λ k x, if Q x then S k else k) n l.
Proof.
  revert n. induction l as [|x l IH]; intros n; [done|].
  intros [Hx Hl]%Forall_cons. cbn [foldl]. rewrite Hx. by apply IH.
Qed.

(** The count reads the record at the keys of the schema only. *)
Lemma count_complete_ext (r r' : record) :
  (∀ f, f ∈ PRODUCT_SCHEMA → r !! f = r' !! f) →
  count_complete r = count_complete r'.
Proof.
  intros H. unfold count_complete.
  apply (count_from_ext
           (λ field, is_complete (default (VStr "") (r !! field)))
           (λ field, is_complete (default (VStr "") (r' !! field)))).
  apply Forall_forall. intros f Hf. by rewrite (H f Hf).
Qed.

(** The score of [k] fields out of seven reaches 80 from six fields on. *)
Lemma score_threshold (k : nat) :
  k ≤ 7 →
  (80 <=? float_of_nat k / float_of_nat 7 * 100)%float = true ↔ 6 ≤ k.
Proof.
  intros Hk.
  do 6 (destruct k as [|k]; [vm_compute; split; [discriminate|lia]|]).
  do 2 (destruct k as [|k]; [vm_compute; split; [lia|done]|]). lia.
Qed.

Section more_process_results.
Variable now : nat → string.

Lemma process_one_count (i : nat) (result : record) :
  ∃ score,
    score = (float_of_nat (count_complete (_clean_result result))
             / float_of_nat 7 * 100)%float
    ∧ process_one now i result !! "score_completude" = Some (VFloat score)
    ∧ process_one now i result !! "statut"
      = Some (VStr (if decide (is_Some (result !! "erreur")) then "Erreur"
                    else if (80 <=? score)%float then "Complet" else "Partiel")).
Proof.
  destruct (process_one_score now i result) as (score & Hs & _ & _ & Hst).
  exists score. split; [|done].
  revert Hs. unfold process_one.
  set (c1 := <["date_traitement" := _]> _).
  assert (Hc : _calculate_completeness c1
               = (float_of_nat (count_complete (_clean_result result))
                  / float_of_nat 7 * 100)%float).
  { unfold _calculate_completeness. do 3 f_equal.
    apply count_complete_ext. intros f Hf. unfold c1.
    rewrite !lookup_insert_ne; [done|..]; intros <-;
      revert Hf; apply (bool_decide_unpack _); by vm_compute. }
  rewrite Hc.
  repeat case_match; rewrite ?lookup_insert_ne by discriminate;
    rewrite lookup_insert_eq; by intros [= <-].
Qed.

(** X15: a result is classified "Complet" exactly when it has no key
    [erreur] and at least six of the seven fields of its cleaned record
    are filled; its score is the share of the filled fields, in percent. *)
Theorem complet_from_six_fields (i : nat) (result : record) :
  (process_one now i result !! "statut" = Some (VStr "Complet")
   ↔ result !! "erreur" = None ∧ 6 ≤ count_complete (_clean_result result))
  ∧ process_one now i result !! "score_completude"
    = Some (VFloat (float_of_nat (count_complete (_clean_result result))
                    / float_of_nat 7 * 100)%float).
Proof.
  destruct (process_one_count i result) as (score & -> & Hs & Hst).
  split; [|done]. rewrite Hst.
  pose proof (score_threshold (count_complete (_clean_result result))
                (count_complete_le _)) as Ht.
  destruct (decide (is_Some (result !! "erreur"))) as [He|He].
  - split; [discriminate|]. intros [Hn _]. rewrite Hn in He. by destruct He.
  - apply eq_None_not_Some in He.
    destruct (80 <=? _)%float eqn:H80.
    + split; [|done]. intros _. split; [done|]. by apply Ht.
    + split; [discriminate|]. intros [_ H6]. apply Ht in H6. congruence.
Qed.

(** [count_complete] on a record whose seven fields are known. *)
Lemma count_complete_fields (r : record) (v1 v2 v3 v4 v5 v6 v7 : pyval) :
  r !! "nom_produit" = Some v1 → r !! "description_type" = Some v2 →
  r !! "volume" = Some v3 → r !! "prix_fcfa" = Some v4 →
  r !! "code_barres_ean" = Some v5 → r !! "code_article" = Some v6 →
  r !! "source_information" = Some v7 →
  count_complete r
  = sum_list_with (λ v, Nat.b2n (is_complete v)) [v1; v2; v3; v4; v5; v6; v7].
Proof.
  intros H1 H2 H3 H4 H5 H6 H7. unfold count_complete, PRODUCT_SCHEMA.
  cbn [foldl]. rewrite H1, H2, H3, H4, H5, H6, H7. cbn [default from_option id].
  cbn [sum_list_with].
  destruct (is_complete v1), (is_complete v2), (is_complete v3),
    (is_complete v4), (is_complete v5), (is_complete v6), (is_complete v7);
    reflexivity.
Qed.

Lemma clean_result_schema (result : record) (f : string) :
  f ∈ PRODUCT_SCHEMA →
  _clean_result result !! f
  = Some (clean_field f (default (VStr NON_DETECTE) (result !! f))).
Proof.
  intros Hf. rewrite clean_result_lookup. unfold cleaned_value.
  rewrite decide_False, decide_True; [done..|].
  intros Hm. by apply meta_not_schema in Hm.
Qed.

(** The normalizer adds its four keys beside those of the schema. *)
Lemma process_one_schema (i : nat) (result : record) (f : string) :
  f ∈ PRODUCT_SCHEMA → process_one now i result !! f = _clean_result result !! f.
Proof.
  intros Hf.
  assert (Hne : f ≠ "statut" ∧ f ≠ "score_completude" ∧ f ≠ "date_traitement"
                ∧ f ≠ "numero_sequence").
  { unfold PRODUCT_SCHEMA in Hf.
    repeat (apply elem_of_cons in Hf as [->|Hf]); try (by apply elem_of_nil in Hf);
      repeat split; discriminate. }
  destruct Hne as (H1 & H2 & H3 & H4). unfold process_one.
  repeat case_match; by rewrite !lookup_insert_ne by done.
Qed.

(** The text [source_information] of an error record, once stripped. *)
Lemma strip_erreur (e : string) :
  strip ("Erreur: " +:+ e) = "Erreur:" +:+ rstrip (String " " e).
Proof.
  change ("Erreur: " +:+ e)
    with (String "E" (String "r" (String "r" (String "e" (String "u"
           (String "r" (String ":" (String " " e)))))))).
  unfold strip. cbn [lstrip]. change (isspace "E") with false. cbn iota.
  by rewrite !rstrip_cons by done.
Qed.

Lemma clean_source_erreur (e : string) :
  ∃ s, clean_field "source_information" (VStr ("Erreur: " +:+ e))
       = VStr ("Erreur:" +:+ s).
Proof.
  rewrite clean_field_str, strip_erreur. exists (rstrip (String " " e)).
  rewrite decide_False; [done|].
  change (lower ("Erreur:" +:+ rstrip (String " " e)))
    with ("erreur:" +:+ lower (rstrip (String " " e))).
  unfold NULL_WORDS. intros H.
  repeat (apply elem_of_cons in H as [H|H]; [discriminate H|]).
  by apply elem_of_nil in H.
Qed.

(** X16: the records the classifier builds by itself, once normalized.
    An error record is classified "Erreur", and two of its seven fields
    count as filled (its volume, which cleaning turns to lower case, and
    its [source_information]); the record of an image left without product
    is classified "Partiel", with one field filled ("Non analysé"). *)
Theorem placeholders_classified (i : nat) (p : Path) (e : string) :
  let failed := process_one now i (_create_error_result p e) in
  let unanswered := process_one now i (_create_empty_result p) in
  failed !! "statut" = Some (VStr "Erreur")
  ∧ failed !! "score_completude"
    = Some (VFloat (float_of_nat 2 / float_of_nat 7 * 100)%float)
  ∧ failed !! "volume" = Some (VStr "erreur d'analyse")
  ∧ unanswered !! "statut" = Some (VStr "Partiel")
  ∧ unanswered !! "score_completude"
    = Some (VFloat (float_of_nat 1 / float_of_nat 7 * 100)%float).
Proof.
  cbn zeta.
  assert (Hin : ∀ f, bool_decide (f ∈ PRODUCT_SCHEMA) = true → f ∈ PRODUCT_SCHEMA)
    by (intros f; apply bool_decide_eq_true_1).
  destruct (error_result_lookups p e) as (_ & _ & Hsrc & Herr).
  destruct (empty_result_lookups p) as (_ & _ & Hsrc' & Herr').
  destruct (clean_source_erreur e) as [s Hs].
  assert (Hfailed : count_complete (_clean_result (_create_error_result p e)) = 2).
  { rewrite (count_complete_fields _
               (VStr ERREUR_ANALYSE) (VStr ERREUR_ANALYSE)
               (VStr "erreur d'analyse") (VStr NON_DETECTE) (VStr NON_DETECTE)
               (VStr ERREUR_ANALYSE) (VStr ("Erreur:" +:+ s)));
      [reflexivity|..];
      (rewrite clean_result_schema by (by apply Hin));
      [rewrite error_result_schema by (by (apply Hin) || done);
       by vm_compute..|].
    rewrite Hsrc. exact (f_equal Some Hs). }
  assert (Hempty : count_complete (_clean_result (_create_empty_result p)) = 1).
  { rewrite (count_complete_fields _
               (VStr NON_DETECTE) (VStr NON_DETECTE) (VStr NON_DETECTE)
               (VStr NON_DETECTE) (VStr NON_DETECTE) (VStr NON_DETECTE)
               (VStr NON_ANALYSE));
      [reflexivity|..];
      (rewrite clean_result_schema by (by apply Hin));
      [rewrite empty_result_schema by (by (apply Hin) || done);
       apply (f_equal Some), clean_field_sentinel..|].
    rewrite Hsrc'. reflexivity. }
  destruct (process_one_count i (_create_error_result p e)) as (sc & -> & H1 & H2).
  destruct (process_one_count i (_create_empty_result p)) as (sc' & -> & H3 & H4).
  rewrite Hfailed in *. rewrite Hempty in *.
  rewrite H1, H2, H3, H4, Herr, Herr'.
  rewrite decide_True by by eexists.
  rewrite decide_False by by intros [? ?].
  split; [reflexivity|]. split; [reflexivity|].
  split; [|split; [by vm_compute|reflexivity]].
  rewrite process_one_schema by (by apply Hin).
  rewrite clean_result_schema by (by apply Hin).
  rewrite error_result_schema by (by (apply Hin) || done). by vm_compute.
Qed.

(** *** The list returned and the counters *)

Lemma process_one_date (i : nat) (result : record) :
  process_one now i result !! "date_traitement" = Some (VStr (now i)).
Proof.
  unfold process_one.
  repeat case_match; rewrite !lookup_insert_ne by discriminate;
    by rewrite lookup_insert_eq.
Qed.

(** X17: [process_results] returns one record per result, in the order of
    the results: the record at a position carries its rank counted from 1,
    the reading of the clock, and the file name, the path and the error of
    the result at that position. *)
Theorem process_results_keeps_order (raw_results : list record) :
  let out := (process_results now raw_results).1 in
  length out = length raw_results
  ∧ ∀ i result, raw_results !! i = Some result →
      ∃ o, out !! i = Some o
           ∧ o !! "numero_sequence" = Some (VInt (Z.of_nat (S i)))
           ∧ o !! "date_traitement" = Some (VStr (now (S i)))
           ∧ ∀ k, k ∈ META_FIELDS → o !! k = result !! k.
Proof.
  cbn zeta. rewrite process_results_records. split; [by rewrite length_imap|].
  intros i result Hi. eexists. rewrite list_lookup_imap, Hi. split; [done|].
  split; [apply process_one_numero|]. split; [apply process_one_date|].
  intros k Hk. by apply process_one_meta.
Qed.

Lemma count_statut_cons (s : string) (v : pyval) (statuts : list pyval) :
  count_statut s (v :: statuts)
  = Nat.b2n (is_str s v) + count_statut s statuts.
Proof.
  unfold count_statut. rewrite filter_cons.
  destruct (is_str s v); [by rewrite decide_True|by rewrite decide_False].
Qed.

Lemma process_results_stats_from (l : list record) (a : nat)
    (acc : list record * stats) :
  let step := λ (acc : list record * stats) (item : nat * record),
                let processed := process_one now item.1 item.2 in
                (acc.1 ++ [processed], count_one acc.2 processed) in
  let r := foldl step acc (zip (seq a (length l)) l) in
  let new := statut_of <$> imap (λ i result, process_one now (a + i) result) l in
  total r.2 = total acc.2
  ∧ valides r.2 = valides acc.2 + count_statut "Complet" new
  ∧ partiels r.2 = partiels acc.2 + count_statut "Partiel" new
  ∧ erreurs r.2 = erreurs acc.2 + count_statut "Erreur" new
  ∧ count_statut "Complet" new + count_statut "Partiel" new
    + count_statut "Erreur" new = length l.
Proof.
  cbn zeta. revert a acc. induction l as [|r l IH]; intros a acc.
  - cbn. unfold count_statut. cbn. lia.
  - cbn [length seq zip zip_with foldl imap fmap list_fmap].
    destruct (IH (S a) (acc.1 ++ [process_one now a r],
                        count_one acc.2 (process_one now a r)))
      as (Ht & Hv & Hp & He & Hsum).
    cbn [fst snd] in *.
    rewrite !count_statut_cons.
    assert (Hext : imap (λ i result, process_one now (S a + i) result) l
                   = imap ((λ i result, process_one now (a + i) result) ∘ S) l).
    { apply imap_ext. intros j x _. cbn. f_equal. lia. }
    rewrite Hext in *. rewrite Ht, Hv, Hp, He. clear Ht Hv Hp He Hext IH.
    rewrite Nat.add_0_r.
    set (rest := statut_of <$> imap _ l) in *. clearbody rest.
    destruct (process_one_score now a r) as (sc & _ & _ & _ & Hst).
    unfold count_one, statut_of. rewrite Hst. cbn [default from_option].
    destruct (decide (is_Some (r !! "erreur")));
      [|destruct (80 <=? sc)%float]; cbn; lia.
Qed.

(** X18: the counters of [process_results] add up: [total] is the number
    of results, each of the three others is the number of records returned
    with the matching status, and together they make [total]. *)
Theorem process_results_counters (raw_results : list record) :
  let r := process_results now raw_results in
  let statuts := statut_of <$> r.1 in
  total r.2 = length raw_results
  ∧ valides r.2 = count_statut "Complet" statuts
  ∧ partiels r.2 = count_statut "Partiel" statuts
  ∧ erreurs r.2 = count_statut "Erreur" statuts
  ∧ valides r.2 + partiels r.2 + erreurs r.2 = total r.2.
Proof.
  cbn zeta. rewrite process_results_records. unfold process_results.
  destruct (process_results_stats_from raw_results 1
              ([], {| total := length raw_results; valides := 0;
                      erreurs := 0; partiels := 0 |}))
    as (Ht & Hv & Hp & He & Hsum).
  cbn [fst snd total valides partiels erreurs] in *.
  rewrite Ht, Hv, Hp, He. cbn [Nat.add] in *. repeat split; lia.
Qed.

(** *** The summary report *)

Variable mean : list pyval → float.
Variable today : string.

Lemma count_statut_le (statuts : list pyval) :
  count_statut "Complet" statuts + count_statut "Partiel" statuts
  + count_statut "Erreur" statuts ≤ length statuts.
Proof.
  induction statuts as [|v statuts IH]; [done|].
  rewrite !count_statut_cons. cbn [length].
  assert (Nat.b2n (is_str "Complet" v) + Nat.b2n (is_str "Partiel" v)
          + Nat.b2n (is_str "Erreur" v) ≤ 1); [|lia].
  destruct v as [| | | |s| |]; cbn [is_str Nat.b2n]; try lia.
  destruct (String.eqb_spec s "Complet") as [->|_]; [cbn; lia|].
  destruct (String.eqb_spec s "Partiel") as [->|_]; [cbn; lia|].
  destruct (s =? "Erreur")%string; cbn; lia.
Qed.

(** X19: [generate_summary_report] answers an empty list with its error
    message and nothing else with it.  For any other list the report
    counts every record in [total_images], whatever its status, and the
    three counts by status never exceed that total; the mean score is the
    integer 0 when no record has a numeric score. *)
Theorem summary_report_counts (processed_data : list record) :
  match generate_summary_report mean today processed_data with
  | inl e => processed_data = [] ∧ e = "Aucune donnée à analyser"
  | inr rep =>
      processed_data ≠ []
      ∧ total_images rep = length processed_data
      ∧ images_completes rep + images_partielles rep + images_erreur rep
        ≤ total_images rep
      ∧ date_traitement rep = today
      ∧ ((∀ item, item ∈ processed_data →
            ∀ v, item !! "score_completude" = Some v → is_number v = false) →
         score_moyen rep = VInt 0)
  end.
Proof.
  unfold generate_summary_report. case_decide as Hn.
  - split; [|done]. by apply length_zero_iff_nil.
  - cbn [total_images images_completes images_partielles images_erreur
         date_traitement score_moyen].
    split; [by intros ->|]. split; [done|].
    split; [etrans; [apply count_statut_le|by rewrite length_fmap]|].
    split; [done|]. intros Hno.
    set (pick := λ item : record, _).
    assert (Hnone : omap pick processed_data = []); [|by rewrite Hnone].
    clear Hn. induction processed_data as [|item rest IH]; [done|].
    cbn [omap list_omap].
    assert (Hp : pick item = None).
    { unfold pick. destruct (item !! "score_completude") as [v|] eqn:Hv; [|done].
      rewrite (Hno item (ltac:(left)) v Hv). done. }
    rewrite Hp. apply IH. intros it Hit. apply Hno. by right.
Qed.

Lemma omap_all_some {A B} (f : A → option B) (g : A → B) (l : list A) :
  Forall (λ x, f x = Some (g x)) l → omap f l = g <$> l.
Proof.
  induction 1 as [|x l Hx _ IH]; [done|].
  cbn [omap list_omap fmap list_fmap]. rewrite Hx. cbn. by f_equal.
Qed.

(** X20: the report built from the records of [process_results] agrees
    with the counters of that run: the same total, the same number of
    complete, partial and failed records, which together make the total,
    and a mean taken over the score of every record. *)
Theorem summary_agrees_with_counters (raw_results : list record) :
  let r := process_results now raw_results in
  match generate_summary_report mean today r.1 with
  | inl _ => raw_results = []
  | inr rep =>
      total_images rep = total r.2
      ∧ images_completes rep = valides r.2
      ∧ images_partielles rep = partiels r.2
      ∧ images_erreur rep = erreurs r.2
      ∧ images_completes rep + images_partielles rep + images_erreur rep
        = total_images rep
      ∧ score_moyen rep
        = VFloat (mean ((λ o, default (VInt 0) (o !! "score_completude")) <$> r.1))
  end.
Proof.
  cbn zeta.
  destruct (process_results_stats_from raw_results 1
              ([], {| total := length raw_results; valides := 0;
                      erreurs := 0; partiels := 0 |}))
    as (Ht & Hv & Hp & He & Hsum).
  cbn [fst snd total valides partiels erreurs Nat.add] in *.
  fold (process_results now raw_results) in Ht, Hv, Hp, He.
  assert (Hlen : length (process_results now raw_results).1 = length raw_results)
    by (by rewrite process_results_records, length_imap).
  unfold generate_summary_report. rewrite Hlen. case_decide as Hn.
  { by apply length_zero_iff_nil. }
  cbn [total_images images_completes images_partielles images_erreur score_moyen].
  rewrite Ht, Hv, Hp, He, <- process_results_records.
  rewrite <- process_results_records in Hsum.
  split; [done|]. split; [done|]. split; [done|]. split; [done|].
  split; [lia|].
  set (pick := λ item : record, _).
  rewrite (omap_all_some pick
             (λ o, default (VInt 0) (o !! "score_completude"))).
  - destruct raw_results as [|x xs]; [done|].
    rewrite process_results_records. done.
  - rewrite process_results_records. apply Forall_forall.
    intros o (j & x & -> & _)%elem_of_lookup_imap.
    destruct (process_one_score now (S j) x) as (sc & Hsc & _).
    unfold pick. by rewrite Hsc.
Qed.

End more_process_results.

End DataProcessorMore.
(** ** More on the image processor *)

Module ImageProcessorMore.
Import FileManager ImageProcessor ImageProcessorSpec ImageProcessorFacts.
Import ImageProcessorRest.

Section image_processor_more.
Variable MAX_IMAGE_SIZE_MB : float.
Variable COMPRESSION_QUALITY : Z.
Variable PROCESSED_DIR : string.
Variable image : Type.
Variable prepare : list Byte.byte → option image.
Variable encode_jpeg : image → Z → list Byte.byte.
Variable format_float : float → string.
Variable verify : list Byte.byte → bool.

Local Abbreviation attempts_made := (attempts_made MAX_IMAGE_SIZE_MB image encode_jpeg).
Local Abbreviation compress_attempts :=
  (compress_attempts MAX_IMAGE_SIZE_MB image encode_jpeg format_float).
Local Abbreviation _compress_image :=
  (_compress_image MAX_IMAGE_SIZE_MB COMPRESSION_QUALITY image prepare encode_jpeg format_float).
Local Abbreviation _process_single_image :=
  (_process_single_image MAX_IMAGE_SIZE_MB COMPRESSION_QUALITY PROCESSED_DIR
     image prepare encode_jpeg format_float).
Local Abbreviation process_batch :=
  (process_batch MAX_IMAGE_SIZE_MB COMPRESSION_QUALITY PROCESSED_DIR
     image prepare encode_jpeg format_float).
Local Abbreviation validate_one := (validate_one MAX_IMAGE_SIZE_MB verify format_float).
Local Abbreviation validate_processed_images :=
  (validate_processed_images MAX_IMAGE_SIZE_MB verify format_float).
Local Abbreviation is_valid_file := (is_valid_file MAX_IMAGE_SIZE_MB verify).

(** The path under which an image is processed. *)
Local Abbreviation output_of image_path :=
  (path_join PROCESSED_DIR (name image_path)).

(** *** One image *)

(** What [_compress_image] does to the files. *)
Lemma compress_image_files (input_path output_path : Path) (w : world) :
  let r := _compress_image input_path output_path w in
  match r.1 with
  | inr out =>
      out = output_path
      ∧ is_Some (fs w !! path_str input_path)
      ∧ ∃ content, fs r.2 = <[path_str output_path := content]> (fs w)
  | inl _ => fs r.2 = fs w
  end.
Proof.
  cbn zeta. unfold ImageProcessor._compress_image.
  destruct (fs w !! path_str input_path) as [content|] eqn:Hfile; [|done].
  destruct (prepare content) as [img|]; [|done]. cbn [fst snd].
  split; [done|]. split; [by eexists|].
  destruct (compress_attempts_spec MAX_IMAGE_SIZE_MB image encode_jpeg format_float
              (name input_path) img output_path 5 0
              COMPRESSION_QUALITY w eq_refl) as (events & _ & _ & _ & Hfs).
  rewrite Hfs.
  destruct (attempts_made_bounds MAX_IMAGE_SIZE_MB image encode_jpeg
              img 5 COMPRESSION_QUALITY) as [_ Hpos].
  specialize (Hpos ltac:(lia)).
  destruct (last _) as [ql|] eqn:Hl; [by eexists|].
  apply last_None in Hl. apply (f_equal length) in Hl.
  rewrite schedule_length in Hl. cbn [length] in Hl. lia.
Qed.

(** What [_process_single_image] does to the files. *)
Lemma single_image_files (image_path : Path) (w : world) :
  let r := _process_single_image image_path w in
  match r.1 with
  | inr out =>
      out = output_of image_path
      ∧ is_Some (fs w !! path_str image_path)
      ∧ ∃ content, fs r.2 = <[path_str (output_of image_path) := content]> (fs w)
  | inl _ => fs r.2 = fs w
  end.
Proof.
  cbn zeta. unfold ImageProcessor._process_single_image.
  destruct (_ <=? _)%float.
  - unfold pass_through, copy2. cbn [add_log fs log].
    destruct (fs w !! path_str image_path) as [content|] eqn:Hfile; [|done].
    case_decide; [done|]. cbn [fst snd fs]. split; [done|]. split; [done|].
    by eexists.
  - set (w1 := add_log w _).
    pose proof (compress_image_files image_path (output_of image_path) w1) as Hc.
    cbn zeta in Hc.
    destruct (_compress_image image_path (output_of image_path) w1) as [[e|out] w2];
      cbn [fst snd] in *; [done|].
    destruct Hc as (-> & Hin & content & Hfs). split; [done|]. split; [done|].
    by exists content.
Qed.

Lemma process_single_image_files_aux (image_path : Path) (w : world) :
  let r := _process_single_image image_path w in
  (∀ k, k ≠ path_str (output_of image_path) → fs r.2 !! k = fs w !! k)
  ∧ (∀ k, is_Some (fs w !! k) → is_Some (fs r.2 !! k))
  ∧ match r.1 with
    | inr out =>
        out = output_of image_path
        ∧ is_Some (fs r.2 !! path_str out)
        ∧ is_Some (fs w !! path_str image_path)
    | inl _ => fs r.2 = fs w
    end.
Proof.
  cbn zeta. pose proof (single_image_files image_path w) as H. cbn zeta in H.
  destruct (_process_single_image image_path w) as [[e|out] w'];
    cbn [fst snd] in *.
  - by rewrite H.
  - destruct H as (-> & Hin & content & ->).
    split; [intros k Hk; by rewrite lookup_insert_ne|].
    split; [|by rewrite lookup_insert_eq].
    intros k Hk. destruct (decide (k = path_str (output_of image_path))) as [->|];
      [by rewrite lookup_insert_eq|by rewrite lookup_insert_ne].
Qed.

(** X21: [_process_single_image] writes at most one file, the one named
    as the image in the directory of the processed images, and deletes
    none.  When it returns, it returns that path, the file is there and the
    image existed; when it raises, the files are as they were. *)
Theorem process_single_image_files (image_path : Path) (w : world) :
  let r := _process_single_image image_path w in
  (∀ k, k ≠ path_str (output_of image_path) → fs r.2 !! k = fs w !! k)
  ∧ (∀ k, is_Some (fs w !! k) → is_Some (fs r.2 !! k))
  ∧ match r.1 with
    | inr out =>
        out = output_of image_path
        ∧ is_Some (fs r.2 !! path_str out)
        ∧ is_Some (fs w !! path_str image_path)
    | inl _ => fs r.2 = fs w
    end.
Proof. exact (process_single_image_files_aux image_path w). Qed.

(** *** A batch *)

(** The body of the loop of [process_batch]. *)
Local Abbreviation batch_step := (λ (total_images : nat)
    (acc : list Path * world) (item : nat * Path),
  let image_path := item.2 in
  let w := add_log acc.2
             (LogInfo ("Traitement image " +:+ pretty item.1 +:+ "/"
                       +:+ pretty total_images +:+ ": " +:+ name image_path)) in
  match _process_single_image image_path w with
  | (inr processed_path, w) => (acc.1 ++ [processed_path], w)
  | (inl _, w) =>
      (acc.1, add_log w (LogError ("Erreur lors du traitement de "
                                   +:+ name image_path)))
  end).

Lemma batch_step_files (total_images : nat) (acc : list Path * world)
    (item : nat * Path) :
  let r := batch_step total_images acc item in
  ∃ new,
    r.1 = acc.1 ++ new
    ∧ new `sublist_of` [output_of item.2]
    ∧ Forall (λ out, is_Some (fs r.2 !! path_str out)) new
    ∧ (∀ k, is_Some (fs acc.2 !! k) → is_Some (fs r.2 !! k))
    ∧ (∀ k, k ≠ path_str (output_of item.2) → fs r.2 !! k = fs acc.2 !! k).
Proof.
  cbn zeta beta.
  match goal with
  | |- context [ImageProcessor._process_single_image _ _ _ _ _ _ _ ?p ?w0] =>
      pose proof (process_single_image_files_aux p w0) as Hs; cbn zeta in Hs;
      destruct (_process_single_image p w0) as [[e|out] w1]
  end; cbn [fst snd add_log fs] in *.
  - destruct Hs as (Hs1 & Hs2 & Hs3). exists []. rewrite app_nil_r, Hs3.
    split; [done|]. split; [by apply sublist_cons|]. split; [constructor|]. done.
  - destruct Hs as (Hs1 & Hs2 & -> & Hs3 & Hs4). exists [output_of item.2].
    split; [done|]. split; [done|]. split; [by constructor|]. done.
Qed.

(** A loop whose every turn adds at most the processed path of its image
    and keeps the files. *)
Lemma fold_files (step : list Path * world → nat * Path → list Path * world)
    (items : list (nat * Path)) (acc : list Path * world) :
  (∀ acc item, ∃ new,
     (step acc item).1 = acc.1 ++ new
     ∧ new `sublist_of` [output_of item.2]
     ∧ Forall (λ out, is_Some (fs (step acc item).2 !! path_str out)) new
     ∧ (∀ k, is_Some (fs acc.2 !! k) → is_Some (fs (step acc item).2 !! k))
     ∧ (∀ k, k ≠ path_str (output_of item.2) →
             fs (step acc item).2 !! k = fs acc.2 !! k)) →
  let r := foldl step acc items in
  ∃ new,
    r.1 = acc.1 ++ new
    ∧ new `sublist_of` ((λ image_path, output_of image_path) <$> items.*2)
    ∧ Forall (λ out, is_Some (fs r.2 !! path_str out)) new
    ∧ (∀ k, is_Some (fs acc.2 !! k) → is_Some (fs r.2 !! k))
    ∧ (∀ k, k ∉ path_str <$> ((λ image_path, output_of image_path) <$> items.*2) →
            fs r.2 !! k = fs acc.2 !! k).
Proof.
  intros Hstep. cbn zeta. revert acc.
  induction items as [|item items IH]; intros acc.
  - exists []. cbn [foldl]. rewrite app_nil_r.
    split; [done|]. split; [done|]. split; [constructor|]. done.
  - cbn [foldl].
    destruct (Hstep acc item) as (new1 & Hr1 & Hsub1 & Hex1 & Hmono1 & Hkeep1).
    destruct (IH (step acc item)) as (new & Hr & Hsub & Hex & Hmono & Hkeep).
    clear IH. exists (new1 ++ new). rewrite Hr, Hr1, <- app_assoc.
    split; [done|].
    split; [rewrite !fmap_cons; by apply (sublist_app _ [_])|].
    split; [apply Forall_app_2; [|done];
            eapply Forall_impl; [exact Hex1|]; intros o Ho; by apply Hmono|].
    split; [intros k Hk; by apply Hmono, Hmono1|].
    intros k Hk. rewrite !fmap_cons in Hk.
    apply not_elem_of_cons in Hk as [Hne Hk].
    rewrite Hkeep by done. by apply Hkeep1.
Qed.


(** *** The validation *)

Lemma errors_app (l1 l2 : list event) : errors (l1 ++ l2) = errors l1 ++ errors l2.
Proof. unfold errors. apply omap_app. Qed.

Lemma validate_loop (files_now : files) (image_paths : list Path)
    (acc : list Path * list event) :
  let r := foldl (validate_one files_now) acc image_paths in
  r.1 = acc.1 ++ filter (is_valid_file files_now) image_paths
  ∧ ∃ events,
      r.2 = acc.2 ++ events
      ∧ saved_qualities events = []
      ∧ length (warnings events) + length (errors events)
        + length (filter (is_valid_file files_now) image_paths)
        = length image_paths.
Proof.
  cbn zeta. revert acc. induction image_paths as [|p rest IH]; intros acc.
  - cbn [foldl]. rewrite filter_nil, app_nil_r. split; [done|].
    exists []. by rewrite app_nil_r.
  - cbn [foldl]. destruct (IH (validate_one files_now acc p))
      as (H1 & events & H2 & Hq & Hn).
    rewrite H1, H2. clear IH H1 H2. rewrite filter_cons.
    unfold ImageProcessorRest.validate_one.
    destruct (decide (is_valid_file files_now p)) as [Hv|Hv].
    + destruct Hv as (Hs & content & Hc & Hok). rewrite Hs, Hc, Hok.
      cbn [fst snd length]. split; [by rewrite <- app_assoc|].
      exists events. split; [done|]. split; [done|]. lia.
    + assert (Hcases :
        (MAX_IMAGE_SIZE_MB <? get_file_size_mb files_now p)%float = true
        ∨ (MAX_IMAGE_SIZE_MB <? get_file_size_mb files_now p)%float = false
          ∧ (files_now !! path_str p = None
             ∨ ∃ content, files_now !! path_str p = Some content
                          ∧ verify content = false)).
      { destruct (_ <? _)%float eqn:Hs; [by left|]. right. split; [done|].
        destruct (files_now !! path_str p) as [content|] eqn:Hc; [|by left].
        right. exists content. split; [done|].
        destruct (verify content) eqn:Hok; [|done].
        destruct Hv. split; [done|]. by exists content. }
      destruct Hcases as [Hs|[Hs [Hc|(content & Hc & Hok)]]];
        rewrite Hs, ?Hc, ?Hok; cbn [fst snd];
        (split; [done|]); eexists (_ :: events);
        (split; [by rewrite <- app_assoc|]);
        (split; [done|]); cbn [warnings errors omap list_omap length];
        fold (warnings events); fold (errors events); lia.
Qed.

(** X23: [validate_processed_images] returns, in their order, the images
    whose file exists, is not over the size limit and is accepted by the
    codec.  It changes no file and asks no encoding, and it logs one
    warning or one error for each image it leaves out. *)
Theorem validate_processed_images_filter (image_paths : list Path) (w : world) :
  let r := validate_processed_images image_paths w in
  r.1 = filter (is_valid_file (fs w)) image_paths
  ∧ fs r.2 = fs w
  ∧ ∃ events,
      log r.2 = log w ++ events
      ∧ saved_qualities events = []
      ∧ length (warnings events) + length (errors events) + length r.1
        = length image_paths.
Proof.
  cbn zeta. unfold ImageProcessorRest.validate_processed_images.
  destruct (validate_loop (fs w) image_paths ([], []))
    as (H1 & events & H2 & Hq & Hn).
  cbn zeta in *. cbn [fst snd fs log app] in *. rewrite H1, H2.
  split; [done|]. split; [done|].
  eexists. split; [done|].
  rewrite saved_qualities_app, warnings_app, errors_app, !length_app, Hq.
  split; [done|]. cbn. lia.
Qed.

End image_processor_more.

End ImageProcessorMore.
(** ** More on the file manager *)

Module FileManagerMore.
Import PyStr PyStrFacts PyStrMore FileManager FileManagerRest.

Lemma append_inj_l (a s s' : string) : a +:+ s = a +:+ s' → s = s'.
Proof.
  induction a as [|c a IH]; [done|]. rewrite !append_cons. intros [= H]. auto.
Qed.

Lemma append_inj_r (s s' b : string) : s +:+ b = s' +:+ b → s = s'.
Proof.
  revert s'. induction s as [|c r IH]; intros [|c' r'] H; [done|..].
  - apply (f_equal String.length) in H.
    rewrite append_nil, append_cons in H. cbn [String.length] in H.
    rewrite length_append in H. lia.
  - apply (f_equal String.length) in H.
    rewrite append_nil, append_cons in H. cbn [String.length] in H.
    rewrite length_append in H. lia.
  - rewrite !append_cons in H. injection H as -> H. f_equal. by apply IH.
Qed.

(** Two counters give two destinations. *)
Lemma numbered_inj (processed_dir : string) (image_path : Path) :
  Inj (=) (=) (λ counter, path_str (numbered processed_dir image_path counter)).
Proof.
  intros k k'. unfold numbered, path_str, path_join. cbn [parent name].
  intros H. do 4 apply append_inj_l in H. apply append_inj_r in H.
  by apply (inj pretty).
Qed.

Section move.
Variable processed_dir : string.
Variable image_path : Path.
Variable files_now : files.

Local Abbreviation numbered := (numbered processed_dir image_path).

(** The loop gives up only if every destination it tried exists. *)
Lemma free_destination_none (fuel : nat) (destination : Path) (counter : nat) :
  free_destination fuel files_now processed_dir image_path destination counter = None →
  is_Some (files_now !! path_str destination)
  ∧ ∀ k, counter ≤ k < counter + fuel →
         is_Some (files_now !! path_str (numbered k)).
Proof.
  revert destination counter.
  induction fuel as [|fuel IH]; intros destination counter;
    cbn [FileManagerRest.free_destination];
    destruct (files_now !! path_str destination) as [content|] eqn:Hd;
    try discriminate.
  - intros _. split; [by eexists|]. lia.
  - intros H. apply IH in H as [H0 H]. split; [by eexists|].
    intros k Hk. destruct (decide (k = counter)) as [->|]; [done|].
    apply H. lia.
Qed.

(** The destination found is free, and it is the first one that is. *)
Lemma free_destination_some (fuel : nat) (destination : Path) (counter : nat)
    (found : Path) :
  free_destination fuel files_now processed_dir image_path destination counter = Some found →
  files_now !! path_str found = None
  ∧ (found = destination
     ∨ ∃ k, counter ≤ k ∧ found = numbered k
            ∧ is_Some (files_now !! path_str destination)
            ∧ ∀ j, counter ≤ j < k →
                   is_Some (files_now !! path_str (numbered j))).
Proof.
  revert destination counter.
  induction fuel as [|fuel IH]; intros destination counter;
    cbn [FileManagerRest.free_destination];
    destruct (files_now !! path_str destination) as [content|] eqn:Hd;
    try discriminate; try (intros [= <-]; split; [done|by left]).
  intros H. apply IH in H as [Hfree [->|(k & Hk & -> & Hex & Hall)]].
  - split; [done|]. right. exists counter. split; [done|]. split; [done|].
    split; [by eexists|]. lia.
  - split; [done|]. right. exists k. split; [lia|]. split; [done|].
    split; [by eexists|]. intros j Hj.
    destruct (decide (j = counter)) as [->|]; [done|]. apply Hall. lia.
Qed.

(** With more fuel than there are files the loop finds a destination. *)
Lemma free_destination_total (fuel : nat) (destination : Path) (counter : nat) :
  size files_now < fuel →
  is_Some (free_destination fuel files_now processed_dir image_path destination counter).
Proof.
  intros Hfuel.
  destruct (free_destination fuel files_now processed_dir image_path destination counter) as [found|] eqn:H;
    [by eexists|].
  apply free_destination_none in H as [_ H].
  set (tried := (λ k, path_str (numbered k)) <$> seq counter fuel).
  assert (Hnodup : NoDup tried).
  { apply (@NoDup_fmap_2 _ _ _ (numbered_inj processed_dir image_path)),
      NoDup_seq. }
  assert (Hsub : (list_to_set tried : gset string) ⊆ dom files_now).
  { intros x Hx. apply elem_of_list_to_set in Hx.
    apply list_elem_of_fmap in Hx as (k & -> & Hk).
    apply elem_of_seq in Hk. apply elem_of_dom, H. lia. }
  apply subseteq_size in Hsub.
  rewrite size_list_to_set, size_dom in Hsub by done.
  unfold tried in Hsub. rewrite length_fmap, length_seq in Hsub. lia.
Qed.

End move.

(** X24: [move_to_processed] always ends.  It raises only when the image
    does not exist, and then changes nothing.  Otherwise the file is moved
    to a path of the directory that was free, so no file is overwritten:
    the path named as the image, or else the first of the numbered names
    [stem_1suffix], [stem_2suffix], ... that was free; the image is gone
    from its place and every other file is as it was. *)
Theorem move_to_processed_fresh (processed_dir : string) (image_path : Path)
    (w : world) :
  ∃ r, move_to_processed processed_dir image_path w = Some r
    ∧ match r.1 with
      | inr destination =>
          ∃ content,
            fs w !! path_str image_path = Some content
            ∧ fs w !! path_str destination = None
            ∧ fs r.2 = <[path_str destination := content]>
                         (delete (path_str image_path) (fs w))
            ∧ fs r.2 !! path_str destination = Some content
            ∧ fs r.2 !! path_str image_path = None
            ∧ (destination = path_join processed_dir (name image_path)
               ∨ ∃ k, 1 ≤ k
                      ∧ destination = numbered processed_dir image_path k
                      ∧ is_Some (fs w !! path_str (path_join processed_dir
                                                     (name image_path)))
                      ∧ ∀ j, 1 ≤ j < k →
                             is_Some (fs w !! path_str
                                        (numbered processed_dir image_path j)))
      | inl e =>
          fs w !! path_str image_path = None ∧ r.2 = w
          ∧ e = FileNotFoundError (path_str image_path)
      end.
Proof.
  unfold move_to_processed.
  destruct (free_destination_total processed_dir image_path (fs w)
              (S (size (fs w))) (path_join processed_dir (name image_path)) 1)
    as [found Hfound]; [lia|].
  rewrite Hfound.
  apply free_destination_some in Hfound as [Hfree Hwhich].
  unfold move.
  destruct (fs w !! path_str image_path) as [content|] eqn:Hsrc.
  - eexists. split; [done|]. cbn [fst snd fs]. exists content.
    assert (Hne : path_str found ≠ path_str image_path) by congruence.
    split; [done|]. split; [done|]. split; [done|].
    split; [by rewrite lookup_insert_eq|].
    split; [by rewrite lookup_insert_ne, lookup_delete_eq|]. done.
  - eexists. split; [done|]. done.
Qed.

End FileManagerMore.
(** ** The analysis and the summary in [main] *)

Module MainMore.
Import GeminiClient GeminiClientRest GeminiClientMore.
Import DataProcessor DataProcessorFacts DataProcessorRest DataProcessorMore Main.

Section main_more.
Variable BATCH_SIZE : Z.
Variable json_loads : string → json_reply.
Variable call_model : nat → list Path → api_reply.
Variable future_repr : nat → string.
Variable now : nat → string.
Variable mean : list pyval → float.
Variable today : string.

(** X25: with a positive batch size and at least one image, steps 5 and 6
    of [main] never end with the exit code 1, whatever the model answers,
    even if every call fails: they reach step 7 with at least one row per
    image and with a summary that is a report, not the error message, whose
    total is the number of rows and whose three counts by status make that
    total. *)
Theorem analysis_always_reports (n : nat) (valid_images : list Path) :
  (0 < BATCH_SIZE)%Z → valid_images ≠ [] →
  ∃ final_data rep,
    analyse_and_summarise BATCH_SIZE json_loads call_model future_repr
      now mean today n valid_images = Analysed final_data (inr rep)
    ∧ length valid_images ≤ length final_data
    ∧ total_images rep = length final_data
    ∧ images_completes rep + images_partielles rep + images_erreur rep
      = total_images rep.
Proof.
  intros Hpos Hne. unfold analyse_and_summarise.
  rewrite analyze_images_run by lia.
  pose proof (analyze_run_length BATCH_SIZE json_loads call_model future_repr
                n valid_images Hpos) as Hlen.
  set (raw := (analyze_run _ _ _ _ n valid_images).2) in *. clearbody raw.
  assert (Hraw : 0 < length raw) by (destruct valid_images; [done|cbn in *; lia]).
  destruct (process_results_stats_from now raw 1
              ([], {| total := length raw; valides := 0;
                      erreurs := 0; partiels := 0 |}))
    as (_ & _ & _ & _ & Hsum).
  cbn zeta in Hsum. cbn [Nat.add] in Hsum.
  rewrite <- process_results_records in Hsum.
  assert (Hout : length (process_results now raw).1 = length raw)
    by (by rewrite process_results_records, length_imap).
  destruct raw as [|x xs] eqn:Eraw; [cbn in Hraw; lia|]. rewrite <- Eraw in *.
  cbn zeta. unfold generate_summary_report.
  rewrite decide_False by lia.
  eexists _, _. split; [done|].
  cbn [total_images images_completes images_partielles images_erreur].
  split; [lia|]. split; [done|]. lia.
Qed.

End main_more.

End MainMore.

(** ** Further sample runs *)

Module MoreRuns.
Import Settings FileManager ImageProcessor GeminiClient GeminiClientSpec.
Import GeminiClientRest DataProcessor DataProcessorRest FileManagerRest.
Import ImageProcessorRest Samples MoreSamples.

(** A response with two products for a batch of one image. *)
Lemma extra_products_are_kept_sample :
  let results := _parse_gemini_response two_products "{}" [image_a] in
  length results = 2
  ∧ ∃ rec, results !! 1 = Some rec
           ∧ rec !! "nom_fichier" = Some (VStr "image_inconnue_2")
           ∧ rec !! "chemin_fichier" = Some (VStr "").
Proof.
  destruct (GeminiClientMore.extra_products_are_kept two_products "{}"
              [image_a] [milk; water] eq_refl ltac:(cbn; lia)) as [Hlen Hrec].
  destruct (Hrec 1 water ltac:(cbn; lia) eq_refl) as (rec & H1 & H2 & H3 & _).
  split; [exact Hlen|]. exists rec. split; [exact H1|]. split; [exact H2|exact H3].
Defined.



(** A run of steps 5 and 6 in which every call fails: four rows, all of
    them counted. *)
Lemma analysis_always_reports_sample :
  ∃ final_data rep,
    Main.analyse_and_summarise 2 one_product failing_model sample_future
      sample_clock (λ _, 0%float) "2025-01-01 12:00:00" 0 four_images
    = Main.Analysed final_data (inr rep)
    ∧ length four_images ≤ length final_data
    ∧ total_images rep = length final_data
    ∧ images_completes rep + images_partielles rep + images_erreur rep
      = total_images rep.
Proof.
  apply (MainMore.analysis_always_reports 2 one_product failing_model
           sample_future sample_clock (λ _, 0%float) "2025-01-01 12:00:00"
           0 four_images); [lia|done].
Defined.

(** The fenced response of the sample model. *)
Lemma fences_removed_sample : strip_fences fenced_response = "{}".
Proof.
  exact (proj1 (GeminiClientMore.fences_removed fenced_response " {} ") eq_refl).
Defined.

(** A move to a directory in which the name of the image and its first
    numbered name are taken: the image goes to the second numbered name. *)
Example move_to_processed_numbered :
  ∃ w', move_to_processed "/data/processed" input_a crowded_world
        = Some (inr (path_join "/data/processed" "a_2.jpg"), w')
        ∧ fs w' !! "/data/processed/a_2.jpg" = Some small_content
        ∧ fs w' !! "/data/input/a.jpg" = None
        ∧ fs w' !! "/data/processed/a.jpg" = Some [Byte.x01].
Proof. eexists. by vm_compute. Qed.

(** The validation keeps the file the codec accepts and leaves out the
    missing one. *)
Example validate_processed_images_sample :
  (validate_processed_images default_limit sample_verify sample_format
     [input_missing; input_a] sample_world).1 = [input_a].
Proof. by vm_compute. Qed.

(** The summary of a run in which one product comes back for four images:
    nothing is complete. *)
Example summary_sample :
  match generate_summary_report (λ _, 0%float) "2025-01-01 12:00:00"
          (process_results sample_clock
             (_parse_gemini_response one_product "{}" three_images)).1 with
  | inr rep =>
      (total_images rep, images_completes rep, images_partielles rep,
       images_erreur rep) = (3, 0, 3, 0)
  | inl _ => False
  end.
Proof. by vm_compute. Qed.

End MoreRuns.
